(** * httransform: dialer and Basic-authentication layer

    A shallow embedding of [dialers/base.go] and of the two Basic
    authenticators of the [auth] package, with the properties the
    specification states about them and further properties of the code.

    Conventions.  A Go [string] or [[]byte] is a Rocq [string] (a sequence of
    8-bit characters); a Go [int] is a [Z]; [-1] is what [IndexByte] returns
    when the byte is absent.  A function that returns [(value, error)]
    returns a sum or a record with an optional error. *)

From Stdlib Require Import ZArith Ascii String List Lia Bool.
From stdpp Require Import base list strings gmap.

Local Open Scope string_scope.
Local Open Scope Z_scope.

(** ** Byte strings, as the Go code indexes and slices them *)

Module GoBytes.

Definition byte_val (c : ascii) : Z := Z.of_N (N_of_ascii c).

(** [len(s)] *)
Definition len (s : string) : Z := Z.of_nat (String.length s).

(** [strings.IndexByte(s, c)] and [bytes.IndexByte]: index of the first
    occurrence of [c] in [s], or [-1]. *)
Fixpoint IndexByte_from (s : string) (c : ascii) (i : Z) : Z :=
  match s with
  | EmptyString => -1
  | String a rest => if Ascii.eqb a c then i else IndexByte_from rest c (i + 1)
  end.

Definition IndexByte (s : string) (c : ascii) : Z := IndexByte_from s c 0.

Fixpoint str_take (n : nat) (s : string) : string :=
  match n, s with
  | S n', String a rest => String a (str_take n' rest)
  | _, _ => EmptyString
  end.

Fixpoint str_drop (n : nat) (s : string) : string :=
  match n, s with
  | S n', String _ rest => str_drop n' rest
  | _, _ => s
  end.

(** [s[:pos]] and [s[pos:]], for [0 <= pos <= len(s)] (outside of that range
    Go panics; every slice below is taken at an index inside the range). *)
Definition slice_to (s : string) (pos : Z) : string := str_take (Z.to_nat pos) s.
Definition slice_from (s : string) (pos : Z) : string := str_drop (Z.to_nat pos) s.

Definition is_blank (c : ascii) : bool :=
  Ascii.eqb c " "%char || Ascii.eqb c "009"%char.

(** The loop
    [for pos < len(text) && (text[pos] == ' ' || text[pos] == '\t') { pos++ }]
    run on the suffix [text[pos:]]: the position it stops at. *)
Fixpoint skip_blanks (rest : string) (pos : Z) : Z :=
  match rest with
  | String c rest' => if is_blank c then skip_blanks rest' (pos + 1) else pos
  | EmptyString => pos
  end.

(** What is left of a string after its leading spaces and tabs. *)
Fixpoint trim_blanks (s : string) : string :=
  match s with
  | String c rest => if is_blank c then trim_blanks rest else s
  | EmptyString => s
  end.

End GoBytes.

(** ** [crypto/subtle] *)

Module Subtle.
Import GoBytes.

(** [ConstantTimeByteEq(x, y) = int((uint32(x^y) - 1) >> 31)] *)
Definition ConstantTimeByteEq (x y : Z) : Z :=
  Z.shiftr ((Z.lxor x y - 1) mod 2 ^ 32) 31.

(** The accumulation [v |= x[i] ^ y[i]] over two slices of equal length. *)
Fixpoint xor_fold (x y : string) (v : Z) : Z :=
  match x, y with
  | String a x', String b y' =>
      xor_fold x' y' (Z.lor v (Z.lxor (byte_val a) (byte_val b)))
  | _, _ => v
  end.

(** [ConstantTimeCompare(x, y)]: 1 when the slices are equal, 0 otherwise;
    slices of different lengths give 0 at once. *)
Definition ConstantTimeCompare (x y : string) : Z :=
  if negb (len x =? len y) then 0
  else ConstantTimeByteEq (xor_fold x y 0) 0.

End Subtle.

(** ** [unicode/utf8] and [strings.EqualFold] *)

Module Unicode.
Import GoBytes.

Definition RuneError : Z := 65533.
Definition RuneSelf : Z := 128.

Definition continuation (b : Z) : bool := (128 <=? b) && (b <=? 191).

(** [utf8.DecodeRuneInString]: the first rune of a non-empty string and the
    number of bytes it takes; an invalid or truncated encoding is
    [RuneError] of width 1.  The case analysis is the one of the tables
    [first] and [acceptRanges]. *)
Definition DecodeRune (s : string) : Z * nat :=
  match s with
  | EmptyString => (RuneError, 0%nat)
  | String c0 r0 =>
      let s0 := byte_val c0 in
      if s0 <? 128 then (s0, 1%nat)
      else if (s0 <? 194) || (244 <? s0) then (RuneError, 1%nat)
      else
        let sz := if s0 <? 224 then 2%nat else if s0 <? 240 then 3%nat else 4%nat in
        let lo := if s0 =? 224 then 160 else if s0 =? 240 then 144 else 128 in
        let hi := if s0 =? 237 then 159 else if s0 =? 244 then 143 else 191 in
        match r0 with
        | EmptyString => (RuneError, 1%nat)
        | String c1 r1 =>
            let s1 := byte_val c1 in
            if (String.length s <? sz)%nat then (RuneError, 1%nat)
            else if (s1 <? lo) || (hi <? s1) then (RuneError, 1%nat)
            else if (sz <=? 2)%nat then
              (Z.lor (Z.shiftl (Z.land s0 31) 6) (Z.land s1 63), 2%nat)
            else
              match r1 with
              | EmptyString => (RuneError, 1%nat)
              | String c2 r2 =>
                  let s2 := byte_val c2 in
                  if negb (continuation s2) then (RuneError, 1%nat)
                  else if (sz <=? 3)%nat then
                    (Z.lor (Z.lor (Z.shiftl (Z.land s0 15) 12)
                                  (Z.shiftl (Z.land s1 63) 6))
                           (Z.land s2 63), 3%nat)
                  else
                    match r2 with
                    | EmptyString => (RuneError, 1%nat)
                    | String c3 _ =>
                        let s3 := byte_val c3 in
                        if negb (continuation s3) then (RuneError, 1%nat)
                        else
                          (Z.lor (Z.lor (Z.lor (Z.shiftl (Z.land s0 7) 18)
                                               (Z.shiftl (Z.land s1 63) 12))
                                        (Z.shiftl (Z.land s2 63) 6))
                                 (Z.land s3 63), 4%nat)
                    end
              end
        end
  end.

(** The runes a [for _, r := range s] loop yields.  Every step consumes at
    least one byte, so [String.length s] steps are enough. *)
Fixpoint runes_fuel (fuel : nat) (s : string) : list Z :=
  match fuel, s with
  | S fuel', String _ _ =>
      let '(r, size) := DecodeRune s in
      r :: runes_fuel fuel' (str_drop size s)
  | _, _ => []
  end.

Definition runes (s : string) : list Z := runes_fuel (String.length s) s.

(** [unicode.SimpleFold] on the runes that a comparison with an ASCII
    string reaches: the ASCII range (the table [asciiFold], in which [k]
    goes to the Kelvin sign U+212A and [s] to the long s U+017F) and these
    two runes, which [caseOrbit] sends back to [K] and [S].  The orbit of an
    ASCII rune never leaves this set. *)
Definition SimpleFold (r : Z) : Z :=
  if r =? 107 then 8490
  else if r =? 115 then 383
  else if (65 <=? r) && (r <=? 90) then r + 32
  else if (97 <=? r) && (r <=? 122) then r - 32
  else if r =? 383 then 83
  else if r =? 8490 then 75
  else r.

(** [for r != sr && r < tr { r = unicode.SimpleFold(r) }]; an orbit has at
    most four members. *)
Fixpoint fold_walk (fuel : nat) (sr tr r : Z) : Z :=
  match fuel with
  | O => r
  | S fuel' =>
      if negb (r =? sr) && (r <? tr) then fold_walk fuel' sr tr (SimpleFold r)
      else r
  end.

(** One iteration of the rune loop of [EqualFold]: do [sr] and [tr] fold to
    each other? *)
Definition rune_fold_eq (sr tr : Z) : bool :=
  if tr =? sr then true
  else
    let lo := Z.min sr tr in
    let hi := Z.max sr tr in
    if hi <? RuneSelf then (65 <=? lo) && (lo <=? 90) && (hi =? lo + 32)
    else fold_walk 4 lo hi (SimpleFold lo) =? hi.

Fixpoint runes_fold_eq (s t : list Z) : bool :=
  match s, t with
  | [], [] => true
  | sr :: s', tr :: t' => rune_fold_eq sr tr && runes_fold_eq s' t'
  | _, _ => false
  end.

(** [strings.EqualFold(s, t)] and [bytes.EqualFold(s, t)]: equality under
    Unicode simple case folding, rune by rune.  (The byte-wise fast path of
    the Go function is the same comparison on ASCII bytes.)  Exact whenever
    one of the two strings is ASCII, which is how the code calls it. *)
Definition EqualFold (s t : string) : bool := runes_fold_eq (runes s) (runes t).

(** The strings that are made of one spelling of each letter, in order. *)
Definition spellings (letters : list (list string)) : list string :=
  fold_right
    (fun choices rest => flat_map (fun c => List.map (String.append c) rest) choices)
    [EmptyString] letters.

(** The long s, U+017F, in UTF-8. *)
Definition long_s : string := String "197"%char (String "191"%char EmptyString).

(** The 48 spellings of [Basic]: each letter in either case, and the long s
    for the third. *)
Definition basic_spellings : list string :=
  spellings [["B"; "b"]; ["A"; "a"]; ["S"; "s"; long_s]; ["I"; "i"]; ["C"; "c"]].

End Unicode.

(** ** [encoding/base64], the encoding [StdEncoding] *)

Module Base64.
Import GoBytes.

Definition encodeStd : string :=
  "ABCDEFGHIJKLMNOPQRSTUVWXYZabcdefghijklmnopqrstuvwxyz0123456789+/".

Definition padChar : ascii := "="%char.

(** [enc.encode[v]] *)
Definition encode (v : Z) : ascii :=
  match String.get (Z.to_nat v) encodeStd with
  | Some c => c
  | None => padChar
  end.

(** [enc.decodeMap[c]]: the index of [c] in the alphabet, [0xff] for a byte
    outside of it. *)
Definition decodeMap (c : ascii) : Z :=
  let i := IndexByte encodeStd c in
  if i <? 0 then 255 else i.

Definition byte_of (v : Z) : ascii := ascii_of_N (Z.to_N (Z.land v 255)).

(** [Encode]: three bytes give four characters; a tail of one or two bytes
    is padded with [=]. *)
Fixpoint EncodeToString (src : string) : string :=
  match src with
  | String a (String b (String c rest)) =>
      let val := Z.lor (Z.lor (Z.shiftl (byte_val a) 16) (Z.shiftl (byte_val b) 8))
                       (byte_val c) in
      String (encode (Z.land (Z.shiftr val 18) 63))
        (String (encode (Z.land (Z.shiftr val 12) 63))
           (String (encode (Z.land (Z.shiftr val 6) 63))
              (String (encode (Z.land val 63)) (EncodeToString rest))))
  | String a (String b EmptyString) =>
      let val := Z.lor (Z.shiftl (byte_val a) 16) (Z.shiftl (byte_val b) 8) in
      String (encode (Z.land (Z.shiftr val 18) 63))
        (String (encode (Z.land (Z.shiftr val 12) 63))
           (String (encode (Z.land (Z.shiftr val 6) 63))
              (String padChar EmptyString)))
  | String a EmptyString =>
      let val := Z.shiftl (byte_val a) 16 in
      String (encode (Z.land (Z.shiftr val 18) 63))
        (String (encode (Z.land (Z.shiftr val 12) 63))
           (String padChar (String padChar EmptyString)))
  | EmptyString => EmptyString
  end.

(** [base64.CorruptInputError]: the offset of the offending byte. *)
Inductive CorruptInputError : Type := CorruptInput (offset : Z).

Definition is_newline (c : ascii) : bool :=
  Ascii.eqb c "010"%char || Ascii.eqb c "013"%char.

(** [for si < len(src) && (src[si] == '\n' || src[si] == '\r') { si++ }] *)
Fixpoint skip_newlines (src : string) (si : Z) : string * Z :=
  match src with
  | String c rest => if is_newline c then skip_newlines rest (si + 1) else (src, si)
  | EmptyString => (src, si)
  end.

(** The end of [decodeQuantum]: the [dlen - 1] bytes that [dlen] sextets
    hold ([dbuf] is zero beyond them). *)
Definition quantum_bytes (dbuf : list Z) : string :=
  let d (i : nat) := nth i dbuf 0 in
  let val := Z.lor (Z.lor (Z.lor (Z.shiftl (d 0%nat) 18) (Z.shiftl (d 1%nat) 12))
                          (Z.shiftl (d 2%nat) 6)) (d 3%nat) in
  str_take (Nat.pred (List.length dbuf))
    (String (byte_of (Z.shiftr val 16))
       (String (byte_of (Z.shiftr val 8))
          (String (byte_of val) EmptyString))).

(** After the padding of a quantum: only newlines may follow. *)
Definition after_padding (dbuf : list Z) (rest : string) (si : Z)
  : string + CorruptInputError :=
  let '(rest', si') := skip_newlines rest si in
  match rest' with
  | EmptyString => inl (quantum_bytes dbuf)
  | String _ _ => inr (CorruptInput si')
  end.

Definition prepend (bytes : string) (r : string + CorruptInputError)
  : string + CorruptInputError :=
  match r with
  | inl out => inl (bytes ++ out)%string
  | inr e => inr e
  end.

(** [Decode]: the loop over [decodeQuantum], written as one loop over the
    input.  [src] is what is left of the input, [si] the offset of its first
    byte, [dbuf] the sextets of the quantum that is being read ([j] of them,
    with [j < 4]).  Line feeds and carriage returns are skipped; the
    encoding is not strict, so the unused low bits of a padded quantum are
    not checked.  (The 8- and 4-character fast paths of the Go function
    decode the same quanta.) *)
Fixpoint decode_loop (src : string) (si : Z) (dbuf : list Z)
  : string + CorruptInputError :=
  match src with
  | EmptyString =>
      match dbuf with
      | [] => inl EmptyString
      | _ :: _ => inr (CorruptInput (si - Z.of_nat (List.length dbuf)))
      end
  | String c rest =>
      let si := si + 1 in
      let out := decodeMap c in
      if negb (out =? 255) then
        let dbuf := (dbuf ++ [out])%list in
        if (List.length dbuf =? 4)%nat
        then prepend (quantum_bytes dbuf) (decode_loop rest si [])
        else decode_loop rest si dbuf
      else if is_newline c then decode_loop rest si dbuf
      else if negb (Ascii.eqb c padChar) then inr (CorruptInput (si - 1))
      else
        match List.length dbuf with
        | 0%nat | 1%nat => inr (CorruptInput (si - 1))
        | 2%nat =>
            let '(rest1, si1) := skip_newlines rest si in
            match rest1 with
            | EmptyString => inr (CorruptInput si1)
            | String c2 rest2 =>
                if negb (Ascii.eqb c2 padChar) then inr (CorruptInput (si1 - 1))
                else after_padding dbuf rest2 (si1 + 1)
            end
        | _ => after_padding dbuf rest si
        end
  end.

(** [StdEncoding.DecodeString(s)]: the decoded bytes, or the error. *)
Definition DecodeString (s : string) : string + CorruptInputError :=
  decode_loop s 0 [].

End Base64.

(** ** Time, as [time.Duration]: nanoseconds *)

Module Time.
Definition Second : Z := 1000000000.
Definition Minute : Z := 60 * Second.
Definition Hour : Z := 60 * Minute.
End Time.

(** ** The bounded, expiring cache *)

Module BoundedCache.

Section Cache.
Context {K V : Type} `{EqDecision K}.

Record Entry : Type := mkEntry { key : K; value : V; written : Z }.

(** Modelled from the spec: the cache package ([cache.New], [Get], [Add]) and
    the [ttlru] cache are not among the sources.  Section 4.1 of the
    specification gives a capacity and a TTL fixed at construction, [Get]
    that never returns an entry older than the TTL, [Add] that inserts or
    overwrites and resets the age of the entry, and least-recently-used
    eviction past the capacity.  The entries are kept most recently used
    first; the clock is a parameter of every operation; the eviction
    callback is the no-op one. *)
Record Cache : Type := mkCache {
  capacity : nat;
  ttl : Z;
  entries : list Entry
}.

Definition New (size : nat) (d : Z) : Cache :=
  {| capacity := size; ttl := d; entries := [] |}.

(** An entry is live until [ttl] has elapsed since it was written. *)
Definition live (d now : Z) (e : Entry) : bool := now <? written e + d.

Definition has_key (k : K) (e : Entry) : bool := bool_decide (key e = k).

(** The entries that have not expired at [now]. *)
Definition sweep (now : Z) (c : Cache) : list Entry :=
  List.filter (live (ttl c) now) (entries c).

Definition without (k : K) (es : list Entry) : list Entry :=
  List.filter (fun e => negb (has_key k e)) es.

(** Modelled from the spec: [Get(key)] of section 4.1, at time [now].  A hit
    makes the entry the most recently used one. *)
Definition Get (now : Z) (k : K) (c : Cache) : option V * Cache :=
  let es := sweep now c in
  match List.find (has_key k) es with
  | Some e =>
      (Some (value e),
       {| capacity := capacity c; ttl := ttl c; entries := e :: without k es |})
  | None =>
      (None, {| capacity := capacity c; ttl := ttl c; entries := es |})
  end.

(** Modelled from the spec: [Add(key, value)] of section 4.1, at time [now].
    The new entry is the most recently used one; what exceeds the capacity
    is evicted from the least recently used end. *)
Definition Add (now : Z) (k : K) (v : V) (c : Cache) : Cache :=
  {| capacity := capacity c;
     ttl := ttl c;
     entries := firstn (capacity c)
                  ({| key := k; value := v; written := now |}
                     :: without k (sweep now c)) |}.

(** No two entries have the same key. *)
Definition wf (c : Cache) : Prop := List.NoDup (List.map key (entries c)).

(** What [Get] would return, without the change of recency. *)
Definition peek (now : Z) (k : K) (c : Cache) : option V :=
  fst (Get now k c).

(** The cache holds an entry for [k] that was written at [t0] or later, and
    the entries that were used more recently have keys among [others]. *)
Definition kept (k : K) (t0 : Z) (others : list K) (c : Cache) : Prop :=
  exists before e after,
    entries c = (before ++ e :: after)%list
    /\ key e = k /\ t0 <= written e
    /\ (forall e', In e' before -> In (key e') others)
    /\ List.NoDup (List.map key before).

End Cache.

Arguments Entry : clear implicits.
Arguments Cache : clear implicits.

End BoundedCache.

(** ** The Basic authenticator with a credential list and a decision cache
    ([basicAuth] of the [auth] package that works on [layers.LayerContext]) *)

Module BasicAuth.
Import GoBytes Unicode Subtle Base64.

Definition basicAuthCacheFor : Z := Time.Hour.
Definition basicAuthCacheSizeMultiplier : nat := 2.

(** The errors of the package; [ErrBasicAuthPayload] wraps the error of the
    base64 decoder. *)
Inductive AuthError : Type :=
| ErrBasicAuthMalformed
| ErrBasicAuthScheme
| ErrBasicAuthPayload (cause : CorruptInputError)
| ErrBasicAuthDelimiter
| ErrBasicAuthNoUser.

Record basicAuthResult : Type := mkResult {
  reply : option string;
  err : option AuthError
}.

Record basicAuthUserInfo : Type := mkUserInfo {
  user : string;
  password : string
}.

(** What a call does besides returning: the calls of the fixed-time
    comparison primitive, with their arguments, and the runs of the
    validator [doAuth]. *)
Inductive Event : Type :=
| EvConstantTimeCompare (x y : string)
| EvDoAuth (text : string).

(** A computation with the events it performs, in order. *)
Definition Traced (A : Type) : Type := A * list Event.

Definition ret {A} (a : A) : Traced A := (a, []).

Definition bind {A B} (m : Traced A) (f : A -> Traced B) : Traced B :=
  let '(a, t1) := m in
  let '(b, t2) := f a in
  (b, (t1 ++ t2)%list).

Notation "'let*' x ':=' m 'in' k" := (bind m (fun x => k))
  (at level 10, x name, m at level 100, k at level 200).

Definition compare (x y : string) : Traced Z :=
  (ConstantTimeCompare x y, [EvConstantTimeCompare x y]).

(** [func (u *basicAuthUserInfo) OK(user, password []byte) bool] *)
Definition OK (u : basicAuthUserInfo) (user' password' : string) : Traced bool :=
  let* userNum := compare (user u) user' in
  let* passNum := compare (password u) password' in
  ret (userNum + passNum =? 2).

(** The loop [for idx := range b.infos { found = b.infos[idx].OK(..) || found }]:
    [OK] is the left operand of [||], so it is evaluated for every entry. *)
Fixpoint check_infos (infos : list basicAuthUserInfo) (user' password' : string)
    (found : bool) : Traced bool :=
  match infos with
  | [] => ret found
  | u :: rest =>
      let* ok := OK u user' password' in
      check_infos rest user' password' (ok || found)
  end.

Definition failure (e : AuthError) : basicAuthResult :=
  {| reply := None; err := Some e |}.

(** [func (b *basicAuth) doAuth(text string) basicAuthResult] *)
Definition doAuth (infos : list basicAuthUserInfo) (text : string)
  : Traced basicAuthResult :=
  let pos := IndexByte text " " in
  if pos <? 0 then ret (failure ErrBasicAuthMalformed)
  else if negb (EqualFold (slice_to text pos) "Basic") then
    ret (failure ErrBasicAuthScheme)
  else
    let pos := skip_blanks (slice_from text pos) pos in
    match DecodeString (slice_from text pos) with
    | inr e => ret (failure (ErrBasicAuthPayload e))
    | inl decoded =>
        let pos := IndexByte decoded ":" in
        if pos <? 0 then ret (failure ErrBasicAuthDelimiter)
        else
          let* found := check_infos infos (slice_to decoded pos)
                          (slice_from decoded (pos + 1)) false in
          if found : bool
          then ret {| reply := Some (slice_to decoded pos); err := None |}
          else ret (failure ErrBasicAuthNoUser)
    end.

Record basicAuth : Type := mkBasicAuth {
  cache : BoundedCache.Cache string basicAuthResult;
  infos : list basicAuthUserInfo
}.

(** [func NewBasicAuth(userPasswords map[string]string) Auth].  The order in
    which Go ranges over a map is not fixed; [map_to_list] is one of them. *)
Definition NewBasicAuth (userPasswords : gmap string string) : basicAuth :=
  {| cache := BoundedCache.New (basicAuthCacheSizeMultiplier * size userPasswords)
                basicAuthCacheFor;
     infos := (fun kv => {| user := fst kv; password := snd kv |})
                <$> map_to_list userPasswords |}.

(** A run of the validator, as [Auth] calls it: [b.doAuth(header.Value)]. *)
Definition validate (b : basicAuth) (text : string) : Traced basicAuthResult :=
  let '(r, t) := doAuth (infos b) text in (r, EvDoAuth text :: t).

(** [func (b *basicAuth) Auth(ctx *layers.LayerContext) (bool, interface{}, error)],
    at time [now]; [header] is the value of the Proxy-Authorization header,
    [None] when the request has none.  The authenticator after the call is
    returned with the result. *)
Definition Auth (b : basicAuth) (now : Z) (header : option string)
  : Traced ((bool * option string * option AuthError) * basicAuth) :=
  match header with
  | None => ret ((false, None, None), b)
  | Some text =>
      match BoundedCache.Get now text (cache b) with
      | (Some item, c) =>
          ret ((true, reply item, err item), {| cache := c; infos := infos b |})
      | (None, c) =>
          let* resp := validate b text in
          ret ((true, reply resp, err resp),
               {| cache := BoundedCache.Add now text resp c; infos := infos b |})
      end
  end.

(** Does the configured pair [u] equal the decoded pair? *)
Definition same_pair (user' password' : string) (u : basicAuthUserInfo) : bool :=
  String.eqb (user u) user' && String.eqb (password u) password'.

(** The two calls of the primitive that [OK] makes for the pair [u]. *)
Definition pair_comparisons (user' password' : string) (u : basicAuthUserInfo)
  : list Event :=
  [EvConstantTimeCompare (user u) user';
   EvConstantTimeCompare (password u) password'].

(** The parts of what [Auth] returns: the triple of results, the
    authenticator after the call, and what the call did. *)
Definition outcome (r : Traced ((bool * option string * option AuthError) * basicAuth))
  : bool * option string * option AuthError := fst (fst r).

Definition after (r : Traced ((bool * option string * option AuthError) * basicAuth))
  : basicAuth := snd (fst r).

Definition events (r : Traced ((bool * option string * option AuthError) * basicAuth))
  : list Event := snd r.

(** The authenticators that calls of [Auth], at any times and with any
    headers, lead to from the one that [NewBasicAuth] returns. *)
Inductive reachable (userPasswords : gmap string string) : basicAuth -> Prop :=
| reachable_new : reachable userPasswords (NewBasicAuth userPasswords)
| reachable_Auth b now header :
    reachable userPasswords b ->
    reachable userPasswords (after (Auth b now header)).

(** Every cached decision is the decision of the validator on its key. *)
Definition consistent (b : basicAuth) : Prop :=
  forall e, In e (BoundedCache.entries (cache b)) ->
            BoundedCache.value e = fst (doAuth (infos b) (BoundedCache.key e)).

(** Calls of [Auth] one after the other, each with its time and its header:
    the authenticator after the last one. *)
Fixpoint Auth_all (b : basicAuth) (calls : list (Z * option string)) : basicAuth :=
  match calls with
  | [] => b
  | (now, header) :: rest => Auth_all (after (Auth b now header)) rest
  end.

(** The header texts of the calls that differ from [text], each once. *)
Definition other_texts (text : string) (calls : list (Z * option string))
  : list string :=
  nodup string_dec
    (List.filter (fun t => negb (String.eqb t text)) (omap snd calls)).

End BasicAuth.

(** ** The Basic authenticator with one credential pair
    ([basicAuth] of the [auth] package that works on [fasthttp.RequestCtx]) *)

Module BasicAuthSingle.
Import GoBytes Unicode Subtle Base64.

(** [ErrFailedAuth] and [ErrMalformedHeaderValue] are variables of the
    package; the third error is the [fmt.Errorf] of [doAuth], which carries
    the scheme it was given. *)
Inductive AuthError : Type :=
| ErrFailedAuth
| ErrMalformedHeaderValue
| ErrUnsupportedSchema (scheme : string).

Record basicAuth : Type := mkBasicAuth {
  user : string;
  expectedAuth : string
}.

(** [func (b *basicAuth) doAuth(header []byte) error]; [None] is [nil]. *)
Definition doAuth (b : basicAuth) (header : string) : option AuthError :=
  let pos := IndexByte header " " in
  if pos <? 0 then Some ErrMalformedHeaderValue
  else if negb (EqualFold (slice_to header pos) "Basic") then
    Some (ErrUnsupportedSchema (slice_to header pos))
  else
    let pos := skip_blanks (slice_from header pos) pos in
    if negb (ConstantTimeCompare (slice_from header pos) (expectedAuth b) =? 1)
    then Some ErrFailedAuth
    else None.

(** [func (b *basicAuth) Authenticate(ctx *fasthttp.RequestCtx) (string, error)],
    on the header lines of the request in the order [VisitAll] visits them. *)
Definition Authenticate (b : basicAuth) (headers : list (string * string))
  : string * option AuthError :=
  let authError :=
    fold_left
      (fun authError kv =>
         if EqualFold (fst kv) "Proxy-Authorization" then doAuth b (snd kv)
         else authError)
      headers (Some ErrFailedAuth) in
  match authError with
  | None => (user b, None)
  | Some e => ("", Some e)
  end.

(** [func NewBasicAuth(user, password string) Interface] *)
Definition NewBasicAuth (user' password' : string) : basicAuth :=
  {| user := user';
     expectedAuth := EncodeToString (user' ++ ":" ++ password') |}.

End BasicAuthSingle.

(** ** Package [dialers]: options *)

Module Opts.

Definition DefaultTimeout : Z := 20 * Time.Second.
Definition DefaultCleanupDNSEvery : Z := 5 * Time.Minute.

(** [type Opts struct]; the field [Context] plays no part below. *)
Record Opts : Type := mkOpts {
  Timeout : Z;
  CleanupDNSEvery : Z;
  TLSSkipVerify : bool
}.

Definition GetTimeout (o : Opts) : Z :=
  if Timeout o =? 0 then DefaultTimeout else Timeout o.

Definition GetCleanupDNSEvery (o : Opts) : Z :=
  if CleanupDNSEvery o =? 0 then DefaultCleanupDNSEvery else CleanupDNSEvery o.

Definition GetTLSSkipVerify (o : Opts) : bool := TLSSkipVerify o.

End Opts.

(** ** Package [dialers]: [Dial] *)

Module Dial.
Import GoBytes.

(** [net.JoinHostPort]: a host with a colon is an IPv6 literal and is put in
    brackets. *)
Definition JoinHostPort (host port : string) : string :=
  if 0 <=? IndexByte host ":" then "[" ++ host ++ "]:" ++ port
  else host ++ ":" ++ port.

(** The addresses [Dial] connects to for a list of IPs. *)
Definition addresses (port : string) (ips : list string) : list string :=
  List.map (fun ip => JoinHostPort ip port) ips.

Section Dial.

(** The collaborators of [Dial]: contexts with [context.WithTimeout], the
    DNS cache's [Lookup] and [net.Dialer.DialContext].  [World] is the state
    of everything outside of the program (the resolver, the network); a
    call reads and changes it. *)
Context {Ctx Conn ResolveError NetError World : Type}.
Variable WithTimeout : Ctx -> Z -> Ctx.
Variable Lookup : Ctx -> string -> World -> (list string + ResolveError) * World.
Variable DialContext :
  Ctx -> string -> string -> World -> (Conn + NetError) * World.

(** The errors [Dial] returns: [ErrNoIPs], and the two [fmt.Errorf] with the
    error they wrap ([err] is [nil] before the first attempt). *)
Inductive DialError : Type :=
| ErrNoIPs
| ErrCannotResolve (cause : ResolveError)
| ErrCannotDial (host : string) (cause : option NetError).

(** The loop [for _, ip := range ips] of [Dial].  The result is the
    connection or the value of [err] after the loop, the world after the
    attempts, and the addresses [DialContext] was called with, in order. *)
Fixpoint dial_each (ctx : Ctx) (port : string) (ips : list string)
    (err : option NetError) (w : World)
  : (Conn + option NetError) * World * list string :=
  match ips with
  | [] => (inr err, w, [])
  | ip :: rest =>
      let address := JoinHostPort ip port in
      match DialContext ctx "tcp" address w with
      | (inl conn, w') => (inl conn, w', [address])
      | (inr e, w') =>
          let '(r, w'', tried) := dial_each ctx port rest (Some e) w' in
          (r, w'', address :: tried)
      end
  end.

(** [func (b *base) Dial(ctx context.Context, host, port string) (net.Conn, error)],
    for a dialer whose [netDialer.Timeout] is [timeout]. *)
Definition Dial (timeout : Z) (ctx : Ctx) (host port : string) (w : World)
  : (Conn + DialError) * World * list string :=
  let ctx := WithTimeout ctx timeout in
  match Lookup ctx host w with
  | (inr e, w1) => (inr (ErrCannotResolve e), w1, [])
  | (inl ips, w1) =>
      if (List.length ips =? 0)%nat then (inr ErrNoIPs, w1, [])
      else
        match dial_each ctx port ips None w1 with
        | (inl conn, w2, tried) => (inl conn, w2, tried)
        | (inr err, w2, tried) => (inr (ErrCannotDial host err), w2, tried)
        end
  end.

(** Every address of [ips] is tried from world [w] on and fails; [w'] is the
    world after the last attempt and [e] its error. *)
Inductive all_fail (ctx : Ctx) (port : string)
  : list string -> World -> World -> NetError -> Prop :=
| all_fail_one ip w w' e :
    DialContext ctx "tcp" (JoinHostPort ip port) w = (inr e, w') ->
    all_fail ctx port [ip] w w' e
| all_fail_cons ip ips w w1 w' e1 e :
    DialContext ctx "tcp" (JoinHostPort ip port) w = (inr e1, w1) ->
    all_fail ctx port ips w1 w' e ->
    all_fail ctx port (ip :: ips) w w' e.

(** The addresses before [ip] are tried from [w] on and fail, leaving the
    world [w1]; the attempt at [ip] then succeeds with [conn]. *)
Definition first_success (ctx : Ctx) (port : string)
    (before : list string) (ip : string) (w w' : World) (conn : Conn) : Prop :=
  (before = [] /\ DialContext ctx "tcp" (JoinHostPort ip port) w = (inl conn, w'))
  \/ (exists w1 e, all_fail ctx port before w w1 e
        /\ DialContext ctx "tcp" (JoinHostPort ip port) w1 = (inl conn, w')).

End Dial.

Arguments DialError : clear implicits.

End Dial.

(** ** Package [dialers]: [PatchHTTPRequest] *)

Module Patch.
Import GoBytes Unicode.

(** [fasthttp.URI]: the parts of a parsed request URI that the accessors
    return.  Parsing puts what precedes the first [?] of the request target
    (scheme and host apart) in [pathOriginal] and what follows it, up to the
    fragment, in [queryString]. *)
Record URI : Type := mkURI {
  scheme : string;
  host : string;
  pathOriginal : string;
  queryString : string;
  hash : string
}.

(** [func (u *URI) Scheme() []byte]: [http] when the URI has no scheme. *)
Definition Scheme (u : URI) : string :=
  if (String.length (scheme u) =? 0)%nat then "http" else scheme u.

(** [func (u *URI) PathOriginal() []byte] *)
Definition PathOriginal (u : URI) : string := pathOriginal u.

(** [func (u *URI) QueryString() []byte] *)
Definition QueryString (u : URI) : string := queryString u.

(** The relative form of the target, path and query string: the original
    path followed, when there is a query, by [?] and the query. *)
Definition path_and_query (u : URI) : string :=
  if (String.length (queryString u) =? 0)%nat then pathOriginal u
  else pathOriginal u ++ "?" ++ queryString u.

(** [fasthttp.Request], the part that [PatchHTTPRequest] reads and writes:
    the Host header and the request target of the header
    ([req.Header.host], [req.Header.requestURI]), [req.isTLS], the flag
    [req.parsedURI] and the URI [req.uri], which holds the last parse of the
    target when the flag is set. *)
Record Request : Type := mkRequest {
  hostHeader : string;
  requestURI : string;
  isTLS : bool;
  parsedURI : bool;
  uri : URI
}.

(** [func (h *RequestHeader) RequestURI() []byte]: an empty target reads as
    [/]. *)
Definition RequestURI (req : Request) : string :=
  if (String.length (requestURI req) =? 0)%nat then "/" else requestURI req.

(** [func (req *Request) SetRequestURIBytes(requestURI []byte)]: the target
    is stored in the header and the URI is marked as not parsed. *)
Definition SetRequestURIBytes (req : Request) (target : string) : Request :=
  {| hostHeader := hostHeader req; requestURI := target; isTLS := isTLS req;
     parsedURI := false; uri := uri req |}.

Section Parser.

(** [func (u *URI) parse(host, uri []byte, isTLS bool)], the parser of
    fasthttp: the URI that it makes of a Host header and a request
    target. *)
Variable parse : string -> string -> bool -> URI.

(** [func (req *Request) parseURI()]: the target is parsed unless the URI is
    marked as parsed. *)
Definition parseURI (req : Request) : Request :=
  if parsedURI req then req
  else {| hostHeader := hostHeader req; requestURI := requestURI req;
          isTLS := isTLS req; parsedURI := true;
          uri := parse (hostHeader req) (RequestURI req) (isTLS req) |}.

(** [func (req *Request) URI() *URI]: the URI, and the request after the
    call. *)
Definition Request_URI (req : Request) : URI * Request :=
  let req' := parseURI req in (uri req', req').

(** [func (b *base) PatchHTTPRequest(req *fasthttp.Request)]; the request
    after the call. *)
Definition PatchHTTPRequest (req : Request) : Request :=
  let '(u, req) := Request_URI req in
  if EqualFold (Scheme u) "http"
  then
    let '(u, req) := Request_URI req in
    SetRequestURIBytes req (PathOriginal u)
  else req.

End Parser.

End Patch.

(** ** Package [dialers]: the TLS configuration store, [getTLSConfig] *)

Module TLSStore.

Definition TLSConfigCacheSize : nat := 512.
Definition TLSConfigTTL : Z := 10 * Time.Minute.
Definition DNSCacheSize : nat := 512.
Definition DNSCacheTTL : Z := 5 * Time.Minute.

(** A [tls.Config] as [getTLSConfig] builds it.  A session cache is an
    object of its own; it is named by the number it was allocated with. *)
Record tlsConfig : Type := mkConfig {
  ClientSessionCache : nat;
  InsecureSkipVerify : bool
}.

(** A construction of a configuration. *)
Record construction : Type := mkConstruction {
  for_host : string;
  made : nat;
  made_at : Z
}.

(** [type base struct], the part that the TLS store uses, with the memory
    it allocates in: a [*tls.Config] is an index in [heap].
    [tlsConfigsLock] is the goroutine that holds the mutex, if any.
    [built] records every construction: the host it was for, the pointer it
    gave, and the time. *)
Record base : Type := mkBase {
  timeout : Z;
  tlsConfigsLock : option nat;
  tlsConfigs : BoundedCache.Cache string nat;
  tlsSkipVerify : bool;
  heap : list tlsConfig;
  sessionCaches : nat;
  built : list construction
}.

(** [func NewBase(opt Opts) Dialer] *)
Definition NewBase (opt : Opts.Opts) : base :=
  {| timeout := Opts.GetTimeout opt;
     tlsConfigsLock := None;
     tlsConfigs := BoundedCache.New TLSConfigCacheSize TLSConfigTTL;
     tlsSkipVerify := Opts.GetTLSSkipVerify opt;
     heap := [];
     sessionCaches := 0;
     built := [] |}.

(** Where a goroutine that runs [getTLSConfig(host)] stands: before the
    unlocked [Get], before [Lock], before the [Get] under the lock, before
    the construction, before [Add], before the deferred [Unlock], and after
    the return. *)
Inductive pc : Type :=
| AtGet (host : string)
| AtLock (host : string)
| AtGetLocked (host : string)
| AtBuild (host : string)
| AtAdd (host : string) (conf : nat)
| AtUnlock (host : string) (conf : nat)
| Returned (host : string) (conf : nat).

Definition set_cache (b : base) (c : BoundedCache.Cache string nat) : base :=
  {| timeout := timeout b; tlsConfigsLock := tlsConfigsLock b; tlsConfigs := c;
     tlsSkipVerify := tlsSkipVerify b; heap := heap b;
     sessionCaches := sessionCaches b; built := built b |}.

Definition set_lock (b : base) (l : option nat) : base :=
  {| timeout := timeout b; tlsConfigsLock := l; tlsConfigs := tlsConfigs b;
     tlsSkipVerify := tlsSkipVerify b; heap := heap b;
     sessionCaches := sessionCaches b; built := built b |}.

(** [conf := &tls.Config{ClientSessionCache: tls.NewLRUClientSessionCache(0),
    InsecureSkipVerify: b.tlsSkipVerify}] *)
Definition build (now : Z) (host : string) (b : base) : nat * base :=
  let conf := List.length (heap b) in
  (conf,
   {| timeout := timeout b; tlsConfigsLock := tlsConfigsLock b;
      tlsConfigs := tlsConfigs b; tlsSkipVerify := tlsSkipVerify b;
      heap := (heap b ++ [{| ClientSessionCache := sessionCaches b;
                             InsecureSkipVerify := tlsSkipVerify b |}])%list;
      sessionCaches := S (sessionCaches b);
      built := (built b ++ [{| for_host := host; made := conf;
                               made_at := now |}])%list |}).

(** One step of goroutine [g] in [getTLSConfig], at time [now]; [None] when
    the goroutine cannot move (it waits for the mutex, or has returned). *)
Definition step_goroutine (g : nat) (now : Z) (b : base) (p : pc)
  : option (base * pc) :=
  match p with
  | AtGet host =>
      match BoundedCache.Get now host (tlsConfigs b) with
      | (Some conf, c) => Some (set_cache b c, Returned host conf)
      | (None, c) => Some (set_cache b c, AtLock host)
      end
  | AtLock host =>
      match tlsConfigsLock b with
      | None => Some (set_lock b (Some g), AtGetLocked host)
      | Some _ => None
      end
  | AtGetLocked host =>
      match BoundedCache.Get now host (tlsConfigs b) with
      | (Some conf, c) => Some (set_cache b c, AtUnlock host conf)
      | (None, c) => Some (set_cache b c, AtBuild host)
      end
  | AtBuild host =>
      let '(conf, b') := build now host b in Some (b', AtAdd host conf)
  | AtAdd host conf =>
      Some (set_cache b (BoundedCache.Add now host conf (tlsConfigs b)),
            AtUnlock host conf)
  | AtUnlock host conf => Some (set_lock b None, Returned host conf)
  | Returned _ _ => None
  end.

(** A call that runs alone, all of it at time [now]. *)
Fixpoint finish (fuel : nat) (g : nat) (now : Z) (b : base) (p : pc)
  : option (nat * base) :=
  match p with
  | Returned _ conf => Some (conf, b)
  | _ =>
      match fuel with
      | O => None
      | S fuel' =>
          match step_goroutine g now b p with
          | Some (b', p') => finish fuel' g now b' p'
          | None => None
          end
      end
  end.

(** [func (b *base) getTLSConfig(host string) *tls.Config], called when no
    other call is under way. *)
Definition getTLSConfig (now : Z) (host : string) (b : base) : option (nat * base) :=
  finish 6 0%nat now b (AtGet host).

(** Several goroutines in [getTLSConfig] on one dialer.  The clock never
    goes back. *)
Record System : Type := mkSystem {
  clock : Z;
  shared : base;
  goroutines : list pc
}.

Definition start (t0 : Z) (b : base) (hosts : list string) : System :=
  {| clock := t0; shared := b; goroutines := AtGet <$> hosts |}.

(** Goroutine [g] makes a step at time [now]. *)
Definition step (g : nat) (now : Z) (s : System) : option System :=
  if now <? clock s then None
  else
    match goroutines s !! g with
    | None => None
    | Some p =>
        match step_goroutine g now (shared s) p with
        | None => None
        | Some (b', p') =>
            Some {| clock := now; shared := b';
                    goroutines := <[g := p']> (goroutines s) |}
        end
    end.

(** A schedule: which goroutine moves, and when. *)
Fixpoint run (schedule : list (nat * Z)) (s : System) : option System :=
  match schedule with
  | [] => Some s
  | (g, now) :: rest =>
      match step g now s with
      | Some s' => run rest s'
      | None => None
      end
  end.

(** The constructions for [host], in the order in which they were made. *)
Definition built_for (host : string) (b : base) : list construction :=
  List.filter (fun k => String.eqb (for_host k) host) (built b).

(** The configuration [conf] was constructed for [host] at time [t]. *)
Definition constructed (b : base) (host : string) (conf : nat) (t : Z) : Prop :=
  In {| for_host := host; made := conf; made_at := t |} (built b).

Definition pc_host (p : pc) : string :=
  match p with
  | AtGet h | AtLock h | AtGetLocked h | AtBuild h
  | AtAdd h _ | AtUnlock h _ | Returned h _ => h
  end.

(** The configuration that the goroutine is about to return. *)
Definition pc_conf (p : pc) : option nat :=
  match p with
  | AtAdd _ conf | AtUnlock _ conf | Returned _ conf => Some conf
  | _ => None
  end.

(** Between [Lock] and the deferred [Unlock]. *)
Definition in_critical_section (p : pc) : bool :=
  match p with
  | AtGetLocked _ | AtBuild _ | AtAdd _ _ | AtUnlock _ _ => true
  | _ => false
  end.

Definition has_returned (p : pc) : bool :=
  match p with
  | Returned _ _ => true
  | _ => false
  end.

(** The steps that a goroutine has left, at most. *)
Definition steps_left (p : pc) : nat :=
  match p with
  | AtGet _ => 6
  | AtLock _ => 5
  | AtGetLocked _ => 4
  | AtBuild _ => 3
  | AtAdd _ _ => 2
  | AtUnlock _ _ => 1
  | Returned _ _ => 0
  end.

Definition work_left (s : System) : nat :=
  list_sum (steps_left <$> goroutines s).

(** All the calls have returned. *)
Definition all_returned (s : System) : Prop :=
  Forall (fun p => has_returned p = true) (goroutines s).

(** Every step of the schedule is made before [deadline]. *)
Definition before (deadline : Z) (schedule : list (nat * Z)) : Prop :=
  Forall (fun gt => snd gt < deadline) schedule.

(** What holds in every state of a system that was started at [t0] on a new
    dialer for the calls [hosts], when the hosts are few enough for the
    cache never to evict. *)
Record invariant (t0 : Z) (flag : bool) (hosts : list string) (s : System)
  : Prop := mkInvariant {
  inv_clock : t0 <= clock s;
  inv_hosts : pc_host <$> goroutines s = hosts;
  inv_flag : tlsSkipVerify (shared s) = flag;
  inv_capacity : BoundedCache.capacity (tlsConfigs (shared s)) = TLSConfigCacheSize;
  inv_ttl : BoundedCache.ttl (tlsConfigs (shared s)) = TLSConfigTTL;
  inv_wf : BoundedCache.wf (tlsConfigs (shared s));
  inv_entries : forall e,
      In e (BoundedCache.entries (tlsConfigs (shared s))) ->
      In (BoundedCache.key e) hosts
      /\ exists t, constructed (shared s) (BoundedCache.key e) (BoundedCache.value e) t
                   /\ t <= BoundedCache.written e;
  inv_times : forall host conf t,
      constructed (shared s) host conf t -> t0 <= t <= clock s;
  inv_spaced : forall host conf t conf' t',
      constructed (shared s) host conf t ->
      constructed (shared s) host conf' t' ->
      (conf = conf' /\ t = t') \/ t + TLSConfigTTL <= t' \/ t' + TLSConfigTTL <= t;
  inv_holder : forall g,
      tlsConfigsLock (shared s) = Some g ->
      exists p, goroutines s !! g = Some p /\ in_critical_section p = true;
  inv_held : forall g p,
      goroutines s !! g = Some p -> in_critical_section p = true ->
      tlsConfigsLock (shared s) = Some g;
  inv_cached : forall host conf t,
      constructed (shared s) host conf t ->
      (exists e, In e (BoundedCache.entries (tlsConfigs (shared s)))
                 /\ BoundedCache.key e = host /\ BoundedCache.value e = conf
                 /\ t <= BoundedCache.written e)
      \/ (exists g, goroutines s !! g = Some (AtAdd host conf))
      \/ t + TLSConfigTTL <= clock s;
  inv_build : forall g host conf t,
      goroutines s !! g = Some (AtBuild host) ->
      constructed (shared s) host conf t -> t + TLSConfigTTL <= clock s;
  inv_add : forall g host conf conf' t,
      goroutines s !! g = Some (AtAdd host conf) ->
      constructed (shared s) host conf' t ->
      conf' = conf \/ t + TLSConfigTTL <= clock s;
  inv_conf : forall g p conf,
      goroutines s !! g = Some p -> pc_conf p = Some conf ->
      exists t, constructed (shared s) (pc_host p) conf t;
  inv_heap : forall host conf t,
      constructed (shared s) host conf t ->
      heap (shared s) !! conf
      = Some {| ClientSessionCache := conf; InsecureSkipVerify := flag |};
  inv_sessions : sessionCaches (shared s) = List.length (heap (shared s));
  inv_fresh : List.NoDup (List.map made (built (shared s)))
}.

End TLSStore.

(** ** Package [dialers]: [UpgradeToTLS] and its watchdog goroutine *)

Module Upgrade.

(** The result of the call: the TLS connection, or the wrapped error of the
    handshake. *)
Inductive result : Type :=
| TLSConn
| ErrHandshake.

(** Where the caller stands in [UpgradeToTLS]: before [context.WithCancel],
    before the [go] statement, before [b.getTLSConfig(host)], in
    [tlsConn.Handshake()], at the [return] (the deferred [cancel()] has not
    run yet), and after the call. *)
Inductive caller_pc : Type :=
| AtWithCancel
| AtGo
| AtGetConfig
| InHandshake
| AtReturn (r : result)
| Done (r : result).

(** Where the watchdog stands: not launched, before
    [fasthttp.AcquireTimer], in the [select], before the [conn.Close()] of
    the branch that was chosen, before the deferred
    [fasthttp.ReleaseTimer], and finished. *)
Inductive watchdog_pc : Type :=
| NotLaunched
| AtAcquireTimer
| InSelect
| AtClose
| AtReleaseTimer
| Exited.

(** [ctxDone]: the channel [ctx.Done()] of the caller's context is closed.
    [ownDone]: the channel [ownCtx.Done()] is closed.  [timerOn]: the timer
    runs; [timerFired]: a value waits on [timer.C].  [connClosed]:
    [conn.Close()] was called.  [launched] counts the [go] statements that
    were executed. *)
Record State : Type := mkState {
  ctxDone : bool;
  ownDone : bool;
  timerOn : bool;
  timerFired : bool;
  connClosed : bool;
  caller : caller_pc;
  watchdog : watchdog_pc;
  launched : nat
}.

(** The call starts with a context that is cancelled or not. *)
Definition initial (cancelled : bool) : State :=
  {| ctxDone := cancelled; ownDone := false; timerOn := false;
     timerFired := false; connClosed := false;
     caller := AtWithCancel; watchdog := NotLaunched; launched := 0 |}.

(** The branch of [select] that the watchdog takes. *)
Inductive branch : Type :=
| OwnCtxDone
| CtxDone
| TimerC.

(** What can happen.  The caller and the watchdog make the steps of their
    code.  The rest of the world cancels the caller's context, lets the
    cancellation reach [ownCtx] (a context made by [WithCancel] is cancelled
    when its parent is), lets the timer fire, and ends the handshake: with
    success while the connection is open, with an error at any time. *)
Inductive action : Type :=
| CallerStep
| HandshakeOk
| HandshakeFails
| WatchdogStep
| Select (br : branch)
| CancelCtx
| Propagate
| TimerFires.

Definition set_caller (s : State) (c : caller_pc) : State :=
  {| ctxDone := ctxDone s; ownDone := ownDone s; timerOn := timerOn s;
     timerFired := timerFired s; connClosed := connClosed s;
     caller := c; watchdog := watchdog s; launched := launched s |}.

Definition set_watchdog (s : State) (w : watchdog_pc) : State :=
  {| ctxDone := ctxDone s; ownDone := ownDone s; timerOn := timerOn s;
     timerFired := timerFired s; connClosed := connClosed s;
     caller := caller s; watchdog := w; launched := launched s |}.

Definition set_ownDone (s : State) (d : bool) : State :=
  {| ctxDone := ctxDone s; ownDone := d; timerOn := timerOn s;
     timerFired := timerFired s; connClosed := connClosed s;
     caller := caller s; watchdog := watchdog s; launched := launched s |}.

(** One step; [None] when the action is not enabled.  A [select] takes any
    branch whose channel is ready, and waits while none is. *)
Definition step (a : action) (s : State) : option State :=
  match a, caller s, watchdog s with
  | CallerStep, AtWithCancel, _ =>
      (* ownCtx, cancel := context.WithCancel(ctx): cancelled from the
         start when ctx is *)
      Some (set_caller (set_ownDone s (ctxDone s)) AtGo)
  | CallerStep, AtGo, _ =>
      Some {| ctxDone := ctxDone s; ownDone := ownDone s; timerOn := timerOn s;
              timerFired := timerFired s; connClosed := connClosed s;
              caller := AtGetConfig; watchdog := AtAcquireTimer;
              launched := S (launched s) |}
  | CallerStep, AtGetConfig, _ => Some (set_caller s InHandshake)
  | CallerStep, AtReturn r, _ =>
      (* defer cancel() *)
      Some (set_caller (set_ownDone s true) (Done r))
  | HandshakeOk, InHandshake, _ =>
      if connClosed s then None else Some (set_caller s (AtReturn TLSConn))
  | HandshakeFails, InHandshake, _ => Some (set_caller s (AtReturn ErrHandshake))
  | WatchdogStep, _, AtAcquireTimer =>
      Some {| ctxDone := ctxDone s; ownDone := ownDone s; timerOn := true;
              timerFired := timerFired s; connClosed := connClosed s;
              caller := caller s; watchdog := InSelect; launched := launched s |}
  | Select OwnCtxDone, _, InSelect =>
      if ownDone s then Some (set_watchdog s AtReleaseTimer) else None
  | Select CtxDone, _, InSelect =>
      if ctxDone s then Some (set_watchdog s AtClose) else None
  | Select TimerC, _, InSelect =>
      if timerFired s then Some (set_watchdog s AtClose) else None
  | WatchdogStep, _, AtClose =>
      Some {| ctxDone := ctxDone s; ownDone := ownDone s; timerOn := timerOn s;
              timerFired := timerFired s; connClosed := true;
              caller := caller s; watchdog := AtReleaseTimer;
              launched := launched s |}
  | WatchdogStep, _, AtReleaseTimer =>
      Some {| ctxDone := ctxDone s; ownDone := ownDone s; timerOn := false;
              timerFired := timerFired s; connClosed := connClosed s;
              caller := caller s; watchdog := Exited; launched := launched s |}
  | CancelCtx, _, _ =>
      Some {| ctxDone := true; ownDone := ownDone s; timerOn := timerOn s;
              timerFired := timerFired s; connClosed := connClosed s;
              caller := caller s; watchdog := watchdog s; launched := launched s |}
  | Propagate, c, _ =>
      match c with
      | AtWithCancel => None
      | _ => if ctxDone s then Some (set_ownDone s true) else None
      end
  | TimerFires, _, _ =>
      if timerOn s
      then Some {| ctxDone := ctxDone s; ownDone := ownDone s; timerOn := timerOn s;
                   timerFired := true; connClosed := connClosed s;
                   caller := caller s; watchdog := watchdog s;
                   launched := launched s |}
      else None
  | _, _, _ => None
  end.

Fixpoint run (actions : list action) (s : State) : option State :=
  match actions with
  | [] => Some s
  | a :: rest =>
      match step a s with
      | Some s' => run rest s'
      | None => None
      end
  end.

(** The states that some sequence of steps reaches from [s]. *)
Definition reaches (s s' : State) : Prop := exists actions, run actions s = Some s'.

(** The steps that are left to the watchdog once [ownCtx] is cancelled. *)
Definition watchdog_exit (w : watchdog_pc) : list action :=
  match w with
  | NotLaunched | Exited => []
  | AtAcquireTimer => [WatchdogStep; Select OwnCtxDone; WatchdogStep]
  | InSelect => [Select OwnCtxDone; WatchdogStep]
  | AtClose => [WatchdogStep; WatchdogStep]
  | AtReleaseTimer => [WatchdogStep]
  end.

(** The [go] statements that the caller has executed when it stands at [c]. *)
Definition launches_at (c : caller_pc) : nat :=
  match c with
  | AtWithCancel | AtGo => 0
  | _ => 1
  end.

(** What holds in every state of a call. *)
Definition invariant (s : State) : Prop :=
  launched s = launches_at (caller s)
  /\ (watchdog s = NotLaunched <-> launched s = 0%nat)
  /\ (forall r, caller s = Done r -> ownDone s = true).

End Upgrade.

(** ** The spellings of a scheme *)

Module Schemes.
Import Unicode.

(** The 16 spellings of [http]: each letter in either case. *)
Definition http_spellings : list string :=
  spellings [["h"; "H"]; ["t"; "T"]; ["t"; "T"]; ["p"; "P"]].

End Schemes.

(** ** What holds during calls of [getTLSConfig] *)

Module TLSCalls.
Import TLSStore.

(** The mutex is held by a goroutine exactly while that goroutine is
    between [Lock] and [Unlock]. *)
Definition lock_discipline (s : System) : Prop :=
  (forall g, tlsConfigsLock (shared s) = Some g ->
             exists p, goroutines s !! g = Some p /\ in_critical_section p = true)
  /\ (forall g p, goroutines s !! g = Some p -> in_critical_section p = true ->
                  tlsConfigsLock (shared s) = Some g).

(** Every configuration in the cache, or about to be returned, was
    constructed for the host it is kept or returned for; a constructed
    configuration is in the heap, with the flag of the dialer and the
    session cache that was made for it. *)
Record accounted (flag : bool) (s : System) : Prop := mkAccounted {
  acc_flag : tlsSkipVerify (shared s) = flag;
  acc_entries : forall e,
      In e (BoundedCache.entries (tlsConfigs (shared s))) ->
      exists t, constructed (shared s) (BoundedCache.key e) (BoundedCache.value e) t;
  acc_conf : forall g p conf,
      goroutines s !! g = Some p -> pc_conf p = Some conf ->
      exists t, constructed (shared s) (pc_host p) conf t;
  acc_heap : forall k,
      In k (built (shared s)) ->
      heap (shared s) !! made k
      = Some {| ClientSessionCache := made k; InsecureSkipVerify := flag |};
  acc_sessions : sessionCaches (shared s) = List.length (heap (shared s));
  acc_fresh : List.NoDup (List.map made (built (shared s)))
}.

End TLSCalls.

(** ** What holds during a call of [UpgradeToTLS] *)

Module UpgradeCalls.
Import Upgrade.

(** The watchdog is about to close the connection, or the connection is
    closed, only when the caller's context is cancelled or the timer has
    fired. *)
Definition closes_for_cause (s : State) : Prop :=
  watchdog s = AtClose \/ connClosed s = true ->
  ctxDone s = true \/ timerFired s = true.

(** The timer runs only between [AcquireTimer] and [ReleaseTimer]. *)
Definition timer_held (s : State) : Prop :=
  timerOn s = true ->
  watchdog s = InSelect \/ watchdog s = AtClose \/ watchdog s = AtReleaseTimer.

(** The steps of the watchdog: the statements of its code and the choice of
    its [select]. *)
Definition is_watchdog_action (a : action) : bool :=
  match a with
  | WatchdogStep | Select _ => true
  | _ => false
  end.

Definition watchdog_steps (actions : list action) : nat :=
  List.length (List.filter is_watchdog_action actions).

(** The steps that the watchdog has before it at most: [AcquireTimer], the
    [select], [conn.Close()] and [ReleaseTimer]. *)
Definition watchdog_left (w : watchdog_pc) : nat :=
  match w with
  | NotLaunched | Exited => 0
  | AtAcquireTimer => 4
  | InSelect => 3
  | AtClose => 2
  | AtReleaseTimer => 1
  end.

End UpgradeCalls.

(** ** A resolver and a network to run [Dial] on *)

Module Example.

(** The resolver knows [example.com], with three addresses, and
    [empty.example], with none.  The world counts the calls. *)
Definition lookup (ctx : unit) (host : string) (w : nat)
  : (list string + string) * nat :=
  if String.eqb host "example.com"
  then (inl ["10.0.0.1"; "10.0.0.2"; "10.0.0.3"], S w)
  else if String.eqb host "empty.example" then (inl [], S w)
  else (inr "no such host", S w).

(** Only [10.0.0.3] accepts connections; a connection is named by its
    address. *)
Definition dial (ctx : unit) (network address : string) (w : nat)
  : (string + string) * nat :=
  if String.eqb address "10.0.0.3:443" then (inl address, S w)
  else (inr ("connection refused: " ++ address), S w).

(** No address accepts connections. *)
Definition dial_down (ctx : unit) (network address : string) (w : nat)
  : (string + string) * nat :=
  (inr ("connection refused: " ++ address), S w).

Definition with_timeout (ctx : unit) (d : Z) : unit := ctx.

Definition alice : gmap string string := {[ "alice" := "secret" ]}.

(** A request for [http://example.com/search?q=1], as [req.URI()] parses
    it. *)
Definition search_request : Patch.Request :=
  {| Patch.hostHeader := "example.com";
     Patch.requestURI := "http://example.com/search?q=1";
     Patch.isTLS := false;
     Patch.parsedURI := true;
     Patch.uri := {| Patch.scheme := "http"; Patch.host := "example.com";
                     Patch.pathOriginal := "/search";
                     Patch.queryString := "q=1"; Patch.hash := "" |} |}.

(** A stand-in for the parser, for requests whose URI is parsed already:
    it is not run on them. *)
Definition parser_not_run (host target : string) (tls : bool) : Patch.URI :=
  {| Patch.scheme := ""; Patch.host := ""; Patch.pathOriginal := "";
     Patch.queryString := ""; Patch.hash := "" |}.

End Example.

(** * Properties *)

(** ** Byte strings *)

Module GoBytesFacts.
Import GoBytes.

Lemma byte_val_range (c : ascii) : 0 <= byte_val c < 256.
Proof.
  unfold byte_val. pose proof (N_ascii_bounded c). lia.
Qed.

Lemma byte_val_inj (a b : ascii) : byte_val a = byte_val b -> a = b.
Proof.
  unfold byte_val. intros H.
  rewrite <- (ascii_N_embedding a), <- (ascii_N_embedding b).
  f_equal. lia.
Qed.

Lemma len_nonneg (s : string) : 0 <= len s.
Proof. unfold len. lia. Qed.

Lemma len_String (c : ascii) (s : string) : len (String c s) = len s + 1.
Proof. unfold len. simpl. lia. Qed.

Lemma str_drop_add (a b : nat) (s : string) :
  str_drop (a + b) s = str_drop b (str_drop a s).
Proof.
  revert s. induction a as [|a IH]; intros s; simpl.
  - reflexivity.
  - destruct s as [|c s]; simpl.
    + destruct b; reflexivity.
    + apply IH.
Qed.

(** The position at which the loop over blanks stops is the start plus the
    number of leading blanks, and what is left there is the suffix without
    its leading blanks. *)
Lemma skip_blanks_trim (rest : string) (pos : Z) :
  exists n : nat,
    skip_blanks rest pos = pos + Z.of_nat n /\ str_drop n rest = trim_blanks rest.
Proof.
  revert pos. induction rest as [|c rest IH]; intros pos; simpl.
  - exists 0%nat. split; [lia | reflexivity].
  - destruct (is_blank c).
    + destruct (IH (pos + 1)) as (n & Hn & Hd).
      exists (S n). split; [lia | exact Hd].
    + exists 0%nat. split; [lia | reflexivity].
Qed.

Lemma slice_from_skip_blanks (text : string) (pos : Z) :
  0 <= pos ->
  slice_from text (skip_blanks (slice_from text pos) pos)
  = trim_blanks (slice_from text pos).
Proof.
  intros Hpos.
  destruct (skip_blanks_trim (slice_from text pos) pos) as (n & Hn & Hd).
  rewrite Hn. unfold slice_from in *.
  replace (Z.to_nat (pos + Z.of_nat n)) with (Z.to_nat pos + n)%nat by lia.
  rewrite str_drop_add. exact Hd.
Qed.

Lemma trim_blanks_no_blank (c : ascii) (s : string) :
  is_blank c = false -> trim_blanks (String c s) = String c s.
Proof. intros H. simpl. rewrite H. reflexivity. Qed.

Lemma IndexByte_from_bounds (s : string) (c : ascii) (i : Z) :
  IndexByte_from s c i = -1 \/ i <= IndexByte_from s c i < i + len s.
Proof.
  revert i. induction s as [|a s IH]; intros i; simpl.
  - left. reflexivity.
  - rewrite len_String. destruct (Ascii.eqb a c).
    + right. pose proof (len_nonneg s). lia.
    + destruct (IH (i + 1)) as [H | H]; [left; exact H | right; lia].
Qed.

(** [IndexByte] is [-1] or an index of the string. *)
Lemma IndexByte_bounds (s : string) (c : ascii) :
  IndexByte s c = -1 \/ 0 <= IndexByte s c < len s.
Proof. apply IndexByte_from_bounds. Qed.

End GoBytesFacts.

(** ** Case folding *)

Module UnicodeFacts.
Import GoBytes Unicode GoBytesFacts.

Lemma lor_ge_pow2 (a b k : Z) :
  0 <= k -> 0 <= b -> 2 ^ k <= a -> 2 ^ k <= Z.lor a b.
Proof.
  intros Hk Hb Ha.
  assert (0 < 2 ^ k) by (apply Z.pow_pos_nonneg; lia).
  assert (Hl : 0 < Z.lor a b).
  { assert (0 <= Z.lor a b) by (apply Z.lor_nonneg; lia).
    destruct (Z.eq_dec (Z.lor a b) 0) as [E | E]; [| lia].
    apply Z.lor_eq_0_iff in E. lia. }
  apply Z.log2_le_pow2; [exact Hl |].
  rewrite Z.log2_lor by lia.
  apply Z.log2_le_pow2 in Ha; lia.
Qed.

Lemma land_low (b n : Z) : 0 <= n -> Z.land b (Z.ones n) = b mod 2 ^ n.
Proof. apply Z.land_ones. Qed.

(** Two numbers without a common bit: the one is a multiple of [2 ^ n], the
    other is below it. *)
Lemma lor_disjoint (a b n : Z) :
  0 <= n -> 0 <= a -> 0 <= b < 2 ^ n -> Z.lor (a * 2 ^ n) b = a * 2 ^ n + b.
Proof.
  intros Hn Ha Hb.
  assert (Hz : Z.land (a * 2 ^ n) b = 0).
  { apply Z.bits_inj'. intros i Hi. rewrite Z.land_spec, Z.bits_0.
    destruct (Z.lt_ge_cases i n) as [Hlt | Hge].
    - rewrite Z.mul_pow2_bits_low by lia. reflexivity.
    - destruct (Z.eq_dec b 0) as [-> | Hb0].
      + rewrite Z.bits_0. apply andb_false_r.
      + rewrite (Z.bits_above_log2 b i); [apply andb_false_r | lia |].
        apply Z.log2_lt_pow2; [lia |].
        apply Z.lt_le_trans with (2 ^ n); [lia |].
        apply Z.pow_le_mono_r; lia. }
  pose proof (Z.add_lor_land (a * 2 ^ n) b). lia.
Qed.

Lemma lor_ge_2048 (a b : Z) : 0 <= b -> 2048 <= a -> 2048 <= Z.lor a b.
Proof. intros Hb Ha. apply (lor_ge_pow2 a b 11); lia. Qed.

(** What [DecodeRune] can return: an ASCII byte, the error rune, a rune of
    two bytes, or a rune from [U+0800] on. *)
Lemma DecodeRune_cases (c : ascii) (rest : string) (r : Z) (n : nat) :
  DecodeRune (String c rest) = (r, n) ->
  (r = byte_val c /\ n = 1%nat /\ byte_val c < 128)
  \/ (r = RuneError /\ n = 1%nat)
  \/ (n = 2%nat
      /\ exists c1 rest', rest = String c1 rest'
                          /\ 194 <= byte_val c <= 223
                          /\ 128 <= byte_val c1 <= 191
                          /\ r = byte_val c mod 32 * 64 + byte_val c1 mod 64)
  \/ (2048 <= r /\ (3 <= n)%nat).
Proof.
  unfold DecodeRune. pose proof (byte_val_range c) as Rc.
  set (s0 := byte_val c) in *.
  destruct (Z.ltb_spec s0 128) as [H0 | H0].
  { intros [= <- <-]. left. tauto. }
  destruct (Z.ltb_spec s0 194) as [H1 | H1]; simpl orb.
  { intros [= <- <-]. right. left. tauto. }
  destruct (Z.ltb_spec 244 s0) as [H2 | H2].
  { intros [= <- <-]. right. left. tauto. }
  destruct rest as [|c1 r1].
  { intros [= <- <-]. right. left. tauto. }
  pose proof (byte_val_range c1) as Rc1. set (s1 := byte_val c1) in *.
  destruct (_ <? _)%nat.
  { intros [= <- <-]. right. left. tauto. }
  destruct (_ || _) eqn:Hacc.
  { intros [= <- <-]. right. left. tauto. }
  apply orb_false_iff in Hacc as [Hlo Hhi].
  apply Z.ltb_ge in Hlo, Hhi.
  assert (Hs1 : 128 <= s1 <= 191 /\ (s0 = 224 -> 160 <= s1) /\ (s0 = 240 -> 144 <= s1)).
  { revert Hlo Hhi.
    destruct (Z.eqb_spec s0 224), (Z.eqb_spec s0 240), (Z.eqb_spec s0 237),
      (Z.eqb_spec s0 244); intros; lia. }
  clear Hlo Hhi.
  change 31 with (Z.ones 5). change 15 with (Z.ones 4). change 7 with (Z.ones 3).
  change 63 with (Z.ones 6).
  rewrite !Z.land_ones, !Z.shiftl_mul_pow2 by lia.
  change (2 ^ 3) with 8. change (2 ^ 4) with 16. change (2 ^ 5) with 32.
  change (2 ^ 6) with 64. change (2 ^ 12) with 4096. change (2 ^ 18) with 262144.
  assert (M5 : 0 <= s0 mod 32 < 32) by (apply Z.mod_pos_bound; lia).
  assert (M4 : 0 <= s0 mod 16 < 16) by (apply Z.mod_pos_bound; lia).
  assert (M3 : 0 <= s0 mod 8 < 8) by (apply Z.mod_pos_bound; lia).
  assert (M6 : 0 <= s1 mod 64 < 64) by (apply Z.mod_pos_bound; lia).
  destruct (Z.ltb_spec s0 224) as [H3 | H3]; simpl Nat.leb.
  { intros [= <- <-]. right. right. left. split; [reflexivity |].
    exists c1, r1. fold s1.
    repeat split; try lia.
    apply (lor_disjoint (s0 mod 32) (s1 mod 64) 6); lia. }
  destruct (Z.ltb_spec s0 240) as [H4 | H4]; simpl Nat.leb; cbv iota.
  - (* three bytes *)
    assert (Hbig : 2048 <= Z.lor (s0 mod 16 * 4096) (s1 mod 64 * 64)).
    { destruct (Z.eq_dec s0 224) as [E | E].
      - rewrite Z.lor_comm. apply lor_ge_2048; [lia |].
        Z.to_euclidean_division_equations. lia.
      - apply lor_ge_2048; [lia |].
        Z.to_euclidean_division_equations. lia. }
    destruct r1 as [|c2 r2].
    { intros [= <- <-]. right. left. tauto. }
    assert (M62 : 0 <= byte_val c2 mod 64 < 64) by (apply Z.mod_pos_bound; lia).
    destruct (negb _).
    { intros [= <- <-]. right. left. tauto. }
    intros [= <- <-]. right. right. right.
    rewrite !Z.land_ones by lia. change (2 ^ 6) with 64.
    split; [| lia]. apply lor_ge_2048; [lia | exact Hbig].
  - (* four bytes *)
    assert (Hbig : 2048 <= Z.lor (s0 mod 8 * 262144) (s1 mod 64 * 4096)).
    { destruct (Z.eq_dec s0 240) as [E | E].
      - rewrite Z.lor_comm. apply lor_ge_2048; [lia |].
        Z.to_euclidean_division_equations. lia.
      - apply lor_ge_2048; [lia |].
        Z.to_euclidean_division_equations. lia. }
    destruct r1 as [|c2 r2].
    { intros [= <- <-]. right. left. tauto. }
    assert (M62 : 0 <= byte_val c2 mod 64 < 64) by (apply Z.mod_pos_bound; lia).
    destruct (negb _).
    { intros [= <- <-]. right. left. tauto. }
    destruct r2 as [|c3 r3].
    { intros [= <- <-]. right. left. tauto. }
    assert (M63 : 0 <= byte_val c3 mod 64 < 64) by (apply Z.mod_pos_bound; lia).
    destruct (negb _).
    { intros [= <- <-]. right. left. tauto. }
    intros [= <- <-]. right. right. right.
    rewrite !Z.land_ones, ?Z.shiftl_mul_pow2 by lia. change (2 ^ 6) with 64.
    split; [| lia]. apply lor_ge_2048; [lia |].
    apply lor_ge_2048; [lia | exact Hbig].
Qed.

Ltac fold_constants :=
  repeat match goal with
    | |- context [SimpleFold ?c] =>
        let v := eval vm_compute in (SimpleFold c) in
        change (SimpleFold c) with v
    end.

Ltac split_comparisons :=
  repeat match goal with
    | |- context [Z.ltb ?a ?b] => destruct (Z.ltb_spec a b)
    | |- context [Z.leb ?a ?b] => destruct (Z.leb_spec a b)
    | |- context [Z.eqb ?a ?b] => destruct (Z.eqb_spec a b)
    end.

(** The runes that fold to an ASCII letter other than [k] and [s]: its two
    cases.  For [s] there is the long s as well. *)
Lemma rune_fold_eq_letter (r x : Z) :
  In x [66; 97; 105; 99] ->
  rune_fold_eq r x = true ->
  r = x \/ r = (if x <? 97 then x + 32 else x - 32).
Proof.
  intros Hx. unfold rune_fold_eq, RuneSelf.
  destruct (Z.ltb_spec r 128) as [Hr | Hr].
  - simpl in Hx. destruct Hx as [<- | [<- | [<- | [<- | []]]]]; simpl Z.ltb;
      cbv iota; split_comparisons; simpl; intros Hfold; try discriminate Hfold; lia.
  - rewrite Z.max_l, Z.min_r by (simpl in Hx; lia).
    simpl in Hx. destruct Hx as [<- | [<- | [<- | [<- | []]]]]; simpl Z.ltb;
      cbv iota;
      match goal with
      | |- context [Z.eqb ?x r] => destruct (Z.eqb_spec x r); [lia |]
      end;
      (destruct (Z.ltb_spec r 128); [lia |]);
      cbn [fold_walk SimpleFold]; simpl Z.eqb; simpl Z.leb; cbv iota; simpl negb;
      simpl andb; cbv iota;
      fold_constants;
      split_comparisons; simpl; intros Hfold; try discriminate Hfold; lia.
Qed.

Lemma rune_fold_eq_s (r : Z) :
  rune_fold_eq r 115 = true -> r = 115 \/ r = 83 \/ r = 383.
Proof.
  unfold rune_fold_eq, RuneSelf.
  destruct (Z.ltb_spec r 128) as [Hr | Hr].
  - split_comparisons; simpl; intros Hfold; try discriminate Hfold; lia.
  - rewrite Z.max_l, Z.min_r by lia.
    destruct (Z.eqb_spec 115 r); [lia |].
    destruct (Z.ltb_spec r 128); [lia |].
    cbn [fold_walk SimpleFold]; simpl Z.eqb; simpl Z.leb; cbv iota; simpl negb;
      simpl andb; cbv iota.
    fold_constants.
    split_comparisons; simpl; intros Hfold; try discriminate Hfold; lia.
Qed.

Lemma str_drop_length (k : nat) (s : string) :
  String.length (str_drop k s) = (String.length s - k)%nat.
Proof.
  revert s. induction k as [|k IH]; intros [|c s]; simpl; try reflexivity; try lia.
  apply IH.
Qed.

Lemma DecodeRune_size (c : ascii) (rest : string) (r : Z) (n : nat) :
  DecodeRune (String c rest) = (r, n) -> (1 <= n)%nat.
Proof.
  intros H. apply DecodeRune_cases in H as [H | [H | [H | H]]]; lia.
Qed.

Lemma runes_fuel_bounded (m : nat) (s : string) (n : nat) :
  (String.length s <= m)%nat -> (String.length s <= n)%nat ->
  runes_fuel n s = runes_fuel (String.length s) s.
Proof.
  revert s n. induction m as [|m IH]; intros s n Hm Hn.
  - destruct s as [|c rest]; [destruct n; reflexivity | simpl in Hm; lia].
  - destruct s as [|c rest]; [destruct n; reflexivity |].
    destruct n as [|n]; [simpl in Hn; lia |].
    cbn [String.length runes_fuel].
    destruct (DecodeRune (String c rest)) as [r size] eqn:Hd.
    pose proof (DecodeRune_size c rest r size Hd) as Hsize.
    assert (Hlen : (String.length (str_drop size (String c rest))
                    <= String.length rest)%nat).
    { rewrite str_drop_length. simpl. lia. }
    simpl in Hm, Hn. f_equal.
    rewrite (IH _ n) by lia. symmetry. apply IH; lia.
Qed.

(** The loop over the runes needs no more steps than the string has bytes. *)
Lemma runes_fuel_enough (n : nat) (s : string) :
  (String.length s <= n)%nat -> runes_fuel n s = runes s.
Proof. intros Hn. apply (runes_fuel_bounded (String.length s)); lia. Qed.

Lemma runes_String (c : ascii) (rest : string) :
  runes (String c rest)
  = fst (DecodeRune (String c rest))
      :: runes (str_drop (snd (DecodeRune (String c rest))) (String c rest)).
Proof.
  unfold runes at 1. cbn [String.length runes_fuel].
  destruct (DecodeRune (String c rest)) as [r size] eqn:Hd. simpl. f_equal.
  apply runes_fuel_enough. rewrite str_drop_length.
  pose proof (DecodeRune_size c rest r size Hd). simpl. lia.
Qed.

Lemma runes_fold_eq_nil (tok : string) :
  runes_fold_eq (runes tok) [] = true -> tok = "".
Proof.
  destruct tok as [|c rest]; [reflexivity |]. rewrite runes_String. discriminate.
Qed.

(** One step of the comparison with a letter other than [k] and [s]. *)
Lemma letter_step (x : Z) (xs : list Z) (tok : string) :
  In x [66; 97; 105; 99] ->
  runes_fold_eq (runes tok) (x :: xs) = true ->
  exists c rest,
    tok = String c rest
    /\ (byte_val c = x \/ byte_val c = if x <? 97 then x + 32 else x - 32)
    /\ runes_fold_eq (runes rest) xs = true.
Proof.
  intros Hx. destruct tok as [|c rest]; [discriminate |].
  rewrite runes_String.
  destruct (DecodeRune (String c rest)) as [r size] eqn:Hd.
  cbn [fst snd runes_fold_eq]. intros H. apply andb_true_iff in H as [Hr Hrest].
  apply (rune_fold_eq_letter r x Hx) in Hr.
  assert (Hsmall : r < 128 /\ r <> RuneError).
  { unfold RuneError. simpl in Hx.
    destruct Hx as [<- | [<- | [<- | [<- | []]]]]; simpl in Hr; lia. }
  apply DecodeRune_cases in Hd
    as [(-> & -> & _) | [(-> & _) | [(_ & c1 & r1 & _ & Hc & Hc1 & ->) | [Hbig _]]]].
  - exists c, rest. split; [reflexivity |]. split; [exact Hr | exact Hrest].
  - destruct Hsmall as [_ Hne]. congruence.
  - exfalso. destruct Hsmall as [Hlt _].
    revert Hlt. Z.to_euclidean_division_equations. lia.
  - lia.
Qed.

(** One step of the comparison with [s]. *)
Lemma s_step (xs : list Z) (tok : string) :
  runes_fold_eq (runes tok) (115 :: xs) = true ->
  exists p rest,
    tok = p ++ rest
    /\ (p = "S" \/ p = "s" \/ p = long_s)
    /\ runes_fold_eq (runes rest) xs = true.
Proof.
  destruct tok as [|c rest]; [discriminate |].
  rewrite runes_String.
  destruct (DecodeRune (String c rest)) as [r size] eqn:Hd.
  cbn [fst snd runes_fold_eq]. intros H. apply andb_true_iff in H as [Hr Hrest].
  apply rune_fold_eq_s in Hr.
  apply DecodeRune_cases in Hd
    as [(-> & -> & _) | [(-> & _) | [(-> & c1 & r1 & -> & Hc & Hc1 & ->) | [Hbig _]]]].
  - destruct Hr as [Hr | [Hr | Hr]].
    + exists "s", rest. change 115 with (byte_val "s") in Hr.
      apply byte_val_inj in Hr. subst c. tauto.
    + exists "S", rest. change 83 with (byte_val "S") in Hr.
      apply byte_val_inj in Hr. subst c. tauto.
    + pose proof (byte_val_range c). lia.
  - unfold RuneError in Hr. lia.
  - assert (Hb : byte_val c = 197 /\ byte_val c1 = 191).
    { revert Hr. Z.to_euclidean_division_equations. lia. }
    destruct Hb as [Hb Hb1].
    change 197 with (byte_val "197") in Hb. apply byte_val_inj in Hb.
    change 191 with (byte_val "191") in Hb1. apply byte_val_inj in Hb1.
    subst c c1. exists long_s, r1. split; [reflexivity |]. tauto.
  - lia.
Qed.

Lemma basic_spellings_fold :
  forallb (fun tok => EqualFold tok "Basic") basic_spellings = true.
Proof. vm_compute. reflexivity. Qed.

(** The tokens that [EqualFold] takes for [Basic]: its 48 spellings. *)
Lemma EqualFold_Basic (tok : string) :
  EqualFold tok "Basic" = true <-> In tok basic_spellings.
Proof.
  split.
  - unfold EqualFold. change (runes "Basic") with [66; 97; 115; 105; 99].
    intros H.
    apply letter_step in H as (c1 & t1 & -> & H1 & H); [| simpl; tauto].
    apply letter_step in H as (c2 & t2 & -> & H2 & H); [| simpl; tauto].
    apply s_step in H as (p3 & t3 & -> & H3 & H).
    apply letter_step in H as (c4 & t4 & -> & H4 & H); [| simpl; tauto].
    apply letter_step in H as (c5 & t5 & -> & H5 & H); [| simpl; tauto].
    apply runes_fold_eq_nil in H. subst t5.
    assert (E1 : c1 = "B"%char \/ c1 = "b"%char).
    { destruct H1 as [H1 | H1]; [left | right]; apply byte_val_inj; exact H1. }
    assert (E2 : c2 = "a"%char \/ c2 = "A"%char).
    { destruct H2 as [H2 | H2]; [left | right]; apply byte_val_inj; exact H2. }
    assert (E4 : c4 = "i"%char \/ c4 = "I"%char).
    { destruct H4 as [H4 | H4]; [left | right]; apply byte_val_inj; exact H4. }
    assert (E5 : c5 = "c"%char \/ c5 = "C"%char).
    { destruct H5 as [H5 | H5]; [left | right]; apply byte_val_inj; exact H5. }
    destruct E1 as [-> | ->], E2 as [-> | ->], H3 as [-> | [-> | ->]],
        E4 as [-> | ->], E5 as [-> | ->];
      vm_compute; repeat first [left; reflexivity | right].
  - intros Hin. apply (proj1 (forallb_forall _ _) basic_spellings_fold tok Hin).
Qed.

(** To decide whether a given token is a spelling of [Basic]. *)
Ltac spelled := solve [vm_compute; repeat first [left; reflexivity | right]].

Ltac not_spelled :=
  solve [vm_compute;
         let H := fresh in
         intros H; repeat (destruct H as [H | H]; [discriminate H |]);
         exact H].

Lemma EqualFold_Basic_false (tok : string) :
  EqualFold tok "Basic" = false <-> ~ In tok basic_spellings.
Proof.
  rewrite <- EqualFold_Basic. destruct (EqualFold tok "Basic"); split; congruence.
Qed.

End UnicodeFacts.

(** ** The fixed-time comparison *)

Module SubtleFacts.
Import GoBytes Subtle GoBytesFacts.

Lemma lor_byte (a b : Z) : 0 <= a < 256 -> 0 <= b < 256 -> 0 <= Z.lor a b < 256.
Proof.
  intros Ha Hb. split.
  - apply Z.lor_nonneg. lia.
  - destruct (Z.eq_dec (Z.lor a b) 0) as [E | E]; [lia |].
    assert (Hpos : 0 < Z.lor a b) by (pose proof (proj2 (Z.lor_nonneg a b)); lia).
    change 256 with (2 ^ 8). apply Z.log2_lt_pow2; [exact Hpos |].
    rewrite Z.log2_lor by lia.
    assert (La : Z.log2 a < 8).
    { destruct (Z.eq_dec a 0) as [-> | Na]; [simpl; lia |].
      apply Z.log2_lt_pow2; lia. }
    assert (Lb : Z.log2 b < 8).
    { destruct (Z.eq_dec b 0) as [-> | Nb]; [simpl; lia |].
      apply Z.log2_lt_pow2; lia. }
    lia.
Qed.

Lemma lxor_byte (a b : Z) : 0 <= a < 256 -> 0 <= b < 256 -> 0 <= Z.lxor a b < 256.
Proof.
  intros Ha Hb. split.
  - apply Z.lxor_nonneg. lia.
  - destruct (Z.eq_dec (Z.lxor a b) 0) as [E | E]; [lia |].
    assert (Hpos : 0 < Z.lxor a b) by (pose proof (proj2 (Z.lxor_nonneg a b)); lia).
    change 256 with (2 ^ 8). apply Z.log2_lt_pow2; [exact Hpos |].
    pose proof (Z.log2_lxor a b ltac:(lia) ltac:(lia)) as Hl.
    assert (La : Z.log2 a < 8).
    { destruct (Z.eq_dec a 0) as [-> | Na]; [simpl; lia |].
      apply Z.log2_lt_pow2; lia. }
    assert (Lb : Z.log2 b < 8).
    { destruct (Z.eq_dec b 0) as [-> | Nb]; [simpl; lia |].
      apply Z.log2_lt_pow2; lia. }
    lia.
Qed.

Lemma ConstantTimeByteEq_zero (v : Z) :
  0 <= v < 256 -> ConstantTimeByteEq v 0 = if v =? 0 then 1 else 0.
Proof.
  intros Hv. unfold ConstantTimeByteEq. rewrite Z.lxor_0_r.
  destruct (Z.eqb_spec v 0) as [-> | Hn].
  - reflexivity.
  - rewrite Z.mod_small by lia.
    rewrite Z.shiftr_div_pow2 by lia.
    apply Z.div_small. lia.
Qed.

(** The accumulator stays a byte, and it is zero at the end exactly when it
    was zero at the start and the two slices are equal. *)
Lemma xor_fold_spec (x y : string) (v : Z) :
  String.length x = String.length y -> 0 <= v < 256 ->
  0 <= xor_fold x y v < 256 /\ (xor_fold x y v = 0 <-> v = 0 /\ x = y).
Proof.
  revert y v. induction x as [|a x IH]; intros [|b y] v Hlen Hv; simpl in *;
    try discriminate.
  - split; [exact Hv | tauto].
  - injection Hlen as Hlen.
    pose proof (byte_val_range a) as Ra. pose proof (byte_val_range b) as Rb.
    pose proof (lxor_byte _ _ Ra Rb) as Rx.
    pose proof (lor_byte _ _ Hv Rx) as Rv.
    destruct (IH y _ Hlen Rv) as [Hr Hz].
    split; [exact Hr |].
    rewrite Hz, Z.lor_eq_0_iff, Z.lxor_eq_0_iff. split.
    + intros [[Hv0 Hab] Hxy]. apply byte_val_inj in Hab. subst. tauto.
    + intros [Hv0 Heq]. injection Heq as -> ->. tauto.
Qed.

(** [ConstantTimeCompare] returns 1 on equal slices and 0 on all others. *)
Lemma ConstantTimeCompare_spec (x y : string) :
  ConstantTimeCompare x y = if String.eqb x y then 1 else 0.
Proof.
  unfold ConstantTimeCompare, len.
  destruct (Z.eqb_spec (Z.of_nat (String.length x)) (Z.of_nat (String.length y)))
    as [Hlen | Hlen]; simpl.
  - apply Nat2Z.inj in Hlen.
    destruct (xor_fold_spec x y 0 Hlen ltac:(lia)) as [Hr Hz].
    rewrite ConstantTimeByteEq_zero by exact Hr.
    destruct (String.eqb_spec x y) as [-> | Hne].
    + rewrite (proj2 Hz) by tauto. reflexivity.
    + destruct (Z.eqb_spec (xor_fold x y 0) 0) as [E | E]; [| reflexivity].
      apply Hz in E. tauto.
  - destruct (String.eqb_spec x y) as [-> | Hne]; [lia | reflexivity].
Qed.

Lemma ConstantTimeCompare_eq (x y : string) :
  ConstantTimeCompare x y = 1 <-> x = y.
Proof.
  rewrite ConstantTimeCompare_spec.
  destruct (String.eqb_spec x y); split; intros; try lia; congruence.
Qed.

End SubtleFacts.

(** ** The authenticator with a credential list: validation *)

Module BasicAuthFacts.
Import GoBytes Unicode Subtle Base64 BasicAuth GoBytesFacts UnicodeFacts SubtleFacts.

Lemma fst_bind {A B} (m : Traced A) (f : A -> Traced B) :
  fst (bind m f) = fst (f (fst m)).
Proof. destruct m as [a t]. simpl. destruct (f a). reflexivity. Qed.

Lemma snd_bind {A B} (m : Traced A) (f : A -> Traced B) :
  snd (bind m f) = (snd m ++ snd (f (fst m)))%list.
Proof. destruct m as [a t]. simpl. destruct (f a). reflexivity. Qed.

Lemma OK_value (u : basicAuthUserInfo) (user' password' : string) :
  fst (OK u user' password') = same_pair user' password' u.
Proof.
  unfold OK, same_pair, compare. simpl.
  rewrite !ConstantTimeCompare_spec.
  destruct (String.eqb (user u) user'), (String.eqb (password u) password');
    reflexivity.
Qed.

Lemma OK_trace (u : basicAuthUserInfo) (user' password' : string) :
  snd (OK u user' password') = pair_comparisons user' password' u.
Proof. reflexivity. Qed.

Lemma check_infos_value (infos : list basicAuthUserInfo) (user' password' : string)
    (found : bool) :
  fst (check_infos infos user' password' found)
  = found || existsb (same_pair user' password') infos.
Proof.
  revert found. induction infos as [|u infos IH]; intros found; cbn [check_infos].
  - simpl. rewrite orb_false_r. reflexivity.
  - rewrite fst_bind, IH, OK_value. simpl.
    destruct (same_pair user' password' u), found; reflexivity.
Qed.

Lemma check_infos_trace (infos : list basicAuthUserInfo) (user' password' : string)
    (found : bool) :
  snd (check_infos infos user' password' found)
  = flat_map (pair_comparisons user' password') infos.
Proof.
  revert found. induction infos as [|u infos IH]; intros found; cbn [check_infos].
  - reflexivity.
  - rewrite snd_bind, IH, OK_trace. reflexivity.
Qed.

Lemma existsb_same_pair (infos : list basicAuthUserInfo) (user' password' : string) :
  existsb (same_pair user' password') infos = true
  <-> exists u, In u infos /\ user u = user' /\ password u = password'.
Proof.
  rewrite existsb_exists. unfold same_pair. split.
  - intros (u & Hin & H). apply andb_true_iff in H as [H1 H2].
    apply String.eqb_eq in H1, H2. eauto.
  - intros (u & Hin & H1 & H2). exists u. split; [exact Hin |].
    apply andb_true_iff. split; apply String.eqb_eq; assumption.
Qed.

(** What [doAuth] does once the header has given a decoded pair. *)
Lemma doAuth_decoded (infos : list basicAuthUserInfo) (text decoded : string) :
  let pos := IndexByte text " " in
  let colon := IndexByte decoded ":" in
  0 <= pos ->
  EqualFold (slice_to text pos) "Basic" = true ->
  DecodeString (slice_from text (skip_blanks (slice_from text pos) pos))
    = inl decoded ->
  0 <= colon ->
  doAuth infos text =
  ((if existsb (same_pair (slice_to decoded colon) (slice_from decoded (colon + 1)))
          infos
    then {| reply := Some (slice_to decoded colon); err := None |}
    else failure ErrBasicAuthNoUser),
   flat_map (pair_comparisons (slice_to decoded colon)
               (slice_from decoded (colon + 1))) infos).
Proof.
  intros pos colon Hpos Hfold Hdec Hcolon. unfold doAuth.
  fold pos. destruct (Z.ltb_spec pos 0) as [? | _]; [lia |].
  rewrite Hfold. simpl negb. cbv iota.
  rewrite Hdec. fold colon.
  destruct (Z.ltb_spec colon 0) as [? | _]; [lia |].
  apply injective_projections.
  - rewrite fst_bind, check_infos_value. simpl.
    destruct (existsb _ infos); reflexivity.
  - rewrite snd_bind, check_infos_trace. simpl.
    destruct (fst (check_infos _ _ _ _)); simpl; rewrite app_nil_r; reflexivity.
Qed.

(** ** C9 *)

(** C9.  Each field is compared by the fixed-time primitive: whatever the
    outcome of the comparison of the user fields, [OK] also compares the
    password fields; and the loop of [doAuth] runs [OK] on every configured
    pair, in order, whether or not a pair has matched before.  For a header
    that gives a decoded pair, the comparisons that [doAuth] performs are
    these two per configured pair, of the fields of the configured pair
    with the decoded user and the decoded password, and no other; for a
    header that fails before, there is none. *)
Theorem comparisons_fixed_time_independent_exhaustive
    (infos : list basicAuthUserInfo) :
  (forall u user' password',
      snd (OK u user' password')
      = [EvConstantTimeCompare (user u) user';
         EvConstantTimeCompare (password u) password']
      /\ fst (OK u user' password')
         = ((ConstantTimeCompare (user u) user' =? 1)
            && (ConstantTimeCompare (password u) password' =? 1)))
  /\ (forall user' password' found,
        snd (check_infos infos user' password' found)
        = flat_map (pair_comparisons user' password') infos
        /\ List.length (snd (check_infos infos user' password' found))
           = (2 * List.length infos)%nat)
  /\ (forall text decoded,
        let pos := IndexByte text " " in
        let colon := IndexByte decoded ":" in
        0 <= pos ->
        In (slice_to text pos) basic_spellings ->
        DecodeString (trim_blanks (slice_from text pos)) = inl decoded ->
        0 <= colon ->
        snd (doAuth infos text)
        = flat_map (fun u =>
                      [EvConstantTimeCompare (user u) (slice_to decoded colon);
                       EvConstantTimeCompare (password u)
                         (slice_from decoded (colon + 1))])
            infos)
  /\ (forall text,
        let pos := IndexByte text " " in
        let payload := trim_blanks (slice_from text pos) in
        (pos < 0 -> snd (doAuth infos text) = [])
        /\ (0 <= pos -> ~ In (slice_to text pos) basic_spellings ->
            snd (doAuth infos text) = [])
        /\ (0 <= pos -> forall e, DecodeString payload = inr e ->
            snd (doAuth infos text) = [])
        /\ (0 <= pos ->
            forall decoded, DecodeString payload = inl decoded ->
            IndexByte decoded ":" < 0 ->
            snd (doAuth infos text) = [])).
Proof.
  split; [| split; [| split]].
  - intros u user' password'. split; [reflexivity |].
    unfold OK, compare. simpl. rewrite !ConstantTimeCompare_spec.
    destruct (String.eqb (user u) user'), (String.eqb (password u) password');
      reflexivity.
  - intros user' password' found. rewrite check_infos_trace. split; [reflexivity |].
    induction infos as [|u l IH]; simpl; [reflexivity | lia].
  - intros text decoded pos colon Hpos Hfold Hdec Hcolon.
    apply EqualFold_Basic in Hfold.
    rewrite <- (slice_from_skip_blanks text pos Hpos) in Hdec.
    rewrite (doAuth_decoded infos text decoded Hpos Hfold Hdec Hcolon).
    reflexivity.
  - intros text pos payload.
    assert (Hpayload : 0 <= pos ->
              slice_from text (skip_blanks (slice_from text pos) pos) = payload)
      by (intros Hpos; apply slice_from_skip_blanks, Hpos).
    unfold doAuth. fold pos. split; [| split; [| split]].
    + intros Hneg. destruct (Z.ltb_spec pos 0); [reflexivity | lia].
    + intros Hpos Hnot. apply EqualFold_Basic_false in Hnot.
      destruct (Z.ltb_spec pos 0); [reflexivity |]. rewrite Hnot. reflexivity.
    + intros Hpos e He. destruct (Z.ltb_spec pos 0); [reflexivity |].
      destruct (EqualFold _ "Basic"); simpl negb; cbv iota; [| reflexivity].
      rewrite (Hpayload Hpos), He. reflexivity.
    + intros Hpos decoded Hd Hc. destruct (Z.ltb_spec pos 0); [reflexivity |].
      destruct (EqualFold _ "Basic"); simpl negb; cbv iota; [| reflexivity].
      rewrite (Hpayload Hpos), Hd.
      destruct (Z.ltb_spec (IndexByte decoded ":") 0); [reflexivity | lia].
Qed.

(** Two configured pairs and the header of [bob] with a wrong password:
    the password is compared after the users have differed, and the second
    pair is compared after the first. *)
Lemma comparisons_fixed_time_independent_exhaustive_witness :
  let infos := [ {| user := "alice"; password := "secret" |};
                 {| user := "bob"; password := "hunter2" |} ] in
  snd (doAuth infos ("Basic " ++ EncodeToString "bob:wrong"))
  = [ EvConstantTimeCompare "alice" "bob"; EvConstantTimeCompare "secret" "wrong";
      EvConstantTimeCompare "bob" "bob"; EvConstantTimeCompare "hunter2" "wrong" ]
  /\ snd (doAuth infos "Bearer abc") = [].
Proof.
  cbv zeta.
  pose proof (comparisons_fixed_time_independent_exhaustive
                [ {| user := "alice"; password := "secret" |};
                  {| user := "bob"; password := "hunter2" |} ])
    as (_ & _ & H3 & H4).
  split.
  - apply (H3 ("Basic " ++ EncodeToString "bob:wrong") "bob:wrong");
      first [spelled | vm_compute; first [reflexivity | discriminate]].
  - apply (H4 "Bearer abc");
      first [not_spelled | vm_compute; first [reflexivity | discriminate]].
Defined.

(** ** C4 *)

(** C4.  For a header that has a space, a token before it that is a spelling
    of [Basic] and a payload, after the spaces and tabs that follow the
    token, that decodes to bytes with a colon, [doAuth] succeeds, with the
    bytes before the first colon as the identity, exactly when some
    configured pair has that user and the bytes after the colon as password;
    when no configured pair has both, the result is [ErrBasicAuthNoUser]. *)
Theorem doAuth_succeeds_iff_pair_configured
    (infos : list basicAuthUserInfo) (text decoded : string) :
  let pos := IndexByte text " " in
  let colon := IndexByte decoded ":" in
  let user' := slice_to decoded colon in
  let password' := slice_from decoded (colon + 1) in
  0 <= pos ->
  In (slice_to text pos) basic_spellings ->
  DecodeString (trim_blanks (slice_from text pos)) = inl decoded ->
  0 <= colon ->
  (fst (doAuth infos text) = {| reply := Some user'; err := None |}
   <-> exists u, In u infos /\ user u = user' /\ password u = password')
  /\ ((~ exists u, In u infos /\ user u = user' /\ password u = password')
      -> fst (doAuth infos text) = failure ErrBasicAuthNoUser).
Proof.
  intros pos colon user' password' Hpos Hfold Hdec Hcolon.
  apply EqualFold_Basic in Hfold.
  rewrite <- (slice_from_skip_blanks text pos Hpos) in Hdec.
  rewrite (doAuth_decoded infos text decoded Hpos Hfold Hdec Hcolon).
  fold colon user' password'. simpl fst.
  rewrite <- existsb_same_pair.
  destruct (existsb (same_pair user' password') infos); split.
  - tauto.
  - intros H. exfalso. apply H. reflexivity.
  - split; [discriminate | discriminate].
  - reflexivity.
Qed.

Lemma doAuth_succeeds_iff_pair_configured_witness :
  fst (doAuth (infos (NewBasicAuth Example.alice)) "Basic YWxpY2U6c2VjcmV0")
    = {| reply := Some "alice"; err := None |}
  <-> exists u, In u (infos (NewBasicAuth Example.alice))
                /\ user u = "alice" /\ password u = "secret".
Proof.
  apply (doAuth_succeeds_iff_pair_configured
           (infos (NewBasicAuth Example.alice))
           "Basic YWxpY2U6c2VjcmV0" "alice:secret");
    first [spelled | vm_compute; first [reflexivity | discriminate]].
Defined.

(** ** C5 *)

(** C5.  The failures of [doAuth], in the order of its checks: no space in
    the header; a token before the first space that is not a spelling of
    [Basic] (in any case of the letters; Go folds the long s to [s] too); a
    remainder, after the spaces and tabs that follow the token, that base64
    does not decode; decoded bytes without a colon. *)
Theorem doAuth_failures_in_order (infos : list basicAuthUserInfo) (text : string) :
  let pos := IndexByte text " " in
  let payload := trim_blanks (slice_from text pos) in
  (pos < 0 -> doAuth infos text = (failure ErrBasicAuthMalformed, []))
  /\ (0 <= pos -> ~ In (slice_to text pos) basic_spellings ->
      doAuth infos text = (failure ErrBasicAuthScheme, []))
  /\ (0 <= pos -> In (slice_to text pos) basic_spellings ->
      forall e, DecodeString payload = inr e ->
      doAuth infos text = (failure (ErrBasicAuthPayload e), []))
  /\ (0 <= pos -> In (slice_to text pos) basic_spellings ->
      forall decoded, DecodeString payload = inl decoded ->
      IndexByte decoded ":" < 0 ->
      doAuth infos text = (failure ErrBasicAuthDelimiter, [])).
Proof.
  intros pos payload. unfold doAuth. fold pos.
  repeat split.
  - intros H. destruct (Z.ltb_spec pos 0); [reflexivity | lia].
  - intros H Hf. apply EqualFold_Basic_false in Hf.
    destruct (Z.ltb_spec pos 0); [lia |]. rewrite Hf. reflexivity.
  - intros H Hf e He. apply EqualFold_Basic in Hf.
    destruct (Z.ltb_spec pos 0); [lia |]. rewrite Hf.
    simpl negb. cbv iota. rewrite slice_from_skip_blanks by exact H.
    fold payload. rewrite He. reflexivity.
  - intros H Hf decoded Hd Hc. apply EqualFold_Basic in Hf.
    destruct (Z.ltb_spec pos 0); [lia |]. rewrite Hf.
    simpl negb. cbv iota. rewrite slice_from_skip_blanks by exact H.
    fold payload. rewrite Hd.
    destruct (Z.ltb_spec (IndexByte decoded ":") 0); [reflexivity | lia].
Qed.

Lemma doAuth_failures_in_order_witness :
  doAuth [] "Basic" = (failure ErrBasicAuthMalformed, [])
  /\ doAuth [] "Digest abc" = (failure ErrBasicAuthScheme, [])
  /\ doAuth [] "Basic not-valid-base64!!"
     = (failure (ErrBasicAuthPayload (CorruptInput 3)), [])
  /\ doAuth [] "Basic  YWxpY2U=" = (failure ErrBasicAuthDelimiter, []).
Proof.
  split; [| split; [| split]].
  - apply (doAuth_failures_in_order [] "Basic"). vm_compute. reflexivity.
  - apply (doAuth_failures_in_order [] "Digest abc");
      first [not_spelled | vm_compute; first [reflexivity | discriminate]].
  - apply (doAuth_failures_in_order [] "Basic not-valid-base64!!");
      first [spelled | vm_compute; first [reflexivity | discriminate]].
  - apply (doAuth_failures_in_order [] "Basic  YWxpY2U=") with (decoded := "alice");
      first [spelled | vm_compute; first [reflexivity | discriminate]].
Defined.

End BasicAuthFacts.

(** ** The authenticator with one credential pair *)

Module BasicAuthSingleFacts.
Import GoBytes Unicode Subtle Base64 BasicAuthSingle GoBytesFacts UnicodeFacts
  SubtleFacts.

(** What [doAuth] returns for a header with a space. *)
Lemma doAuth_with_space (b : basicAuth) (header : string) :
  let pos := IndexByte header " " in
  0 <= pos ->
  doAuth b header =
  if negb (EqualFold (slice_to header pos) "Basic")
  then Some (ErrUnsupportedSchema (slice_to header pos))
  else if String.eqb (trim_blanks (slice_from header pos)) (expectedAuth b)
       then None else Some ErrFailedAuth.
Proof.
  intros pos Hpos. unfold doAuth. fold pos.
  destruct (Z.ltb_spec pos 0); [lia |].
  destruct (EqualFold _ "Basic"); simpl negb; cbv iota; [| reflexivity].
  rewrite slice_from_skip_blanks by exact Hpos.
  rewrite ConstantTimeCompare_spec.
  destruct (String.eqb _ (expectedAuth b)); reflexivity.
Qed.

(** A string that base64 decodes does not start with a space or a tab. *)
Lemma decoded_no_leading_blank (c : ascii) (s decoded : string) :
  DecodeString (String c s) = inl decoded -> is_blank c = false.
Proof.
  intros H. destruct (is_blank c) eqn:Hb; [| reflexivity].
  unfold is_blank in Hb. apply orb_true_iff in Hb as [Hb | Hb];
    apply Ascii.eqb_eq in Hb; subst c; discriminate H.
Qed.

Lemma trim_blanks_decodable (payload decoded : string) :
  DecodeString payload = inl decoded -> trim_blanks payload = payload.
Proof.
  destruct payload as [|c s]; [reflexivity |].
  intros H. apply trim_blanks_no_blank. eapply decoded_no_leading_blank, H.
Qed.

(** ** C10 *)

(** C10.  The authenticator made for [user'] and [password'] accepts a
    header exactly when the header has a space, the token before it is a
    spelling of [Basic], and the bytes after the spaces and tabs that follow the token
    are the base64 encoding of [user':password']; the comparison is on these
    bytes, so every other payload is refused with [ErrFailedAuth], also one
    that base64 decodes to [user':password']: for the user [user] and the
    password [pw] the payload [dXNlcjpwdx==] is one. *)
Theorem single_credential_accepts_exact_encoding_only
    (user' password' header : string) :
  let b := NewBasicAuth user' password' in
  let pos := IndexByte header " " in
  let payload := trim_blanks (slice_from header pos) in
  let expected := EncodeToString (user' ++ ":" ++ password') in
  (doAuth b header = None
   <-> 0 <= pos /\ In (slice_to header pos) basic_spellings
       /\ payload = expected)
  /\ (0 <= pos -> In (slice_to header pos) basic_spellings ->
      payload <> expected -> doAuth b header = Some ErrFailedAuth)
  /\ (forall other,
        DecodeString other = inl (user' ++ ":" ++ password') ->
        other <> expected ->
        doAuth b ("Basic " ++ other) = Some ErrFailedAuth)
  /\ (DecodeString "dXNlcjpwdx==" = inl "user:pw"
      /\ "dXNlcjpwdx==" <> EncodeToString "user:pw"
      /\ doAuth (NewBasicAuth "user" "pw") "Basic dXNlcjpwdx==" = Some ErrFailedAuth
      /\ doAuth (NewBasicAuth "user" "pw") "Basic dXNlcjpwdw==" = None).
Proof.
  intros b pos payload expected.
  assert (Hexp : expectedAuth b = expected) by reflexivity.
  split; [| split; [| split]].
  - split.
    + intros H. destruct (Z.ltb_spec pos 0) as [Hneg | Hpos].
      { unfold doAuth in H. fold pos in H.
        destruct (Z.ltb_spec pos 0); [discriminate | lia]. }
      rewrite (doAuth_with_space b header Hpos) in H. fold pos payload in H.
      rewrite Hexp in H.
      destruct (EqualFold (slice_to header pos) "Basic") eqn:Hfold;
        cbn [negb] in H; [| discriminate].
      apply EqualFold_Basic in Hfold.
      destruct (String.eqb_spec payload expected); [tauto | discriminate].
    + intros (Hpos & Hfold & Hpay). apply EqualFold_Basic in Hfold.
      rewrite (doAuth_with_space b header Hpos). fold pos payload.
      rewrite Hfold, Hexp, Hpay. cbn [negb].
      destruct (String.eqb_spec expected expected); [reflexivity | congruence].
  - intros Hpos Hfold Hne. apply EqualFold_Basic in Hfold.
    rewrite (doAuth_with_space b header Hpos). fold pos payload.
    rewrite Hfold, Hexp. cbn [negb].
    destruct (String.eqb_spec payload expected); [contradiction | reflexivity].
  - intros other Hdec Hne.
    assert (Hpos : 0 <= IndexByte ("Basic " ++ other) " ") by (vm_compute; discriminate).
    rewrite (doAuth_with_space b _ Hpos).
    change (IndexByte ("Basic " ++ other) " ") with 5.
    change (slice_to ("Basic " ++ other) 5) with "Basic".
    change (slice_from ("Basic " ++ other) 5) with (String " " other).
    change (EqualFold "Basic" "Basic") with true.
    change (trim_blanks (String " " other)) with (trim_blanks other).
    rewrite (trim_blanks_decodable other _ Hdec), Hexp. cbn [negb].
    destruct (String.eqb_spec other expected); [contradiction | reflexivity].
  - vm_compute. repeat split; discriminate.
Qed.

Lemma single_credential_accepts_exact_encoding_only_witness :
  doAuth (NewBasicAuth "user" "pw") "basic dXNlcjpwdx==" = Some ErrFailedAuth
  /\ doAuth (NewBasicAuth "user" "pw") "Basic dXNlcjpwdx==" = Some ErrFailedAuth.
Proof.
  split.
  - apply (single_credential_accepts_exact_encoding_only "user" "pw"
             "basic dXNlcjpwdx==");
      first [spelled | vm_compute; first [reflexivity | discriminate]].
  - apply (single_credential_accepts_exact_encoding_only "user" "pw" "")
      with (other := "dXNlcjpwdx=="); vm_compute;
      first [reflexivity | discriminate].
Defined.

End BasicAuthSingleFacts.

(** ** [Dial] *)

Module DialFacts.
Import GoBytes Dial.

Section DialFacts.
Context {Ctx Conn ResolveError NetError World : Type}.
Variable WithTimeout : Ctx -> Z -> Ctx.
Variable Lookup : Ctx -> string -> World -> (list string + ResolveError) * World.
Variable DialContext :
  Ctx -> string -> string -> World -> (Conn + NetError) * World.

Local Abbreviation dial_each := (dial_each DialContext).
Local Abbreviation all_fail := (all_fail DialContext).
Local Abbreviation first_success := (first_success DialContext).
Local Abbreviation Dial := (Dial WithTimeout Lookup DialContext).

(** The loop goes through addresses that fail and carries on with the rest,
    with the last error in [err]. *)
Lemma dial_each_all_fail (ctx : Ctx) (port : string) (ips rest : list string)
    (err : option NetError) (w w' : World) (e : NetError) :
  all_fail ctx port ips w w' e ->
  dial_each ctx port (ips ++ rest)%list err w =
  let '(r, w'', tried) := dial_each ctx port rest (Some e) w' in
  (r, w'', (addresses port ips ++ tried)%list).
Proof.
  intros H. revert err. induction H as [ip w w' e H | ip ips w w1 w' e1 e H _ IH];
    intros err; simpl; rewrite H.
  - destruct (dial_each ctx port rest (Some e) w') as [[r w''] tried]. reflexivity.
  - rewrite IH.
    destruct (dial_each ctx port rest (Some e) w') as [[r w''] tried]. reflexivity.
Qed.

Lemma dial_each_first_success (ctx : Ctx) (port : string)
    (before after : list string) (ip : string) (err : option NetError)
    (w w' : World) (conn : Conn) :
  first_success ctx port before ip w w' conn ->
  dial_each ctx port (before ++ ip :: after)%list err w
  = (inl conn, w', addresses port (before ++ [ip])%list).
Proof.
  intros [[-> H] | (w1 & e & Hfail & H)].
  - simpl. rewrite H. reflexivity.
  - rewrite (dial_each_all_fail ctx port before (ip :: after) err w w1 e Hfail).
    simpl. rewrite H. unfold addresses. rewrite map_app. reflexivity.
Qed.

(** The loop either finds a first address that accepts, or fails on all. *)
Lemma dial_each_cases (ctx : Ctx) (port : string) (ips : list string)
    (err : option NetError) (w : World) :
  ips <> [] ->
  (exists before ip after w' conn,
      ips = (before ++ ip :: after)%list
      /\ first_success ctx port before ip w w' conn)
  \/ (exists w' e, all_fail ctx port ips w w' e).
Proof.
  revert err w. induction ips as [|ip ips IH]; intros err w Hne; [congruence |].
  destruct (DialContext ctx "tcp" (JoinHostPort ip port) w) as [[conn | e] w1] eqn:H.
  - left. exists [], ip, ips, w1, conn. split; [reflexivity |]. left. tauto.
  - destruct ips as [|ip2 ips].
    + right. exists w1, e. constructor. exact H.
    + destruct (IH (Some e) w1 ltac:(discriminate))
        as [(before & ip' & after & w' & conn & Heq & Hs) | (w' & e' & Hf)].
      * left. exists (ip :: before), ip', after, w', conn. split.
        { rewrite Heq. reflexivity. }
        right. destruct Hs as [[-> Hs] | (w2 & e2 & Hf & Hs)].
        { exists w1, e. split; [constructor; exact H | exact Hs]. }
        { exists w2, e2. split; [econstructor; eassumption | exact Hs]. }
      * right. exists w', e'. econstructor; eassumption.
Qed.

(** ** C1 *)

(** C1.  When the resolver returns a non-empty list, [Dial] calls
    [DialContext] on the addresses in the order of the list.  If the
    addresses before some address fail and that one accepts, [Dial] returns
    its connection and has tried nothing after it; if all fail, [Dial] has
    tried all of them and returns the error of the last one, wrapped with
    the host.  One of the two is the case. *)
Theorem Dial_first_success_in_resolver_order
    (timeout : Z) (ctx : Ctx) (host port : string) (w w1 : World)
    (ips : list string) :
  Lookup (WithTimeout ctx timeout) host w = (inl ips, w1) ->
  ips <> [] ->
  let ctx' := WithTimeout ctx timeout in
  (forall before ip after w2 conn,
      ips = (before ++ ip :: after)%list ->
      first_success ctx' port before ip w1 w2 conn ->
      Dial timeout ctx host port w
      = (inl conn, w2, addresses port (before ++ [ip])%list))
  /\ (forall w2 e,
        all_fail ctx' port ips w1 w2 e ->
        Dial timeout ctx host port w
        = (inr (ErrCannotDial host (Some e)), w2, addresses port ips))
  /\ ((exists before ip after w2 conn,
          ips = (before ++ ip :: after)%list
          /\ first_success ctx' port before ip w1 w2 conn)
      \/ (exists w2 e, all_fail ctx' port ips w1 w2 e)).
Proof.
  intros Hlookup Hne ctx'. fold ctx' in Hlookup.
  assert (Hlen : (List.length ips =? 0)%nat = false).
  { destruct ips; [congruence | reflexivity]. }
  split; [| split].
  - intros before ip after w2 conn Heq Hs.
    unfold Dial.Dial. fold ctx'. rewrite Hlookup, Hlen, Heq.
    rewrite (dial_each_first_success ctx' port before after ip None w1 w2 conn Hs).
    reflexivity.
  - intros w2 e Hf.
    unfold Dial.Dial. fold ctx'. rewrite Hlookup, Hlen.
    pose proof (dial_each_all_fail ctx' port ips [] None w1 w2 e Hf) as H.
    rewrite app_nil_r in H. rewrite H. simpl. rewrite app_nil_r. reflexivity.
  - apply (dial_each_cases ctx' port ips None w1 Hne).
Qed.

(** ** C8 *)

(** C8.  [Dial] returns [ErrNoIPs] exactly when the resolver returns an
    empty list without an error; an error of the resolver comes back
    wrapped, as [ErrCannotResolve]. *)
Theorem Dial_NoIPs_iff_empty_resolution
    (timeout : Z) (ctx : Ctx) (host port : string) (w : World) :
  let ctx' := WithTimeout ctx timeout in
  (fst (fst (Dial timeout ctx host port w)) = inr ErrNoIPs
   <-> exists w1, Lookup ctx' host w = (inl [], w1))
  /\ (forall e w1,
        Lookup ctx' host w = (inr e, w1) ->
        Dial timeout ctx host port w = (inr (ErrCannotResolve e), w1, [])).
Proof.
  intros ctx'. unfold Dial.Dial. fold ctx'.
  destruct (Lookup ctx' host w) as [[ips | e] w1] eqn:Hl; split.
  - destruct ips as [|ip ips]; cbn [List.length Nat.eqb].
    + simpl. split; [eauto | reflexivity].
    + split.
      * destruct (dial_each ctx' port (ip :: ips) None w1) as [[[conn | err] w2] tried];
          simpl; discriminate.
      * intros (w2 & H). discriminate H.
  - intros e w2 H. discriminate H.
  - simpl. split; [discriminate |]. intros (w2 & H). discriminate H.
  - intros e' w2 H. injection H as -> ->. reflexivity.
Qed.

End DialFacts.

Lemma Dial_first_success_in_resolver_order_witness :
  Dial.Dial Example.with_timeout Example.lookup Example.dial 20 tt
    "example.com" "443" 0%nat
  = (inl "10.0.0.3:443", 4%nat, ["10.0.0.1:443"; "10.0.0.2:443"; "10.0.0.3:443"])
  /\ Dial.Dial Example.with_timeout Example.lookup Example.dial_down 20 tt
       "example.com" "443" 0%nat
     = (inr (ErrCannotDial "example.com"
               (Some "connection refused: 10.0.0.3:443")),
        4%nat, ["10.0.0.1:443"; "10.0.0.2:443"; "10.0.0.3:443"]).
Proof.
  split.
  - apply (Dial_first_success_in_resolver_order
             Example.with_timeout Example.lookup Example.dial 20 tt
             "example.com" "443" 0%nat 1%nat
             ["10.0.0.1"; "10.0.0.2"; "10.0.0.3"]
             eq_refl ltac:(discriminate))
      with (before := ["10.0.0.1"; "10.0.0.2"]) (ip := "10.0.0.3") (after := []).
    + reflexivity.
    + right. exists 3%nat, "connection refused: 10.0.0.2:443". split.
      * eapply all_fail_cons; [reflexivity |]. apply all_fail_one. reflexivity.
      * reflexivity.
  - apply (Dial_first_success_in_resolver_order
             Example.with_timeout Example.lookup Example.dial_down 20 tt
             "example.com" "443" 0%nat 1%nat
             ["10.0.0.1"; "10.0.0.2"; "10.0.0.3"]
             eq_refl ltac:(discriminate)).
    eapply all_fail_cons; [reflexivity |].
    eapply all_fail_cons; [reflexivity |]. apply all_fail_one. reflexivity.
Defined.

Lemma Dial_NoIPs_iff_empty_resolution_witness :
  Dial.Dial Example.with_timeout Example.lookup Example.dial 20 tt
    "nx.example" "443" 0%nat
  = (inr (ErrCannotResolve "no such host"), 1%nat, [])
  /\ fst (fst (Dial.Dial Example.with_timeout Example.lookup Example.dial 20 tt
                 "empty.example" "443" 0%nat)) = inr ErrNoIPs.
Proof.
  split.
  - apply (Dial_NoIPs_iff_empty_resolution
             Example.with_timeout Example.lookup Example.dial 20 tt
             "nx.example" "443" 0%nat). reflexivity.
  - apply (Dial_NoIPs_iff_empty_resolution
             Example.with_timeout Example.lookup Example.dial 20 tt
             "empty.example" "443" 0%nat). exists 1%nat. reflexivity.
Defined.

End DialFacts.

(** ** The bounded cache *)

Module BoundedCacheFacts.
Import BoundedCache.

Section Facts.
Context {K V : Type} `{EqDecision K}.
Implicit Types (c : Cache K V) (e : Entry K V) (k : K) (v : V).

Lemma In_firstn {A} (n : nat) (l : list A) (x : A) : In x (firstn n l) -> In x l.
Proof.
  revert l. induction n as [|n IH]; intros [|a l]; simpl; try tauto.
  intros [-> | H]; [left; reflexivity | right; apply IH, H].
Qed.

Lemma has_key_true k e : has_key k e = true <-> key e = k.
Proof. unfold has_key. apply bool_decide_eq_true. Qed.

Lemma has_key_false k e : has_key k e = false <-> key e <> k.
Proof. unfold has_key. apply bool_decide_eq_false. Qed.

Lemma without_In k (es : list (Entry K V)) e :
  In e (without k es) <-> In e es /\ key e <> k.
Proof.
  unfold without. rewrite filter_In, negb_true_iff, has_key_false. tauto.
Qed.

Lemma sweep_In now c e :
  In e (sweep now c) <-> In e (entries c) /\ live (ttl c) now e = true.
Proof. unfold sweep. apply filter_In. Qed.

Lemma live_iff d now e : live d now e = true <-> now < written e + d.
Proof. unfold live. apply Z.ltb_lt. Qed.

Lemma NoDup_keys_filter (f : Entry K V -> bool) (es : list (Entry K V)) :
  List.NoDup (List.map key es) -> List.NoDup (List.map key (List.filter f es)).
Proof.
  induction es as [|e es IH]; simpl; intros Hnd; [constructor |].
  apply NoDup_cons_iff in Hnd as [Hnotin Hnd].
  destruct (f e); simpl; [| apply IH, Hnd].
  apply NoDup_cons_iff. split; [| apply IH, Hnd].
  intros Hin. apply Hnotin.
  apply in_map_iff in Hin as (e' & Hk & Hin').
  apply filter_In in Hin' as [Hin' _].
  apply in_map_iff. eauto.
Qed.

Lemma NoDup_firstn {A} (n : nat) (l : list A) : List.NoDup l -> List.NoDup (firstn n l).
Proof.
  revert l. induction n as [|n IH]; intros [|a l] Hnd; simpl; try constructor.
  - apply NoDup_cons_iff in Hnd as [Hnotin Hnd].
    intros Hin. apply Hnotin. eapply In_firstn, Hin.
  - apply IH. apply NoDup_cons_iff in Hnd. tauto.
Qed.

Lemma key_not_in_without k (es : list (Entry K V)) :
  ~ In k (List.map key (without k es)).
Proof.
  intros Hin. apply in_map_iff in Hin as (e & Hk & Hin).
  apply without_In in Hin. tauto.
Qed.

Lemma wf_New (size : nat) (d : Z) : wf (New (K := K) (V := V) size d).
Proof. constructor. Qed.

Lemma Get_capacity now k c : capacity (snd (Get now k c)) = capacity c.
Proof. unfold Get. destruct (find _ _); reflexivity. Qed.

Lemma Get_ttl now k c : ttl (snd (Get now k c)) = ttl c.
Proof. unfold Get. destruct (find _ _); reflexivity. Qed.

Lemma Add_capacity now k v c : capacity (Add now k v c) = capacity c.
Proof. reflexivity. Qed.

Lemma Add_ttl now k v c : ttl (Add now k v c) = ttl c.
Proof. reflexivity. Qed.

(** A hit returns the value of a live entry with the key. *)
Lemma Get_Some now k c v :
  fst (Get now k c) = Some v ->
  exists e, In e (entries c) /\ key e = k /\ value e = v
            /\ live (ttl c) now e = true.
Proof.
  unfold Get. destruct (find (has_key k) (sweep now c)) as [e|] eqn:Hf; simpl;
    [| discriminate].
  intros [= <-]. apply find_some in Hf as [Hin Hk].
  apply sweep_In in Hin as [Hin Hl]. apply has_key_true in Hk. eauto.
Qed.

(** A miss: no live entry has the key. *)
Lemma Get_None now k c e :
  fst (Get now k c) = None ->
  In e (entries c) -> live (ttl c) now e = true -> key e <> k.
Proof.
  unfold Get. destruct (find (has_key k) (sweep now c)) as [e'|] eqn:Hf; simpl;
    [discriminate |].
  intros _ Hin Hl. apply has_key_false.
  apply (find_none _ _ Hf). apply sweep_In. tauto.
Qed.

(** [Get] adds no entry. *)
Lemma Get_entries now k c e :
  In e (entries (snd (Get now k c))) -> In e (entries c).
Proof.
  unfold Get. destruct (find (has_key k) (sweep now c)) as [e'|] eqn:Hf; simpl.
  - intros [<- | Hin].
    + apply find_some in Hf as [Hin _]. apply sweep_In in Hin. tauto.
    + apply without_In in Hin as [Hin _]. apply sweep_In in Hin. tauto.
  - intros Hin. apply sweep_In in Hin. tauto.
Qed.

Lemma wf_Get now k c : wf c -> wf (snd (Get now k c)).
Proof.
  unfold wf, Get. intros Hwf.
  destruct (find (has_key k) (sweep now c)) as [e'|] eqn:Hf; simpl.
  - apply find_some in Hf as [_ Hk]. apply has_key_true in Hk. rewrite Hk.
    apply NoDup_cons_iff. split; [apply key_not_in_without |].
    unfold without, sweep. do 2 apply NoDup_keys_filter. exact Hwf.
  - unfold sweep. apply NoDup_keys_filter, Hwf.
Qed.

(** [Get] keeps the entries that are live, whatever the key it looks up. *)
Lemma Get_keeps now k c e :
  wf c -> In e (entries c) -> live (ttl c) now e = true ->
  In e (entries (snd (Get now k c))).
Proof.
  unfold wf, Get. intros Hwf Hin Hl.
  assert (Hs : In e (sweep now c)) by (apply sweep_In; tauto).
  destruct (find (has_key k) (sweep now c)) as [e'|] eqn:Hf; simpl; [| exact Hs].
  destruct (decide (key e = k)) as [Hk | Hk].
  - left. apply find_some in Hf as [Hin' Hk']. apply has_key_true in Hk'.
    apply sweep_In in Hin' as [Hin' _].
    (* two entries with the same key are the same entry *)
    clear Hs Hl. revert Hwf Hin Hin'. generalize (entries c) as es.
    induction es as [|a es IH]; simpl; [tauto |].
    intros Hnd [-> | Hin] [-> | Hin']; try reflexivity.
    + apply NoDup_cons_iff in Hnd as [Hnotin _]. exfalso. apply Hnotin.
      apply in_map_iff. exists e'. split; [congruence | exact Hin'].
    + apply NoDup_cons_iff in Hnd as [Hnotin _]. exfalso. apply Hnotin.
      apply in_map_iff. exists e. split; [congruence | exact Hin].
    + apply NoDup_cons_iff in Hnd as [_ Hnd]. apply IH; assumption.
  - right. apply without_In. tauto.
Qed.

(** [Add] adds the new entry only. *)
Lemma Add_entries now k v c e :
  In e (entries (Add now k v c)) ->
  e = {| key := k; value := v; written := now |}
  \/ (In e (entries c) /\ key e <> k).
Proof.
  unfold Add. simpl. intros Hin. apply In_firstn in Hin.
  destruct Hin as [<- | Hin]; [left; reflexivity | right].
  apply without_In in Hin as [Hin Hk]. apply sweep_In in Hin. tauto.
Qed.

Lemma wf_Add now k v c : wf c -> wf (Add now k v c).
Proof.
  unfold wf, Add. simpl. intros Hwf.
  rewrite <- firstn_map. apply NoDup_firstn. simpl.
  apply NoDup_cons_iff. split; [apply key_not_in_without |].
  unfold without, sweep. do 2 apply NoDup_keys_filter. exact Hwf.
Qed.

(** With room in the cache, the new entry is in it. *)
Lemma Add_new now k v c :
  (1 <= capacity c)%nat ->
  exists rest, entries (Add now k v c)
               = {| key := k; value := v; written := now |} :: rest.
Proof.
  unfold Add. simpl. destruct (capacity c) as [|n]; [lia |]. simpl. eauto.
Qed.

(** [Add] keeps the live entries with other keys, as long as the capacity
    is not exceeded. *)
Lemma Add_keeps now k v c e :
  In e (entries c) -> live (ttl c) now e = true -> key e <> k ->
  (List.length (without k (sweep now c)) < capacity c)%nat ->
  In e (entries (Add now k v c)).
Proof.
  intros Hin Hl Hk Hlen. unfold Add. simpl.
  rewrite firstn_all2 by (simpl; lia).
  right. apply without_In. split; [| exact Hk]. apply sweep_In. tauto.
Qed.

(** An entry that was just added is found until its TTL has elapsed. *)
Lemma Get_after_Add now now' k v c :
  (1 <= capacity c)%nat -> now' < now + ttl c ->
  fst (Get now' k (Add now k v c)) = Some v.
Proof.
  intros Hcap Hlt. destruct (Add_new now k v c Hcap) as (rest & Hrest).
  unfold Get, sweep. rewrite Hrest, Add_ttl. simpl.
  unfold live at 1. simpl.
  destruct (Z.ltb_spec now' (now + ttl c)); [| lia]. simpl.
  unfold has_key at 1. simpl. rewrite bool_decide_eq_true_2 by reflexivity.
  reflexivity.
Qed.

(** *** The place of an entry in the order of use *)

Lemma filter_middle (f : Entry K V -> bool) (before after : list (Entry K V))
    (e : Entry K V) :
  f e = true ->
  List.filter f (before ++ e :: after)
  = (List.filter f before ++ e :: List.filter f after)%list.
Proof. intros He. rewrite List.filter_app. simpl. rewrite He. reflexivity. Qed.

Lemma find_middle (f : Entry K V -> bool) (before after : list (Entry K V))
    (e : Entry K V) :
  (forall e', In e' before -> f e' = false) -> f e = true ->
  List.find f (before ++ e :: after) = Some e.
Proof.
  intros Hb He. induction before as [|x before IH]; simpl.
  - rewrite He. reflexivity.
  - rewrite (Hb x) by (left; reflexivity). apply IH.
    intros e' Hin. apply Hb. right. exact Hin.
Qed.

Lemma firstn_middle {A} (n : nat) (before after : list A) (x : A) :
  (List.length before < n)%nat ->
  exists after', firstn n (before ++ x :: after) = (before ++ x :: after')%list.
Proof.
  intros Hlen. rewrite firstn_app, firstn_all2 by lia.
  destruct (n - List.length before)%nat as [|m] eqn:Hm; [lia |]. simpl. eauto.
Qed.

(** The entries before the kept one are no more than the other keys. *)
Lemma kept_room (others : list K) (before : list (Entry K V)) :
  (forall e', In e' before -> In (key e') others) ->
  List.NoDup (List.map key before) ->
  (List.length before <= List.length others)%nat.
Proof.
  intros Hin Hnd. rewrite <- (length_map key before).
  apply NoDup_incl_length; [exact Hnd |].
  intros x Hx. apply in_map_iff in Hx as (e' & <- & He'). apply Hin, He'.
Qed.

(** The sweep of a cache with a kept entry that is still live. *)
Lemma kept_sweep t0 c now (before after : list (Entry K V)) e :
  entries c = (before ++ e :: after)%list ->
  t0 <= written e -> now < t0 + ttl c ->
  sweep now c
  = (List.filter (live (ttl c) now) before
       ++ e :: List.filter (live (ttl c) now) after)%list.
Proof.
  intros He Ht Hnow. unfold sweep. rewrite He. apply filter_middle.
  apply live_iff. lia.
Qed.

(** A look-up of the kept key finds the entry. *)
Lemma kept_Get_same k t0 others c now :
  kept k t0 others c -> ~ In k others -> now < t0 + ttl c ->
  fst (Get now k c) <> None /\ kept k t0 others (snd (Get now k c)).
Proof.
  intros (before & e & after & He & Hk & Ht & Hin & Hnd) Hnot Hnow.
  unfold Get. rewrite (kept_sweep t0 c now before after e He Ht Hnow).
  rewrite find_middle.
  - simpl. split; [discriminate |].
    exists [], e, (without k (List.filter (live (ttl c) now) before
                           ++ e :: List.filter (live (ttl c) now) after)).
    simpl. repeat split; try assumption; [tauto | constructor].
  - intros e' He'. apply filter_In in He' as [He' _].
    apply has_key_false. intros Hk'. apply Hnot. rewrite <- Hk'. apply Hin, He'.
  - apply has_key_true, Hk.
Qed.

(** A look-up of another key leaves the entry where it is, or puts one
    entry before it. *)
Lemma kept_Get_other k k' t0 others c now :
  kept k t0 others c -> k' <> k -> In k' others -> now < t0 + ttl c ->
  kept k t0 others (snd (Get now k' c)).
Proof.
  intros (before & e & after & He & Hk & Ht & Hin & Hnd) Hne Hk' Hnow.
  unfold Get. rewrite (kept_sweep t0 c now before after e He Ht Hnow).
  set (B := List.filter (live (ttl c) now) before).
  set (A := List.filter (live (ttl c) now) after).
  assert (HB : forall e', In e' B -> In (key e') others).
  { intros e' He'. apply filter_In in He' as [He' _]. apply Hin, He'. }
  assert (HndB : List.NoDup (List.map key B)) by (apply NoDup_keys_filter, Hnd).
  destruct (List.find (has_key k') (B ++ e :: A)) as [e' |] eqn:Hf; simpl.
  - apply find_some in Hf as [_ Hk1]. apply has_key_true in Hk1.
    unfold without. rewrite filter_middle
      by (apply negb_true_iff, has_key_false; congruence).
    fold (without k' B). fold (without k' A).
    exists (e' :: without k' B), e, (without k' A).
    split; [reflexivity |]. split; [exact Hk |]. split; [exact Ht |]. split.
    + intros x [<- | Hx]; [rewrite Hk1; exact Hk' |].
      apply without_In in Hx as [Hx _]. apply HB, Hx.
    + simpl. apply NoDup_cons_iff. split.
      * rewrite Hk1. apply key_not_in_without.
      * apply NoDup_keys_filter, HndB.
  - exists B, e, A. repeat split; assumption.
Qed.

(** An entry that is added for another key goes before the kept one, which
    stays as long as there is room for the other keys. *)
Lemma kept_Add_other k k' t0 others c now (v : V) :
  kept k t0 others c -> k' <> k -> In k' others -> now < t0 + ttl c ->
  (List.length others < capacity c)%nat ->
  kept k t0 others (Add now k' v c).
Proof.
  intros (before & e & after & He & Hk & Ht & Hin & Hnd) Hne Hk' Hnow Hroom.
  unfold Add. cbn [entries].
  rewrite (kept_sweep t0 c now before after e He Ht Hnow).
  set (B := List.filter (live (ttl c) now) before).
  set (A := List.filter (live (ttl c) now) after).
  assert (HB : forall e', In e' B -> In (key e') others).
  { intros e' He'. apply filter_In in He' as [He' _]. apply Hin, He'. }
  assert (HndB : List.NoDup (List.map key B)) by (apply NoDup_keys_filter, Hnd).
  unfold without. rewrite filter_middle
    by (apply negb_true_iff, has_key_false; congruence).
  fold (without k' B). fold (without k' A).
  set (new := {| key := k'; value := v; written := now |}).
  assert (Hb : forall x, In x (new :: without k' B) -> In (key x) others).
  { intros x [<- | Hx]; [exact Hk' |].
    apply without_In in Hx as [Hx _]. apply HB, Hx. }
  assert (Hn : List.NoDup (List.map key (new :: without k' B))).
  { simpl. apply NoDup_cons_iff. split; [apply key_not_in_without |].
    apply NoDup_keys_filter, HndB. }
  pose proof (kept_room others _ Hb Hn) as Hlen.
  destruct (firstn_middle (capacity c) (new :: without k' B) (without k' A) e)
    as (after' & Hfirst); [lia |].
  change ((new :: without k' B ++ e :: without k' A)%list)
    with (((new :: without k' B) ++ e :: without k' A)%list).
  rewrite Hfirst.
  exists (new :: without k' B), e, after'. repeat split; assumption.
Qed.

(** The entry that [Add] writes is kept from then on. *)
Lemma Add_kept k others c now (v : V) :
  (1 <= capacity c)%nat -> kept k now others (Add now k v c).
Proof.
  intros Hcap. destruct (Add_new now k v c Hcap) as (rest & Hrest).
  exists [], {| key := k; value := v; written := now |}, rest.
  simpl. repeat split; [exact Hrest | lia | tauto | constructor].
Qed.

End Facts.

End BoundedCacheFacts.

(** ** The authenticator with a credential list: the decision cache *)

Module AuthCacheFacts.
Import BoundedCache BoundedCacheFacts BasicAuth.

Lemma Auth_infos (b : basicAuth) (now : Z) (header : option string) :
  infos (after (Auth b now header)) = infos b.
Proof.
  unfold Auth, after. destruct header as [text |]; [| reflexivity].
  destruct (Get now text (cache b)) as [[item |] c]; [reflexivity |].
  unfold validate. destruct (doAuth (infos b) text). reflexivity.
Qed.

(** What a call with a header does, by the answer of the cache. *)
Lemma Auth_hit (b : basicAuth) (now : Z) (text : string) (item : basicAuthResult) :
  peek now text (cache b) = Some item ->
  Auth b now (Some text)
  = ((true, reply item, err item,
      {| cache := snd (Get now text (cache b)); infos := infos b |}), []).
Proof.
  unfold peek, Auth. destruct (Get now text (cache b)) as [[item' |] c]; simpl;
    [| discriminate].
  intros [= ->]. reflexivity.
Qed.

Lemma Auth_miss (b : basicAuth) (now : Z) (text : string) :
  peek now text (cache b) = None ->
  let resp := fst (doAuth (infos b) text) in
  Auth b now (Some text)
  = ((true, reply resp, err resp,
      {| cache := Add now text resp (snd (Get now text (cache b)));
         infos := infos b |}),
     EvDoAuth text :: snd (doAuth (infos b) text)).
Proof.
  unfold peek, Auth. destruct (Get now text (cache b)) as [[item' |] c]; simpl;
    [discriminate |].
  intros _. unfold validate. destruct (doAuth (infos b) text) as [r t]. simpl.
  rewrite app_nil_r. reflexivity.
Qed.

Lemma Auth_capacity_ttl (b : basicAuth) (now : Z) (header : option string) :
  capacity (cache (after (Auth b now header))) = capacity (cache b)
  /\ ttl (cache (after (Auth b now header))) = ttl (cache b).
Proof.
  destruct header as [text |]; [| split; reflexivity].
  destruct (peek now text (cache b)) as [item |] eqn:Hp.
  - rewrite (Auth_hit b now text item Hp). unfold after. simpl.
    split; [apply Get_capacity | apply Get_ttl].
  - rewrite (Auth_miss b now text Hp). unfold after. simpl.
    split; [apply Get_capacity | apply Get_ttl].
Qed.

Lemma Auth_consistent (b : basicAuth) (now : Z) (header : option string) :
  consistent b -> consistent (after (Auth b now header)).
Proof.
  intros Hc. destruct header as [text |]; [| exact Hc].
  destruct (peek now text (cache b)) as [item |] eqn:Hp.
  - rewrite (Auth_hit b now text item Hp). unfold after, consistent. simpl.
    intros e He. apply Hc. eapply Get_entries, He.
  - rewrite (Auth_miss b now text Hp). unfold after, consistent. simpl.
    intros e He. apply Add_entries in He as [-> | [He _]]; [reflexivity |].
    apply Hc. eapply Get_entries, He.
Qed.

(** What holds of every authenticator that is reached. *)
Lemma reachable_invariant (userPasswords : gmap string string) (b : basicAuth) :
  reachable userPasswords b ->
  consistent b
  /\ infos b = infos (NewBasicAuth userPasswords)
  /\ capacity (cache b) = (basicAuthCacheSizeMultiplier * size userPasswords)%nat
  /\ ttl (cache b) = basicAuthCacheFor.
Proof.
  induction 1 as [| b now header _ (Hc & Hi & Hcap & Httl)].
  - repeat split. intros e [].
  - destruct (Auth_capacity_ttl b now header) as [Hcap' Httl'].
    rewrite Auth_infos, Hcap', Httl'. repeat split; try assumption.
    apply Auth_consistent, Hc.
Qed.

(** Every call returns the decision of the validator on the header. *)
Lemma Auth_outcome (b : basicAuth) (now : Z) (text : string) :
  consistent b ->
  let resp := fst (doAuth (infos b) text) in
  outcome (Auth b now (Some text)) = (true, reply resp, err resp).
Proof.
  intros Hc resp. destruct (peek now text (cache b)) as [item |] eqn:Hp.
  - rewrite (Auth_hit b now text item Hp). unfold outcome. simpl.
    apply Get_Some in Hp as (e & Hin & Hk & Hv & _).
    rewrite <- Hv, (Hc e Hin), Hk. reflexivity.
  - rewrite (Auth_miss b now text Hp). reflexivity.
Qed.

(** *** Calls with other headers in between *)

Lemma other_texts_In (text t : string) (calls : list (Z * option string))
    (now : Z) :
  In (now, Some t) calls -> t <> text -> In t (other_texts text calls).
Proof.
  intros Hin Hne. unfold other_texts. apply nodup_In, filter_In. split.
  - apply list_elem_of_In, list_elem_of_omap. exists (now, Some t).
    split; [apply list_elem_of_In, Hin | reflexivity].
  - apply negb_true_iff, String.eqb_neq, Hne.
Qed.

Lemma other_texts_not_In (text : string) (calls : list (Z * option string)) :
  ~ In text (other_texts text calls).
Proof.
  unfold other_texts. intros Hin. apply nodup_In, filter_In in Hin as [_ Hin].
  rewrite String.eqb_refl in Hin. discriminate Hin.
Qed.

(** A call leaves the decision of [text] in the cache, while the entry is
    live and there is room for the other texts. *)
Lemma Auth_kept (b : basicAuth) (text : string) (t0 : Z) (others : list string)
    (now : Z) (header : option string) :
  kept text t0 others (cache b) -> ~ In text others ->
  now < t0 + ttl (cache b) ->
  (forall t, header = Some t -> t = text \/ In t others) ->
  (List.length others < capacity (cache b))%nat ->
  kept text t0 others (cache (after (Auth b now header))).
Proof.
  intros Hk Hnot Hnow Hheader Hroom.
  destruct header as [t |]; [| exact Hk].
  destruct (String.eqb_spec t text) as [-> | Hne].
  - destruct (kept_Get_same text t0 others (cache b) now Hk Hnot Hnow) as [Hhit Hk'].
    destruct (peek now text (cache b)) as [item |] eqn:Hp;
      [| unfold peek in Hp; congruence].
    rewrite (Auth_hit b now text item Hp). exact Hk'.
  - destruct (Hheader t eq_refl) as [? | Hin]; [congruence |].
    pose proof (kept_Get_other text t t0 others (cache b) now Hk Hne Hin Hnow) as Hk'.
    destruct (peek now t (cache b)) as [item |] eqn:Hp.
    + rewrite (Auth_hit b now t item Hp). exact Hk'.
    + rewrite (Auth_miss b now t Hp). unfold after. cbn [fst snd cache].
      apply kept_Add_other; try assumption.
      * rewrite Get_ttl. exact Hnow.
      * rewrite Get_capacity. exact Hroom.
Qed.

Lemma Auth_all_kept (calls : list (Z * option string)) (b : basicAuth)
    (text : string) (t0 : Z) (others : list string) :
  kept text t0 others (cache b) -> ~ In text others ->
  Forall (fun call => fst call < t0 + ttl (cache b)) calls ->
  (forall now t, In (now, Some t) calls -> t = text \/ In t others) ->
  (List.length others < capacity (cache b))%nat ->
  kept text t0 others (cache (Auth_all b calls)).
Proof.
  revert b. induction calls as [|[now header] calls IH]; intros b Hk Hnot Ht Hin Hroom;
    [exact Hk |].
  cbn [Auth_all]. apply Forall_cons in Ht as [Hnow Ht]. cbn [fst] in Hnow.
  destruct (Auth_capacity_ttl b now header) as [Hcap Httl].
  apply IH.
  - apply Auth_kept; try assumption.
    intros t ->. apply (Hin now t). left. reflexivity.
  - exact Hnot.
  - rewrite Httl. exact Ht.
  - intros now' t H. apply (Hin now' t). right. exact H.
  - rewrite Hcap. exact Hroom.
Qed.

Lemma reachable_Auth_all (m : gmap string string) (calls : list (Z * option string))
    (b : basicAuth) :
  reachable m b -> reachable m (Auth_all b calls).
Proof.
  revert b. induction calls as [|[now header] calls IH]; intros b Hb; [exact Hb |].
  apply IH, reachable_Auth, Hb.
Qed.

(** After a call that has validated [text], at time [now]: calls with fewer
    other texts than the cache has room for, all before the decision
    expires, leave the decision in the cache, and a call with [text] that
    follows is answered from it. *)
Lemma Auth_hit_later (m : gmap string string) (b : basicAuth) (text : string)
    (now now' : Z) (calls : list (Z * option string)) :
  reachable m b ->
  peek now text (cache b) = None ->
  Forall (fun call => fst call < now + basicAuthCacheFor) calls ->
  (List.length (other_texts text calls)
   < basicAuthCacheSizeMultiplier * size m)%nat ->
  now' < now + basicAuthCacheFor ->
  events (Auth (Auth_all (after (Auth b now (Some text))) calls) now' (Some text))
  = [].
Proof.
  intros Hb Hp Hcalls Hroom Hnow'.
  destruct (reachable_invariant _ _ Hb) as (_ & _ & Hcap & Httl).
  set (b1 := after (Auth b now (Some text))).
  destruct (Auth_capacity_ttl b now (Some text)) as [Hcap1 Httl1]. fold b1 in Hcap1, Httl1.
  assert (Hk1 : kept text now (other_texts text calls) (cache b1)).
  { unfold b1. rewrite (Auth_miss b now text Hp). unfold after. cbn [fst snd cache].
    apply Add_kept. rewrite Get_capacity, Hcap. lia. }
  pose proof (Auth_all_kept calls b1 text now (other_texts text calls) Hk1
                (other_texts_not_In text calls)) as Hk.
  assert (Hk2 : kept text now (other_texts text calls) (cache (Auth_all b1 calls))).
  { apply Hk.
    - rewrite Httl1, Httl. exact Hcalls.
    - intros t0 t Hin. destruct (String.eqb_spec t text) as [-> | Hne];
        [left; reflexivity | right]. eapply other_texts_In; eassumption.
    - rewrite Hcap1, Hcap. exact Hroom. }
  pose proof (reachable_Auth_all m calls b1 (reachable_Auth m b now (Some text) Hb))
    as Hb2.
  destruct (reachable_invariant _ _ Hb2) as (_ & _ & _ & Httl2).
  destruct (kept_Get_same text now _ (cache (Auth_all b1 calls)) now' Hk2
              (other_texts_not_In text calls)) as [Hhit _].
  { rewrite Httl2. exact Hnow'. }
  destruct (peek now' text (cache (Auth_all b1 calls))) as [item |] eqn:Hp';
    [| unfold peek in Hp'; congruence].
  rewrite (Auth_hit _ now' text item Hp'). reflexivity.
Qed.

(** ** C3 *)

(** C3, as the code has it.  On one authenticator, every call of [Auth] with
    a given header text returns [handled = true] with the decision of the
    validator on that text, so two calls with the same text return the same
    triple, be it a failure or a success.  The validator runs in a call
    exactly when the cache holds no live entry for the text.  After a call
    in which it ran, at time [now], the decision stays in the cache until
    the TTL has elapsed, unless it is evicted: whatever calls follow before
    [now + basicAuthCacheFor], with or without headers, as long as their
    header texts other than [text] are fewer than the cache has room for
    (twice the number of configured pairs), a call with [text] before
    [now + basicAuthCacheFor] does not run the validator and returns the
    same triple. *)
Theorem Auth_same_text_same_decision
    (userPasswords : gmap string string) (b b' : basicAuth) (text : string)
    (now now' : Z) :
  reachable userPasswords b -> reachable userPasswords b' ->
  let resp := fst (doAuth (infos (NewBasicAuth userPasswords)) text) in
  outcome (Auth b now (Some text)) = (true, reply resp, err resp)
  /\ outcome (Auth b' now' (Some text)) = outcome (Auth b now (Some text))
  /\ (peek now text (cache b) <> None -> events (Auth b now (Some text)) = [])
  /\ (peek now text (cache b) = None ->
      events (Auth b now (Some text))
      = EvDoAuth text :: snd (doAuth (infos b) text))
  /\ ((0 < size userPasswords)%nat ->
      peek now text (cache b) = None ->
      now <= now' < now + basicAuthCacheFor ->
      events (Auth (after (Auth b now (Some text))) now' (Some text)) = []
      /\ outcome (Auth (after (Auth b now (Some text))) now' (Some text))
         = outcome (Auth b now (Some text)))
  /\ (forall calls : list (Z * option string),
        peek now text (cache b) = None ->
        Forall (fun call => fst call < now + basicAuthCacheFor) calls ->
        (List.length (other_texts text calls)
         < basicAuthCacheSizeMultiplier * size userPasswords)%nat ->
        now' < now + basicAuthCacheFor ->
        let later := Auth_all (after (Auth b now (Some text))) calls in
        events (Auth later now' (Some text)) = []
        /\ outcome (Auth later now' (Some text))
           = outcome (Auth b now (Some text))).
Proof.
  intros Hb Hb' resp.
  destruct (reachable_invariant _ _ Hb) as (Hc & Hi & Hcap & Httl).
  destruct (reachable_invariant _ _ Hb') as (Hc' & Hi' & _ & _).
  assert (H1 : outcome (Auth b now (Some text)) = (true, reply resp, err resp)).
  { rewrite (Auth_outcome b now text Hc), Hi. reflexivity. }
  split; [exact H1 |]. split; [| split; [| split; [| split]]].
  - rewrite H1, (Auth_outcome b' now' text Hc'), Hi'. reflexivity.
  - intros Hp. destruct (peek now text (cache b)) as [item |] eqn:Hp';
      [| congruence].
    rewrite (Auth_hit b now text item Hp'). reflexivity.
  - intros Hp. rewrite (Auth_miss b now text Hp). reflexivity.
  - intros Hsize Hp Hnow.
    pose proof (reachable_Auth userPasswords b now (Some text) Hb) as Hb1.
    destruct (reachable_invariant _ _ Hb1) as (Hc1 & Hi1 & _ & _).
    split.
    + assert (Hp1 : peek now' text (cache (after (Auth b now (Some text))))
                    = Some (fst (doAuth (infos b) text))).
      { rewrite (Auth_miss b now text Hp). unfold after, peek. simpl.
        apply Get_after_Add.
        - rewrite Get_capacity, Hcap. unfold basicAuthCacheSizeMultiplier. lia.
        - rewrite Get_ttl, Httl. lia. }
      rewrite (Auth_hit _ now' text _ Hp1). reflexivity.
    + rewrite H1, (Auth_outcome _ now' text Hc1), Hi1. reflexivity.
  - intros calls Hp Hcalls Hroom Hnow later. split.
    + apply (Auth_hit_later userPasswords b text now now' calls); assumption.
    + pose proof (reachable_Auth_all userPasswords calls _
                    (reachable_Auth userPasswords b now (Some text) Hb)) as Hb2.
      destruct (reachable_invariant _ _ Hb2) as (Hc2 & Hi2 & _ & _).
      rewrite H1. unfold later. rewrite (Auth_outcome _ now' text Hc2), Hi2.
      reflexivity.
Qed.

(** One configured pair, so that the cache holds two decisions: a header
    with a wrong password is refused; after a call without a header and a
    call with another header, half an hour later, the same header is
    answered from the cache. *)
Lemma Auth_same_text_same_decision_witness :
  let b := NewBasicAuth Example.alice in
  let wrong := "Basic YWxpY2U6d3Jvbmc=" in
  let calls := [(1, None); (2, Some "Basic Yjpi")] in
  outcome (Auth b 0 (Some wrong)) = (true, None, Some ErrBasicAuthNoUser)
  /\ events (Auth b 0 (Some wrong)) <> []
  /\ events (Auth (Auth_all (after (Auth b 0 (Some wrong))) calls)
               (30 * Time.Minute) (Some wrong)) = [].
Proof.
  cbv zeta.
  pose proof (Auth_same_text_same_decision Example.alice
                (NewBasicAuth Example.alice) (NewBasicAuth Example.alice)
                "Basic YWxpY2U6d3Jvbmc=" 0 (30 * Time.Minute)
                (reachable_new _) (reachable_new _)) as (H1 & _ & _ & _ & _ & H6).
  split; [exact H1 |]. split; [vm_compute; discriminate |].
  apply (H6 [(1, None); (2, Some "Basic Yjpi")]).
  - reflexivity.
  - repeat constructor.
  - vm_compute. lia.
  - reflexivity.
Defined.

(** C3, as the claim states it, fails: with one configured pair the cache
    holds two decisions, so after two other headers the first header is
    validated again, well within the hour. *)
Lemma Auth_validates_again_after_eviction :
  let first := "Basic YWxpY2U6c2VjcmV0" in
  let b0 := NewBasicAuth Example.alice in
  let b1 := after (Auth b0 0 (Some first)) in
  let b2 := after (Auth b1 1 (Some "Basic Yjpi")) in
  let b3 := after (Auth b2 2 (Some "Basic Yzpj")) in
  events (Auth b0 0 (Some first)) <> []
  /\ events (Auth b3 3 (Some first)) <> []
  /\ 3 < 0 + basicAuthCacheFor.
Proof.
  vm_compute. repeat split; congruence.
Qed.

End AuthCacheFacts.

(** ** The TLS configuration store *)

Module TLSStoreFacts.
Import BoundedCache BoundedCacheFacts TLSStore.

Lemma TTL_positive : 0 < TLSConfigTTL.
Proof. reflexivity. Qed.

Lemma built_for_In (host : string) (k : construction) (b : base) :
  In k (built_for host b) <-> In k (built b) /\ for_host k = host.
Proof.
  unfold built_for. rewrite filter_In, String.eqb_eq. reflexivity.
Qed.

(** What is constructed after a construction. *)
Lemma constructed_build (now : Z) (host host' : string) (conf : nat) (t : Z)
    (b : base) :
  constructed (snd (build now host b)) host' conf t
  <-> constructed b host' conf t
      \/ (host' = host /\ conf = List.length (heap b) /\ t = now).
Proof.
  unfold constructed, build. simpl. rewrite in_app_iff. simpl. split.
  - intros [H | [[= -> -> ->] | []]]; tauto.
  - intros [H | (-> & -> & ->)]; tauto.
Qed.

Lemma lookup_insert_cases (gs : list pc) (g g' : nat) (p' q : pc) :
  <[g := p']> gs !! g' = Some q ->
  (g' = g /\ q = p') \/ (g' <> g /\ gs !! g' = Some q).
Proof.
  intros H. apply list_lookup_insert_Some in H as [(-> & -> & _) | [Hne H]];
    [left | right]; auto.
Qed.

Lemma hosts_insert (gs : list pc) (g : nat) (p p' : pc) :
  gs !! g = Some p -> pc_host p' = pc_host p ->
  pc_host <$> <[g := p']> gs = pc_host <$> gs.
Proof.
  intros Hg Hh. rewrite list_fmap_insert. apply list_insert_id.
  rewrite list_lookup_fmap, Hg, Hh. reflexivity.
Qed.

Lemma host_of_goroutine (gs : list pc) (g : nat) (p : pc) :
  gs !! g = Some p -> In (pc_host p) (pc_host <$> gs).
Proof.
  intros Hg. apply list_elem_of_In, list_elem_of_fmap.
  exists p. split; [reflexivity |]. eapply list_elem_of_lookup_2, Hg.
Qed.

Section Steps.
Variables (t0 : Z) (flag : bool) (hosts : list string).
Hypothesis Hdistinct :
  (List.length (nodup string_dec hosts) <= TLSConfigCacheSize)%nat.

(** An entry that has expired was constructed a TTL ago, at least. *)
Lemma expired_entry (s : System) (now : Z) (e : Entry string nat) (t : Z) :
  invariant t0 flag hosts s ->
  live (ttl (tlsConfigs (shared s))) now e = false ->
  t <= written e -> t + TLSConfigTTL <= now.
Proof.
  intros I Hl Ht. unfold live in Hl. rewrite (inv_ttl _ _ _ _ I) in Hl.
  apply Z.ltb_ge in Hl. lia.
Qed.

(** The steps that look the host up: the unlocked [Get] and the [Get] under
    the lock. *)
Lemma get_step (s : System) (g : nat) (now : Z) (p p' : pc) (host : string) :
  invariant t0 flag hosts s ->
  clock s <= now ->
  goroutines s !! g = Some p ->
  let r := Get now host (tlsConfigs (shared s)) in
  (p = AtGet host
   /\ p' = match fst r with Some conf => Returned host conf | None => AtLock host end)
  \/ (p = AtGetLocked host
      /\ p' = match fst r with Some conf => AtUnlock host conf | None => AtBuild host end) ->
  invariant t0 flag hosts
    {| clock := now; shared := set_cache (shared s) (snd r);
       goroutines := <[g := p']> (goroutines s) |}.
Proof.
  intros I Hclock Hg r Hp.
  assert (Hhost : pc_host p' = pc_host p).
  { destruct Hp as [[-> ->] | [-> ->]]; destruct (fst r); reflexivity. }
  assert (Hcrit : in_critical_section p' = in_critical_section p).
  { destruct Hp as [[-> ->] | [-> ->]]; destruct (fst r); reflexivity. }
  assert (Hnotadd : forall h c, p <> AtAdd h c).
  { destruct Hp as [[-> _] | [-> _]]; discriminate. }
  assert (Hnotadd' : forall h c, p' <> AtAdd h c).
  { destruct Hp as [[-> ->] | [-> ->]]; destruct (fst r); discriminate. }
  pose proof (inv_clock _ _ _ _ I) as Ht0.
  constructor; simpl.
  - lia.
  - rewrite (hosts_insert _ _ _ _ Hg Hhost). apply (inv_hosts _ _ _ _ I).
  - apply (inv_flag _ _ _ _ I).
  - unfold r. rewrite Get_capacity. apply (inv_capacity _ _ _ _ I).
  - unfold r. rewrite Get_ttl. apply (inv_ttl _ _ _ _ I).
  - apply wf_Get, (inv_wf _ _ _ _ I).
  - intros e He. apply Get_entries in He. apply (inv_entries _ _ _ _ I e He).
  - intros h c t Hc. pose proof (inv_times _ _ _ _ I h c t Hc). lia.
  - apply (inv_spaced _ _ _ _ I).
  - intros g0 Hl. destruct (inv_holder _ _ _ _ I g0 Hl) as (p0 & Hg0 & Hc0).
    destruct (decide (g0 = g)) as [-> | Hne].
    + exists p'. rewrite list_lookup_insert_eq by (eapply lookup_lt_Some, Hg).
      split; [reflexivity |]. rewrite Hcrit. congruence.
    + exists p0. rewrite list_lookup_insert_ne by congruence. tauto.
  - intros g' q Hq Hc. apply lookup_insert_cases in Hq as [[-> ->] | [Hne Hq]].
    + apply (inv_held _ _ _ _ I g p Hg). congruence.
    + apply (inv_held _ _ _ _ I g' q Hq Hc).
  - intros h conf t Hin.
    destruct (inv_cached _ _ _ _ I h conf t Hin)
      as [(e & He & Hk & Hv & Hw) | [(g' & Hg') | Hexp]].
    + destruct (live (ttl (tlsConfigs (shared s))) now e) eqn:Hl.
      * left. exists e. split; [| tauto].
        apply Get_keeps; [apply (inv_wf _ _ _ _ I) | exact He | exact Hl].
      * right. right. apply (expired_entry s now e t I Hl Hw).
    + right. left. exists g'. rewrite list_lookup_insert_ne; [exact Hg' |].
      intros ->. rewrite Hg in Hg'. injection Hg' as Hg'. eapply Hnotadd, Hg'.
    + right. right. lia.
  - intros g' h conf t Hq Hin.
    apply lookup_insert_cases in Hq as [[-> Hq] | [Hne Hq]].
    2:{ pose proof (inv_build _ _ _ _ I g' h conf t Hq Hin). lia. }
    destruct Hp as [[-> ->] | [-> ->]]; destruct (fst r) eqn:Hr;
      try discriminate Hq.
    injection Hq as ->.
    destruct (inv_cached _ _ _ _ I host conf t Hin)
      as [(e & He & Hk & Hv & Hw) | [(g' & Hg') | Hexp]].
    + destruct (live (ttl (tlsConfigs (shared s))) now e) eqn:Hl.
      * exfalso. apply (Get_None now host _ e Hr He Hl Hk).
      * apply (expired_entry s now e t I Hl Hw).
    + exfalso.
      pose proof (inv_held _ _ _ _ I g' _ Hg' eq_refl) as H1.
      pose proof (inv_held _ _ _ _ I g _ Hg eq_refl) as H2.
      rewrite H1 in H2. injection H2 as ->. rewrite Hg in Hg'. discriminate.
    + lia.
  - intros g' h conf conf' t Hq Hin.
    apply lookup_insert_cases in Hq as [[-> Hq] | [Hne Hq]].
    { exfalso. symmetry in Hq. eapply Hnotadd', Hq. }
    destruct (inv_add _ _ _ _ I g' h conf conf' t Hq Hin); [left; assumption |].
    right. lia.
  - intros g' q conf Hq Hc. apply lookup_insert_cases in Hq as [[-> ->] | [Hne Hq]];
      [| apply (inv_conf _ _ _ _ I g' q conf Hq Hc)].
    assert (Hr : fst r = Some conf /\ pc_host p' = host).
    { destruct Hp as [[-> ->] | [-> ->]]; destruct (fst r); simpl in Hc;
        try discriminate; split; first [congruence | reflexivity]. }
    destruct Hr as [Hr ->].
    apply Get_Some in Hr as (e & He & Hk & Hv & _).
    destruct (inv_entries _ _ _ _ I e He) as (_ & t & Hb & _).
    exists t. rewrite Hk, Hv in Hb. exact Hb.
  - apply (inv_heap _ _ _ _ I).
  - apply (inv_sessions _ _ _ _ I).
  - apply (inv_fresh _ _ _ _ I).
Qed.

(** [Lock], when the mutex is free. *)
Lemma lock_step (s : System) (g : nat) (now : Z) (host : string) :
  invariant t0 flag hosts s ->
  clock s <= now ->
  goroutines s !! g = Some (AtLock host) ->
  tlsConfigsLock (shared s) = None ->
  invariant t0 flag hosts
    {| clock := now; shared := set_lock (shared s) (Some g);
       goroutines := <[g := AtGetLocked host]> (goroutines s) |}.
Proof.
  intros I Hclock Hg Hfree.
  pose proof (inv_clock _ _ _ _ I) as Ht0.
  constructor; simpl.
  - lia.
  - rewrite (hosts_insert _ _ _ (AtGetLocked host) Hg eq_refl).
    apply (inv_hosts _ _ _ _ I).
  - apply (inv_flag _ _ _ _ I).
  - apply (inv_capacity _ _ _ _ I).
  - apply (inv_ttl _ _ _ _ I).
  - apply (inv_wf _ _ _ _ I).
  - apply (inv_entries _ _ _ _ I).
  - intros h c t Hc. pose proof (inv_times _ _ _ _ I h c t Hc). lia.
  - apply (inv_spaced _ _ _ _ I).
  - intros g0 [= <-]. exists (AtGetLocked host).
    rewrite list_lookup_insert_eq by (eapply lookup_lt_Some, Hg). tauto.
  - intros g' q Hq Hc. apply lookup_insert_cases in Hq as [[-> ->] | [Hne Hq]];
      [reflexivity |].
    pose proof (inv_held _ _ _ _ I g' q Hq Hc) as H. congruence.
  - intros h conf t Hin.
    destruct (inv_cached _ _ _ _ I h conf t Hin) as [H | [(g' & Hg') | Hexp]].
    + left. exact H.
    + right. left. exists g'. rewrite list_lookup_insert_ne; [exact Hg' |]. congruence.
    + right. right. lia.
  - intros g' h conf t Hq Hin.
    apply lookup_insert_cases in Hq as [[-> Hq] | [Hne Hq]]; [discriminate |].
    pose proof (inv_build _ _ _ _ I g' h conf t Hq Hin). lia.
  - intros g' h conf conf' t Hq Hin.
    apply lookup_insert_cases in Hq as [[-> Hq] | [Hne Hq]]; [discriminate |].
    destruct (inv_add _ _ _ _ I g' h conf conf' t Hq Hin); [left; assumption |].
    right. lia.
  - intros g' q conf Hq Hc. apply lookup_insert_cases in Hq as [[-> ->] | [Hne Hq]];
      [discriminate | apply (inv_conf _ _ _ _ I g' q conf Hq Hc)].
  - apply (inv_heap _ _ _ _ I).
  - apply (inv_sessions _ _ _ _ I).
  - apply (inv_fresh _ _ _ _ I).
Qed.

(** The construction of the configuration. *)
Lemma build_step (s : System) (g : nat) (now : Z) (host : string) :
  invariant t0 flag hosts s ->
  clock s <= now ->
  goroutines s !! g = Some (AtBuild host) ->
  invariant t0 flag hosts
    {| clock := now; shared := snd (build now host (shared s));
       goroutines := <[g := AtAdd host (fst (build now host (shared s)))]>
                       (goroutines s) |}.
Proof.
  intros I Hclock Hg.
  pose proof (inv_clock _ _ _ _ I) as Ht0.
  pose proof TTL_positive as Httl.
  assert (Hold : forall conf t, constructed (shared s) host conf t ->
                                t + TLSConfigTTL <= now).
  { intros conf t Hin. pose proof (inv_build _ _ _ _ I g host conf t Hg Hin). lia. }
  assert (Honly : forall g' h, goroutines s !! g' = Some (AtBuild h) -> g' = g).
  { intros g' h Hg'.
    pose proof (inv_held _ _ _ _ I g' _ Hg' eq_refl) as H1.
    pose proof (inv_held _ _ _ _ I g _ Hg eq_refl) as H2. congruence. }
  assert (Hnoadd : forall g' h c, goroutines s !! g' = Some (AtAdd h c) -> False).
  { intros g' h c Hg'.
    pose proof (inv_held _ _ _ _ I g' _ Hg' eq_refl) as H1.
    pose proof (inv_held _ _ _ _ I g _ Hg eq_refl) as H2.
    rewrite H1 in H2. injection H2 as ->. rewrite Hg in Hg'. discriminate. }
  constructor; simpl.
  - lia.
  - rewrite (hosts_insert _ _ _ (AtAdd host _) Hg eq_refl).
    apply (inv_hosts _ _ _ _ I).
  - apply (inv_flag _ _ _ _ I).
  - apply (inv_capacity _ _ _ _ I).
  - apply (inv_ttl _ _ _ _ I).
  - apply (inv_wf _ _ _ _ I).
  - intros e He. destruct (inv_entries _ _ _ _ I e He) as (Hh & t & Hc & Hw).
    split; [exact Hh |]. exists t. split; [| exact Hw].
    apply (constructed_build now host). left. exact Hc.
  - intros h c t Hc. apply (constructed_build now host) in Hc as [Hc | (-> & -> & ->)].
    + pose proof (inv_times _ _ _ _ I h c t Hc). lia.
    + lia.
  - intros h c t c' t' Hc Hc'.
    apply (constructed_build now host) in Hc as [Hc | (Eh & Ec & Et)];
      apply (constructed_build now host) in Hc' as [Hc' | (Eh' & Ec' & Et')].
    + apply (inv_spaced _ _ _ _ I h c t c' t' Hc Hc').
    + subst h c' t'. right. left. apply (Hold c t Hc).
    + subst h c t. right. right. apply (Hold c' t' Hc').
    + subst c c' t t'. left. tauto.
  - intros g0 Hl. destruct (inv_holder _ _ _ _ I g0 Hl) as (p0 & Hg0 & Hc0).
    destruct (decide (g0 = g)) as [-> | Hne].
    + eexists. rewrite list_lookup_insert_eq by (eapply lookup_lt_Some, Hg).
      split; reflexivity.
    + exists p0. rewrite list_lookup_insert_ne by congruence. tauto.
  - intros g' q Hq Hc. apply lookup_insert_cases in Hq as [[-> ->] | [Hne Hq]].
    + apply (inv_held _ _ _ _ I g _ Hg eq_refl).
    + apply (inv_held _ _ _ _ I g' q Hq Hc).
  - intros h conf t Hin.
    apply (constructed_build now host) in Hin as [Hin | (-> & -> & ->)].
    + destruct (inv_cached _ _ _ _ I h conf t Hin) as [H | [(g' & Hg') | Hexp]].
      * left. exact H.
      * exfalso. eapply Hnoadd, Hg'.
      * right. right. lia.
    + right. left. exists g. apply list_lookup_insert_eq. eapply lookup_lt_Some, Hg.
  - intros g' h conf t Hq Hin.
    apply lookup_insert_cases in Hq as [[-> Hq] | [Hne Hq]]; [discriminate |].
    exfalso. apply Hne. eapply Honly, Hq.
  - intros g' h conf conf' t Hq Hin.
    apply lookup_insert_cases in Hq as [[-> Hq] | [Hne Hq]].
    2:{ exfalso. eapply Hnoadd, Hq. }
    injection Hq as -> ->.
    apply (constructed_build now host) in Hin as [Hin | (_ & -> & _)].
    + right. apply (Hold conf' t Hin).
    + left. reflexivity.
  - intros g' q conf Hq Hc. apply lookup_insert_cases in Hq as [[-> ->] | [Hne Hq]].
    + simpl in Hc. injection Hc as <-. exists now.
      apply (constructed_build now host). right. tauto.
    + destruct (inv_conf _ _ _ _ I g' q conf Hq Hc) as (t & Ht). exists t.
      apply (constructed_build now host). left. exact Ht.
  - intros h conf t Hin.
    apply (constructed_build now host) in Hin as [Hin | (-> & -> & ->)].
    + apply lookup_app_l_Some, (inv_heap _ _ _ _ I h conf t Hin).
    + rewrite list_lookup_middle by reflexivity.
      rewrite (inv_sessions _ _ _ _ I), (inv_flag _ _ _ _ I). reflexivity.
  - rewrite length_app, (inv_sessions _ _ _ _ I). simpl. lia.
  - rewrite map_app. simpl. apply List.NoDup_app.
    { apply (inv_fresh _ _ _ _ I). }
    { repeat constructor. intros []. }
    intros c Hc [<- | []]. apply in_map_iff in Hc as ([h c t] & Hm & Hin).
    simpl in Hm. subst c.
    pose proof (inv_heap _ _ _ _ I h _ t Hin) as Hh.
    apply lookup_lt_Some in Hh. lia.
Qed.

(** The cache never holds more entries than there are distinct hosts. *)
Lemma room_in_cache (s : System) (g : nat) (now : Z) (p : pc) :
  invariant t0 flag hosts s ->
  goroutines s !! g = Some p ->
  (List.length (without (pc_host p) (sweep now (tlsConfigs (shared s))))
   < capacity (tlsConfigs (shared s)))%nat.
Proof.
  intros I Hg. rewrite (inv_capacity _ _ _ _ I).
  set (es := without (pc_host p) (sweep now (tlsConfigs (shared s)))).
  assert (Hhost : In (pc_host p) hosts).
  { rewrite <- (inv_hosts _ _ _ _ I). eapply host_of_goroutine, Hg. }
  assert (Hnd : List.NoDup (pc_host p :: List.map key es)).
  { apply NoDup_cons_iff. split; [apply key_not_in_without |].
    unfold es, without, sweep. do 2 apply NoDup_keys_filter.
    apply (inv_wf _ _ _ _ I). }
  assert (Hincl : incl (pc_host p :: List.map key es) (nodup string_dec hosts)).
  { intros k [<- | Hk]; apply nodup_In; [exact Hhost |].
    apply in_map_iff in Hk as (e & <- & He).
    apply without_In in He as [He _]. apply sweep_In in He as [He _].
    apply (inv_entries _ _ _ _ I e He). }
  pose proof (NoDup_incl_length Hnd Hincl) as Hlen. simpl in Hlen.
  rewrite length_map in Hlen. lia.
Qed.

(** [Add]. *)
Lemma add_step (s : System) (g : nat) (now : Z) (host : string) (conf : nat) :
  invariant t0 flag hosts s ->
  clock s <= now ->
  goroutines s !! g = Some (AtAdd host conf) ->
  invariant t0 flag hosts
    {| clock := now;
       shared := set_cache (shared s) (Add now host conf (tlsConfigs (shared s)));
       goroutines := <[g := AtUnlock host conf]> (goroutines s) |}.
Proof.
  intros I Hclock Hg.
  destruct (inv_conf _ _ _ _ I g _ conf Hg eq_refl) as (tb & Hbuilt).
  simpl in Hbuilt.
  pose proof (inv_clock _ _ _ _ I) as Ht0.
  pose proof (inv_times _ _ _ _ I host conf tb Hbuilt) as Htb.
  assert (Hnew : In {| key := host; value := conf; written := now |}
                    (entries (Add now host conf (tlsConfigs (shared s))))).
  { destruct (Add_new now host conf (tlsConfigs (shared s))) as (rest & Hrest).
    - rewrite (inv_capacity _ _ _ _ I). unfold TLSConfigCacheSize. lia.
    - rewrite Hrest. left. reflexivity. }
  constructor; simpl.
  - lia.
  - rewrite (hosts_insert _ _ _ (AtUnlock host conf) Hg eq_refl).
    apply (inv_hosts _ _ _ _ I).
  - apply (inv_flag _ _ _ _ I).
  - apply (inv_capacity _ _ _ _ I).
  - apply (inv_ttl _ _ _ _ I).
  - apply wf_Add, (inv_wf _ _ _ _ I).
  - intros e He. apply Add_entries in He as [-> | [He _]];
      [| apply (inv_entries _ _ _ _ I e He)].
    simpl. split.
    + rewrite <- (inv_hosts _ _ _ _ I). apply (host_of_goroutine _ g _ Hg).
    + exists tb. split; [exact Hbuilt | lia].
  - intros h c t Hc. pose proof (inv_times _ _ _ _ I h c t Hc). lia.
  - apply (inv_spaced _ _ _ _ I).
  - intros g0 Hl. destruct (inv_holder _ _ _ _ I g0 Hl) as (p0 & Hg0 & Hc0).
    destruct (decide (g0 = g)) as [-> | Hne].
    + eexists. rewrite list_lookup_insert_eq by (eapply lookup_lt_Some, Hg).
      split; reflexivity.
    + exists p0. rewrite list_lookup_insert_ne by congruence. tauto.
  - intros g' q Hq Hc. apply lookup_insert_cases in Hq as [[-> ->] | [Hne Hq]].
    + apply (inv_held _ _ _ _ I g _ Hg eq_refl).
    + apply (inv_held _ _ _ _ I g' q Hq Hc).
  - intros h c t Hin.
    pose proof (inv_times _ _ _ _ I h c t Hin) as Ht.
    destruct (decide (h = host)) as [-> | Hne].
    + destruct (inv_add _ _ _ _ I g host conf c t Hg Hin) as [-> | Hexp].
      * left. eexists. split; [exact Hnew |]. simpl. repeat split; lia.
      * right. right. lia.
    + destruct (inv_cached _ _ _ _ I h c t Hin)
        as [(e & He & Hk & Hv & Hw) | [(g' & Hg') | Hexp]].
      * destruct (live (ttl (tlsConfigs (shared s))) now e) eqn:Hl.
        -- left. exists e. split; [| tauto]. apply Add_keeps.
           ++ exact He.
           ++ exact Hl.
           ++ congruence.
           ++ apply (room_in_cache s g now _ I Hg).
        -- right. right. apply (expired_entry s now e t I Hl Hw).
      * right. left. exists g'. rewrite list_lookup_insert_ne; [exact Hg' |].
        intros ->. rewrite Hg in Hg'. congruence.
      * right. right. lia.
  - intros g' h c t Hq Hin.
    apply lookup_insert_cases in Hq as [[-> Hq] | [Hne Hq]]; [discriminate |].
    pose proof (inv_build _ _ _ _ I g' h c t Hq Hin). lia.
  - intros g' h c c' t Hq Hin.
    apply lookup_insert_cases in Hq as [[-> Hq] | [Hne Hq]]; [discriminate |].
    destruct (inv_add _ _ _ _ I g' h c c' t Hq Hin); [left; assumption |].
    right. lia.
  - intros g' q c Hq Hc. apply lookup_insert_cases in Hq as [[-> ->] | [Hne Hq]];
      [| apply (inv_conf _ _ _ _ I g' q c Hq Hc)].
    simpl in Hc. injection Hc as <-. exists tb. exact Hbuilt.
  - apply (inv_heap _ _ _ _ I).
  - apply (inv_sessions _ _ _ _ I).
  - apply (inv_fresh _ _ _ _ I).
Qed.

(** The deferred [Unlock]. *)
Lemma unlock_step (s : System) (g : nat) (now : Z) (host : string) (conf : nat) :
  invariant t0 flag hosts s ->
  clock s <= now ->
  goroutines s !! g = Some (AtUnlock host conf) ->
  invariant t0 flag hosts
    {| clock := now; shared := set_lock (shared s) None;
       goroutines := <[g := Returned host conf]> (goroutines s) |}.
Proof.
  intros I Hclock Hg.
  pose proof (inv_held _ _ _ _ I g _ Hg eq_refl) as Hlock.
  pose proof (inv_clock _ _ _ _ I) as Ht0.
  constructor; simpl.
  - lia.
  - rewrite (hosts_insert _ _ _ (Returned host conf) Hg eq_refl).
    apply (inv_hosts _ _ _ _ I).
  - apply (inv_flag _ _ _ _ I).
  - apply (inv_capacity _ _ _ _ I).
  - apply (inv_ttl _ _ _ _ I).
  - apply (inv_wf _ _ _ _ I).
  - apply (inv_entries _ _ _ _ I).
  - intros h c t Hc. pose proof (inv_times _ _ _ _ I h c t Hc). lia.
  - apply (inv_spaced _ _ _ _ I).
  - discriminate.
  - intros g' q Hq Hc. apply lookup_insert_cases in Hq as [[-> ->] | [Hne Hq]];
      [discriminate |].
    pose proof (inv_held _ _ _ _ I g' q Hq Hc) as H. congruence.
  - intros h c t Hin.
    destruct (inv_cached _ _ _ _ I h c t Hin) as [H | [(g' & Hg') | Hexp]].
    + left. exact H.
    + right. left. exists g'. rewrite list_lookup_insert_ne; [exact Hg' |]. congruence.
    + right. right. lia.
  - intros g' h c t Hq Hin.
    apply lookup_insert_cases in Hq as [[-> Hq] | [Hne Hq]]; [discriminate |].
    pose proof (inv_build _ _ _ _ I g' h c t Hq Hin). lia.
  - intros g' h c c' t Hq Hin.
    apply lookup_insert_cases in Hq as [[-> Hq] | [Hne Hq]]; [discriminate |].
    destruct (inv_add _ _ _ _ I g' h c c' t Hq Hin); [left; assumption |].
    right. lia.
  - intros g' q c Hq Hc. apply lookup_insert_cases in Hq as [[-> ->] | [Hne Hq]];
      [| apply (inv_conf _ _ _ _ I g' q c Hq Hc)].
    simpl in Hc. injection Hc as <-.
    apply (inv_conf _ _ _ _ I g _ conf Hg eq_refl).
  - apply (inv_heap _ _ _ _ I).
  - apply (inv_sessions _ _ _ _ I).
  - apply (inv_fresh _ _ _ _ I).
Qed.

(** Every step keeps the invariant. *)
Lemma step_invariant (s s' : System) (g : nat) (now : Z) :
  invariant t0 flag hosts s ->
  step g now s = Some s' ->
  invariant t0 flag hosts s'.
Proof.
  intros I. unfold step.
  destruct (Z.ltb_spec now (clock s)) as [? | Hclock]; [discriminate |].
  destruct (goroutines s !! g) as [p |] eqn:Hg; [| discriminate].
  destruct p as [h | h | h | h | h c | h c | h c]; simpl.
  - destruct (Get now h (tlsConfigs (shared s))) as [[conf |] c'] eqn:Hr;
      intros [= <-];
      pose proof (get_step s g now _ _ h I Hclock Hg
                    (or_introl (conj eq_refl eq_refl))) as H;
      rewrite Hr in H; exact H.
  - destruct (tlsConfigsLock (shared s)) eqn:Hl; [discriminate |].
    intros [= <-]. apply lock_step; assumption.
  - destruct (Get now h (tlsConfigs (shared s))) as [[conf |] c'] eqn:Hr;
      intros [= <-];
      pose proof (get_step s g now _ _ h I Hclock Hg
                    (or_intror (conj eq_refl eq_refl))) as H;
      rewrite Hr in H; exact H.
  - intros [= <-]. apply (build_step s g now h I Hclock Hg).
  - intros [= <-]. apply add_step; assumption.
  - intros [= <-]. apply unlock_step; assumption.
  - discriminate.
Qed.

Lemma run_invariant (schedule : list (nat * Z)) (s s' : System) :
  invariant t0 flag hosts s ->
  run schedule s = Some s' ->
  invariant t0 flag hosts s'.
Proof.
  revert s. induction schedule as [|[g now] schedule IH]; simpl; intros s I.
  - intros [= <-]. exact I.
  - destruct (step g now s) as [s1 |] eqn:Hstep; [| discriminate].
    apply IH. eapply step_invariant; eassumption.
Qed.

(** No deadlock: while a call has not returned, some goroutine can move. *)
Lemma progress (s : System) (now : Z) :
  invariant t0 flag hosts s -> clock s <= now -> ~ all_returned s ->
  exists g s', step g now s = Some s'.
Proof.
  intros I Hclock Hnot.
  assert (Hstep : forall g p r,
             goroutines s !! g = Some p ->
             step_goroutine g now (shared s) p = Some r ->
             exists g s', step g now s = Some s').
  { intros g p [b' p'] Hg Hr. exists g. unfold step.
    destruct (Z.ltb_spec now (clock s)); [lia |]. rewrite Hg, Hr. eauto. }
  destruct (tlsConfigsLock (shared s)) as [g0 |] eqn:Hl.
  - destruct (inv_holder _ _ _ _ I g0 Hl) as (p0 & Hg0 & Hc0).
    destruct p0 as [h | h | h | h | h c | h c | h c]; try discriminate Hc0.
    + destruct (Get now h (tlsConfigs (shared s))) as [[conf |] c'] eqn:Hr;
        eapply (Hstep g0 _ _ Hg0); simpl; rewrite Hr; reflexivity.
    + eapply (Hstep g0 _ _ Hg0). reflexivity.
    + eapply (Hstep g0 _ _ Hg0). reflexivity.
    + eapply (Hstep g0 _ _ Hg0). reflexivity.
  - apply not_Forall_Exists in Hnot; [| intros p; apply _].
    apply Exists_exists in Hnot as (p & Hin & Hp).
    apply list_elem_of_lookup_1 in Hin as (g & Hg).
    destruct p as [h | h | h | h | h c | h c | h c];
      try (pose proof (inv_held _ _ _ _ I g _ Hg eq_refl); congruence).
    + destruct (Get now h (tlsConfigs (shared s))) as [[conf |] c'] eqn:Hr;
        eapply (Hstep g _ _ Hg); simpl; rewrite Hr; reflexivity.
    + eapply (Hstep g _ _ Hg). simpl. rewrite Hl. reflexivity.
    + exfalso. apply Hp. reflexivity.
Qed.

Lemma work_insert (gs : list pc) (g : nat) (p p' : pc) :
  gs !! g = Some p ->
  (list_sum (steps_left <$> <[g := p']> gs) + steps_left p
   = list_sum (steps_left <$> gs) + steps_left p')%nat.
Proof.
  unfold list_sum.
  revert g. induction gs as [|q gs IH]; intros [|g] Hg; try discriminate.
  - injection Hg as ->. change (<[0%nat := p']> (p :: gs)) with (p' :: gs).
    rewrite !fmap_cons. cbn [fold_right]. lia.
  - change (<[S g := p']> (q :: gs)) with (q :: <[g := p']> gs).
    rewrite !fmap_cons. cbn [fold_right]. specialize (IH g Hg). lia.
Qed.

(** Every step uses up some of the work that is left. *)
Lemma step_work (s s' : System) (g : nat) (now : Z) :
  step g now s = Some s' -> (work_left s' < work_left s)%nat /\ clock s' = now.
Proof.
  unfold step. destruct (now <? clock s); [discriminate |].
  destruct (goroutines s !! g) as [p |] eqn:Hg; [| discriminate].
  destruct (step_goroutine g now (shared s) p) as [[b' p'] |] eqn:Hr; [| discriminate].
  intros [= <-]. split; [| reflexivity]. unfold work_left. simpl.
  pose proof (work_insert _ g p p' Hg) as Hw.
  assert (steps_left p' < steps_left p)%nat; [| lia].
  destruct p as [h | h | h | h | h c | h c | h c]; simpl in Hr.
  - destruct (Get now h (tlsConfigs (shared s))) as [[conf |] c']; injection Hr as <- <-;
      simpl; lia.
  - destruct (tlsConfigsLock (shared s)); [discriminate |]. injection Hr as <- <-.
    simpl; lia.
  - destruct (Get now h (tlsConfigs (shared s))) as [[conf |] c']; injection Hr as <- <-;
      simpl; lia.
  - injection Hr as <- <-. simpl; lia.
  - injection Hr as <- <-. simpl; lia.
  - injection Hr as <- <-. simpl; lia.
  - discriminate.
Qed.

(** The calls that are under way can all be completed, without any further
    passing of time. *)
Lemma can_finish (n : nat) (s : System) :
  (work_left s <= n)%nat ->
  invariant t0 flag hosts s ->
  exists schedule s',
    run schedule s = Some s' /\ all_returned s' /\ clock s' = clock s.
Proof.
  revert s. induction n as [|n IH]; intros s Hn I.
  - exists [], s. split; [reflexivity |]. split; [| reflexivity].
    destruct (decide (all_returned s)) as [H | H]; [exact H |].
    destruct (progress s (clock s) I ltac:(lia) H) as (g & s' & Hstep).
    apply step_work in Hstep. lia.
  - destruct (decide (all_returned s)) as [H | H].
    + exists [], s. split; [reflexivity |]. split; [exact H | reflexivity].
    + destruct (progress s (clock s) I ltac:(lia) H) as (g & s1 & Hstep).
      destruct (step_work _ _ _ _ Hstep) as [Hw Hc].
      destruct (IH s1) as (schedule & s' & Hrun & Hall & Hclock).
      * lia.
      * eapply step_invariant; eassumption.
      * exists ((g, clock s) :: schedule), s'. split; [| split; [exact Hall | lia]].
        simpl. rewrite Hstep. exact Hrun.
Qed.

(** Before the first entry can expire, there is one construction per host
    at most. *)
Lemma one_construction_in_first_TTL (s : System) (host : string) :
  invariant t0 flag hosts s -> clock s < t0 + TLSConfigTTL ->
  (List.length (built_for host (shared s)) <= 1)%nat.
Proof.
  intros I Hclock.
  assert (Hnd : List.NoDup (List.map made (built_for host (shared s)))).
  { unfold built_for. generalize (inv_fresh _ _ _ _ I).
    generalize (built (shared s)) as l.
    induction l as [|k l IH]; simpl; intros Hnd; [constructor |].
    apply NoDup_cons_iff in Hnd as [Hnotin Hnd].
    destruct (String.eqb (for_host k) host); simpl; [| apply IH, Hnd].
    apply NoDup_cons_iff. split; [| apply IH, Hnd].
    intros Hin. apply Hnotin. apply in_map_iff in Hin as (k' & Hm & Hin).
    apply filter_In in Hin as [Hin _]. apply in_map_iff. eauto. }
  destruct (built_for host (shared s)) as [|k1 [|k2 l]] eqn:Hb; simpl; try lia.
  exfalso.
  assert (H1 : In k1 (built_for host (shared s))) by (rewrite Hb; simpl; tauto).
  assert (H2 : In k2 (built_for host (shared s))) by (rewrite Hb; simpl; tauto).
  apply built_for_In in H1 as [H1 Hh1]. apply built_for_In in H2 as [H2 Hh2].
  destruct k1 as [h1 c1 t1], k2 as [h2 c2 t2]. simpl in *. subst h1 h2.
  pose proof (inv_times _ _ _ _ I host c1 t1 H1).
  pose proof (inv_times _ _ _ _ I host c2 t2 H2).
  pose proof TTL_positive.
  destruct (inv_spaced _ _ _ _ I host c1 t1 c2 t2 H1 H2) as [[-> _] | [? | ?]];
    try lia.
  apply NoDup_cons_iff in Hnd as [Hnotin _]. apply Hnotin. left. reflexivity.
Qed.

End Steps.

Lemma start_invariant (t0 : Z) (opt : Opts.Opts) (hosts : list string) :
  invariant t0 (Opts.GetTLSSkipVerify opt) hosts (start t0 (NewBase opt) hosts).
Proof.
  assert (Hpc : forall g p, (AtGet <$> hosts) !! g = Some p -> exists h, p = AtGet h).
  { intros g p Hg. apply list_lookup_fmap_Some in Hg as (h & -> & _). eauto. }
  constructor; simpl.
  - lia.
  - rewrite <- list_fmap_compose. apply list_fmap_id.
  - reflexivity.
  - reflexivity.
  - reflexivity.
  - apply wf_New.
  - intros e [].
  - intros h conf t [].
  - intros h conf t conf' t' [].
  - discriminate.
  - intros g p Hg Hc. apply Hpc in Hg as (h & ->). discriminate.
  - intros h conf t [].
  - intros g h conf t Hg []. 
  - intros g h conf conf' t Hg [].
  - intros g p conf Hg Hc. apply Hpc in Hg as (h & ->). discriminate.
  - intros h conf t [].
  - reflexivity.
  - constructor.
Qed.

Lemma finish_step (n g : nat) (now : Z) (b : base) (p : pc) :
  has_returned p = false ->
  finish (S n) g now b p
  = match step_goroutine g now b p with
    | Some (b', p') => finish n g now b' p'
    | None => None
    end.
Proof. destruct p; intros H; try discriminate H; reflexivity. Qed.

Lemma finish_returned (n g : nat) (now : Z) (b : base) (host : string) (conf : nat) :
  finish n g now b (Returned host conf) = Some (conf, b).
Proof. destruct n; reflexivity. Qed.

Lemma finish_locked (n g : nat) (now : Z) (host : string) (b : base) :
  exists conf b', finish (4 + n) g now b (AtGetLocked host) = Some (conf, b').
Proof.
  change (4 + n)%nat with (S (S (S (S n)))).
  rewrite finish_step by reflexivity. cbn [step_goroutine].
  destruct (Get now host (tlsConfigs b)) as [[conf |] c].
  - rewrite finish_step by reflexivity. cbn [step_goroutine].
    rewrite finish_returned. eauto.
  - rewrite finish_step by reflexivity. cbn [step_goroutine].
    destruct (build now host (set_cache b c)) as [conf b1].
    rewrite finish_step by reflexivity. cbn [step_goroutine].
    rewrite finish_step by reflexivity. cbn [step_goroutine].
    rewrite finish_returned. eauto.
Qed.

(** A call that runs alone on a dialer whose mutex is free returns. *)
Lemma getTLSConfig_returns (now : Z) (host : string) (b : base) :
  tlsConfigsLock b = None ->
  exists conf b', getTLSConfig now host b = Some (conf, b').
Proof.
  intros Hl. unfold getTLSConfig.
  rewrite finish_step by reflexivity. cbn [step_goroutine].
  destruct (Get now host (tlsConfigs b)) as [[conf |] c].
  - rewrite finish_returned. eauto.
  - rewrite finish_step by reflexivity. cbn [step_goroutine].
    change (tlsConfigsLock (set_cache b c)) with (tlsConfigsLock b). rewrite Hl.
    apply (finish_locked 0).
Qed.

(** ** C2 *)

(** C2, as the code has it.  Calls of [getTLSConfig], for any hosts and
    interleaved in any way, are made on a new dialer from time [t0] on; the
    hosts are at most [TLSConfigCacheSize], so that the cache evicts no
    entry.  Two constructions for one host are then at least [TLSConfigTTL]
    apart: a configuration is constructed again only after the entry of the
    host has expired.  A call returns a configuration that was constructed
    for its host, so two calls for one host return the same instance or two
    instances that were constructed at least a TTL apart.  Until the first
    entry can expire, that is before [t0 + TLSConfigTTL], there is one
    construction per host at most and all the calls for a host return the
    same instance, however they are interleaved.  A constructed
    configuration has the [InsecureSkipVerify] of the options and a session
    cache of its own.  The calls that are under way can all return. *)
Theorem getTLSConfig_once_per_host_while_cached
    (opt : Opts.Opts) (t0 : Z) (hosts : list string)
    (schedule : list (nat * Z)) (s : System) :
  (List.length (nodup string_dec hosts) <= TLSConfigCacheSize)%nat ->
  run schedule (start t0 (NewBase opt) hosts) = Some s ->
  (forall host conf t conf' t',
      constructed (shared s) host conf t ->
      constructed (shared s) host conf' t' ->
      (conf = conf' /\ t = t') \/ TLSConfigTTL <= Z.abs (t' - t))
  /\ (forall g host conf,
        goroutines s !! g = Some (Returned host conf) ->
        exists t, constructed (shared s) host conf t)
  /\ (forall g g' host conf conf',
        goroutines s !! g = Some (Returned host conf) ->
        goroutines s !! g' = Some (Returned host conf') ->
        conf = conf'
        \/ exists t t', constructed (shared s) host conf t
                        /\ constructed (shared s) host conf' t'
                        /\ TLSConfigTTL <= Z.abs (t' - t))
  /\ (clock s < t0 + TLSConfigTTL ->
      (forall host, (List.length (built_for host (shared s)) <= 1)%nat)
      /\ (forall g g' host conf conf',
            goroutines s !! g = Some (Returned host conf) ->
            goroutines s !! g' = Some (Returned host conf') ->
            conf = conf'))
  /\ (forall host conf t,
        constructed (shared s) host conf t ->
        heap (shared s) !! conf
        = Some {| ClientSessionCache := conf;
                  InsecureSkipVerify := Opts.TLSSkipVerify opt |})
  /\ (exists schedule' s', run schedule' s = Some s' /\ all_returned s').
Proof.
  intros Hdistinct Hrun.
  pose proof (run_invariant t0 _ hosts Hdistinct schedule _ s
                (start_invariant t0 opt hosts) Hrun) as I.
  assert (Hspaced : forall host conf t conf' t',
             constructed (shared s) host conf t ->
             constructed (shared s) host conf' t' ->
             (conf = conf' /\ t = t') \/ TLSConfigTTL <= Z.abs (t' - t)).
  { intros host conf t conf' t' Hc Hc'.
    destruct (inv_spaced _ _ _ _ I host conf t conf' t' Hc Hc') as [H | [H | H]];
      [left; exact H | right; lia | right; lia]. }
  assert (Hret : forall g host conf,
             goroutines s !! g = Some (Returned host conf) ->
             exists t, constructed (shared s) host conf t).
  { intros g host conf Hg. apply (inv_conf _ _ _ _ I g _ conf Hg eq_refl). }
  split; [exact Hspaced |]. split; [exact Hret |].
  split; [| split; [| split]].
  - intros g g' host conf conf' Hg Hg'.
    destruct (Hret g host conf Hg) as (t & Ht).
    destruct (Hret g' host conf' Hg') as (t' & Ht').
    destruct (Hspaced host conf t conf' t' Ht Ht') as [[-> _] | H];
      [left; reflexivity | right; eauto].
  - intros Hclock. split.
    + intros host.
      apply (one_construction_in_first_TTL t0 _ hosts Hdistinct s host I Hclock).
    + intros g g' host conf conf' Hg Hg'.
      destruct (Hret g host conf Hg) as (t & Ht).
      destruct (Hret g' host conf' Hg') as (t' & Ht').
      pose proof (inv_times _ _ _ _ I host conf t Ht) as Hin.
      pose proof (inv_times _ _ _ _ I host conf' t' Ht') as Hin'.
      destruct (Hspaced host conf t conf' t' Ht Ht') as [[-> _] | Hfar];
        [reflexivity | lia].
  - intros host conf t Hc. apply (inv_heap _ _ _ _ I host conf t Hc).
  - destruct (can_finish t0 _ hosts Hdistinct (work_left s) s (le_n _) I)
      as (schedule' & s' & Hrun' & Hall & _).
    eauto.
Qed.

(** Two calls for one host, the second of which starts its look-up before
    the first has added the configuration. *)
Lemma getTLSConfig_once_per_host_while_cached_witness :
  exists s,
    run [(0%nat, 0); (1%nat, 0); (0%nat, 1); (0%nat, 1); (0%nat, 2);
         (0%nat, 2); (0%nat, 3); (1%nat, 4); (1%nat, 4); (1%nat, 5)]
      (start 0 (NewBase {| Opts.Timeout := 0; Opts.CleanupDNSEvery := 0;
                           Opts.TLSSkipVerify := true |})
         ["example.com"; "example.com"]) = Some s
    /\ goroutines s = [Returned "example.com" 0; Returned "example.com" 0]
    /\ (List.length (built_for "example.com" (shared s)) <= 1)%nat.
Proof.
  set (opt := {| Opts.Timeout := 0; Opts.CleanupDNSEvery := 0;
                 Opts.TLSSkipVerify := true |}).
  set (schedule := [(0%nat, 0); (1%nat, 0); (0%nat, 1); (0%nat, 1); (0%nat, 2);
         (0%nat, 2); (0%nat, 3); (1%nat, 4); (1%nat, 4); (1%nat, 5)]).
  destruct (run schedule (start 0 (NewBase opt) ["example.com"; "example.com"]))
    as [s |] eqn:Hrun; [| vm_compute in Hrun; discriminate].
  exists s. split; [reflexivity |].
  assert (Hd : (List.length (nodup string_dec ["example.com"; "example.com"])
                <= TLSConfigCacheSize)%nat) by (vm_compute; lia).
  destruct (getTLSConfig_once_per_host_while_cached opt 0 _ schedule s Hd Hrun)
    as (_ & _ & _ & Hfirst & _).
  assert (Hs : goroutines s = [Returned "example.com" 0; Returned "example.com" 0]
               /\ clock s = 5).
  { vm_compute in Hrun. injection Hrun as <-. split; reflexivity. }
  destruct Hs as [Hgs Hclock]. split; [exact Hgs |].
  apply Hfirst. rewrite Hclock. reflexivity.
Defined.

(** C2, as the claim states it, fails: the entry of a host expires after
    [TLSConfigTTL], and the next call for the host constructs a second
    configuration and returns it.  First for two calls one after the other,
    then for the same two calls as a schedule of two goroutines. *)
Lemma getTLSConfig_constructs_again_after_TTL :
  let opt := {| Opts.Timeout := 0; Opts.CleanupDNSEvery := 0;
                Opts.TLSSkipVerify := false |} in
  let first := getTLSConfig 0 "example.com" (NewBase opt) in
  let second :=
    match first with
    | Some (_, b1) => getTLSConfig (11 * Time.Minute) "example.com" b1
    | None => None
    end in
  let final :=
    run (((fun t => (0%nat, t)) <$> repeat 0 6)
           ++ ((fun t => (1%nat, t)) <$> repeat (11 * Time.Minute) 6))%list
      (start 0 (NewBase opt) ["example.com"; "example.com"]) in
  fst <$> first = Some 0%nat
  /\ fst <$> second = Some 1%nat
  /\ (fun r => made <$> built_for "example.com" (snd r)) <$> second
     = Some [0%nat; 1%nat]
  /\ goroutines <$> final
     = Some [Returned "example.com" 0; Returned "example.com" 1]
  /\ (fun s => made <$> built_for "example.com" (shared s)) <$> final
     = Some [0%nat; 1%nat].
Proof.
  vm_compute. repeat split; reflexivity.
Qed.

End TLSStoreFacts.

(** ** [PatchHTTPRequest] *)

Module PatchFacts.
Import Unicode Patch.

(** What [PatchHTTPRequest] does, by the scheme of the parsed URI: for a
    scheme that folds to [http] the target becomes the original path and the
    URI is marked as not parsed; otherwise the request is left as the
    parse has made it. *)
Lemma PatchHTTPRequest_parsed (parse : string -> string -> bool -> URI)
    (req : Request) :
  PatchHTTPRequest parse req
  = if EqualFold (Scheme (uri (parseURI parse req))) "http"
    then SetRequestURIBytes (parseURI parse req)
           (pathOriginal (uri (parseURI parse req)))
    else parseURI parse req.
Proof.
  unfold PatchHTTPRequest, Request_URI, PathOriginal.
  destruct (EqualFold _ "http"); [| reflexivity].
  assert (H : parseURI parse (parseURI parse req) = parseURI parse req).
  { unfold parseURI. destruct (parsedURI req) eqn:Hp; [rewrite Hp |]; reflexivity. }
  rewrite H. reflexivity.
Qed.

(** C7, on the code.  The request [http://example.com/search?q=1] has the
    scheme [http]; [PatchHTTPRequest] sets its target to [/search], the path
    alone, and not to [/search?q=1], the path and the query string.  It
    marks the URI as not parsed, so that the query is gone from the next
    [req.URI()] as well.  The same holds for a request that is not parsed
    yet and that the parser reads in this way. *)
Theorem PatchHTTPRequest_drops_query_string
    (parse : string -> string -> bool -> URI) :
  EqualFold (Scheme (uri Example.search_request)) "http" = true
  /\ requestURI (PatchHTTPRequest parse Example.search_request) = "/search"
  /\ path_and_query (uri Example.search_request) = "/search?q=1"
  /\ requestURI (PatchHTTPRequest parse Example.search_request)
     <> path_and_query (uri Example.search_request)
  /\ RequestURI (PatchHTTPRequest parse Example.search_request) = "/search"
  /\ parsedURI (PatchHTTPRequest parse Example.search_request) = false
  /\ uri (parseURI parse (PatchHTTPRequest parse Example.search_request))
     = parse "example.com" "/search" false
  /\ (forall req,
        parsedURI req = false ->
        parse (hostHeader req) (RequestURI req) (isTLS req)
        = uri Example.search_request ->
        RequestURI (PatchHTTPRequest parse req) = "/search").
Proof.
  assert (Hreq : PatchHTTPRequest parse Example.search_request
                 = SetRequestURIBytes Example.search_request "/search").
  { rewrite PatchHTTPRequest_parsed. reflexivity. }
  rewrite Hreq.
  split; [vm_compute; reflexivity |]. split; [reflexivity |].
  split; [reflexivity |]. split; [vm_compute; congruence |].
  split; [reflexivity |]. split; [reflexivity |]. split; [reflexivity |].
  intros req Hp Hparse. rewrite PatchHTTPRequest_parsed.
  unfold parseURI. rewrite Hp. cbn [uri]. rewrite Hparse. reflexivity.
Qed.

End PatchFacts.

(** ** [UpgradeToTLS] and its watchdog *)

Module UpgradeFacts.
Import Upgrade.

Lemma call_starts_invariant (cancelled : bool) : invariant (initial cancelled).
Proof.
  unfold invariant. simpl. split; [reflexivity |]. split; [tauto | discriminate].
Qed.

Lemma call_step_invariant (a : action) (s s' : State) :
  step a s = Some s' -> invariant s -> invariant s'.
Proof.
  unfold invariant.
  destruct s as [cd od ton tf cc c w n]. unfold step. simpl.
  intros Hstep (Hn & Hw & Hd).
  destruct a as [| | | | [| |] | | |], c as [| | | | r | r], w;
    simpl in Hstep;
    repeat match type of Hstep with
      | (if ?b then _ else _) = _ => destruct b
      end;
    try discriminate Hstep; injection Hstep as <-; simpl in *;
    first
      [ exfalso; destruct Hw as [_ Hw]; specialize (Hw ltac:(lia)); discriminate Hw
      | (split; [lia |]);
        (split; [split; intros; first [lia | discriminate | tauto] |]);
        intros r' Hr';
        first [discriminate Hr' | reflexivity | eapply Hd; eassumption] ].
Qed.

Lemma call_run_invariant (actions : list action) (s s' : State) :
  run actions s = Some s' -> invariant s -> invariant s'.
Proof.
  revert s. induction actions as [|a actions IH]; simpl; intros s.
  - intros [= <-]. tauto.
  - destruct (step a s) as [s1 |] eqn:Hstep; [| discriminate].
    intros Hrun I. eapply IH; [exact Hrun |]. eapply call_step_invariant; eassumption.
Qed.

(** Every call launches one watchdog, at the [go] statement, and no other. *)
Lemma one_watchdog (cancelled : bool) (actions : list action) (s : State) :
  run actions (initial cancelled) = Some s ->
  (launched s <= 1)%nat
  /\ (watchdog s <> NotLaunched -> launched s = 1%nat)
  /\ (forall r, caller s = Done r -> launched s = 1%nat).
Proof.
  intros Hrun.
  destruct (call_run_invariant _ _ _ Hrun (call_starts_invariant cancelled)) as (Hn & Hw & _).
  rewrite Hn. split; [| split].
  - destruct (caller s); simpl; lia.
  - intros Hne. destruct (caller s); simpl in *; try reflexivity;
      exfalso; apply Hne, Hw; lia.
  - intros r ->. reflexivity.
Qed.

(** On every exit path, with the connection or with the error of the
    handshake, the deferred [cancel()] has run when the call is over: the
    channel [ownCtx.Done()] is closed, the watchdog cannot wait in its
    [select], and the steps it has left take it to its end. *)
Lemma watchdog_released (cancelled : bool) (actions : list action) (s : State)
    (r : result) :
  run actions (initial cancelled) = Some s ->
  caller s = Done r ->
  ownDone s = true
  /\ exists s', run (watchdog_exit (watchdog s)) s = Some s'
                /\ watchdog s' = Exited /\ caller s' = Done r.
Proof.
  intros Hrun Hdone.
  destruct (call_run_invariant _ _ _ Hrun (call_starts_invariant cancelled)) as (Hn & Hw & Hd).
  pose proof (Hd r Hdone) as Hown. split; [exact Hown |].
  assert (Hl : watchdog s <> NotLaunched).
  { intros H. apply Hw in H. rewrite Hn, Hdone in H. discriminate H. }
  destruct s as [cd od ton tf cc c w n]. simpl in *. subst c od.
  destruct w; try congruence; simpl; eexists; (split; [reflexivity |]);
    split; reflexivity.
Qed.

(** When only the timer has fired, the [select] has one branch to take, and
    the watchdog closes the connection. *)
Lemma timer_closes (s : State) (br : branch) (s' : State) :
  watchdog s = InSelect -> timerFired s = true ->
  ownDone s = false -> ctxDone s = false ->
  step (Select br) s = Some s' ->
  br = TimerC
  /\ exists s'', step WatchdogStep s' = Some s'' /\ connClosed s'' = true.
Proof.
  destruct s as [cd od ton tf cc c w n]. simpl.
  intros -> -> -> -> Hstep.
  destruct br, c; simpl in Hstep; try discriminate Hstep;
    injection Hstep as <-; (split; [reflexivity |]); eexists;
    (split; [reflexivity |]); reflexivity.
Qed.

(** Once the watchdog has ended, nothing closes the connection. *)
Lemma no_watchdog_no_close (actions : list action) (s s' : State) :
  run actions s = Some s' ->
  watchdog s = Exited -> connClosed s = false -> launches_at (caller s) = 1%nat ->
  watchdog s' = Exited /\ connClosed s' = false.
Proof.
  revert s. induction actions as [|a actions IH]; simpl; intros s.
  - intros [= <-]. tauto.
  - destruct (step a s) as [s1 |] eqn:Hstep; [| discriminate].
    intros Hrun Hw Hc Hl.
    assert (H1 : watchdog s1 = Exited /\ connClosed s1 = false
                 /\ launches_at (caller s1) = 1%nat).
    { destruct s as [cd od ton tf cc c w n]. simpl in *. subst w cc.
      destruct a as [| | | | [| |] | | |], c; simpl in Hstep, Hl;
        repeat match type of Hstep with
          | (if ?b then _ else _) = _ => destruct b
          end;
        try discriminate Hstep; try discriminate Hl;
        injection Hstep as <-; repeat split; reflexivity. }
    destruct H1 as (Hw1 & Hc1 & Hl1). apply (IH s1 Hrun Hw1 Hc1 Hl1).
Qed.

(** ** C6 *)

(** C6, on the code.  [UpgradeToTLS] is called with a context that is
    cancelled already.  [ownCtx] is then cancelled from the start, so the
    [select] of the watchdog finds two channels ready and may take the
    branch of [ownCtx.Done()]: the watchdog ends without closing the
    connection, while the caller is in the handshake and the caller's
    context is cancelled.  The handshake can then go on and succeed on the
    open connection. *)
Theorem UpgradeToTLS_cancelled_context_not_enforced :
  let s := {| ctxDone := true; ownDone := true; timerOn := false;
              timerFired := false; connClosed := false;
              caller := InHandshake; watchdog := Exited; launched := 1 |} in
  run [CallerStep; CallerStep; WatchdogStep; Select OwnCtxDone; WatchdogStep;
       CallerStep] (initial true) = Some s
  /\ run [HandshakeOk; CallerStep] s
     = Some {| ctxDone := true; ownDone := true; timerOn := false;
               timerFired := false; connClosed := false;
               caller := Done TLSConn; watchdog := Exited; launched := 1 |}.
Proof.
  split; reflexivity.
Qed.

End UpgradeFacts.

(** ** The base64 encoding and its decoder *)

Module Base64Facts.
Import GoBytes Base64 GoBytesFacts UnicodeFacts.

(** A character of the alphabet decodes to its index; it is no padding, no
    newline and no blank. *)
Lemma decodeMap_encode (v : Z) :
  0 <= v < 64 ->
  decodeMap (encode v) = v
  /\ is_newline (encode v) = false
  /\ Ascii.eqb (encode v) padChar = false
  /\ is_blank (encode v) = false.
Proof.
  intros Hv. rewrite <- (Z2Nat.id v) by lia.
  assert (Hn : (Z.to_nat v < 64)%nat) by lia.
  generalize dependent (Z.to_nat v). intros n Hn.
  do 64 (destruct n as [|n]; [vm_compute; repeat split; reflexivity |]).
  lia.
Qed.

Lemma sextet_range (x : Z) : 0 <= Z.land x 63 < 64.
Proof.
  change 63 with (Z.ones 6). rewrite Z.land_ones by lia.
  apply Z.mod_pos_bound. reflexivity.
Qed.

Lemma byte_of_byte_val (c : ascii) (v : Z) :
  Z.land v 255 = byte_val c -> byte_of v = c.
Proof.
  unfold byte_of, byte_val. intros ->. rewrite N2Z.id. apply ascii_N_embedding.
Qed.

(** One step of the decoder on a character of the alphabet. *)
Lemma decode_loop_sextet (v : Z) (rest : string) (si : Z) (dbuf : list Z) :
  0 <= v < 64 ->
  decode_loop (String (encode v) rest) si dbuf
  = if (List.length (dbuf ++ [v]) =? 4)%nat
    then prepend (quantum_bytes (dbuf ++ [v])) (decode_loop rest (si + 1) [])
    else decode_loop rest (si + 1) (dbuf ++ [v]).
Proof.
  intros Hv. destruct (decodeMap_encode v Hv) as (Hd & _).
  cbn [decode_loop]. rewrite Hd.
  destruct (Z.eqb_spec v 255); [lia |]. reflexivity.
Qed.

(** The three bytes of a group, put together. *)
Lemma group_value (a b c : Z) :
  0 <= a < 256 -> 0 <= b < 256 -> 0 <= c < 256 ->
  Z.lor (Z.lor (Z.shiftl a 16) (Z.shiftl b 8)) c = a * 65536 + b * 256 + c.
Proof.
  intros Ha Hb Hc. rewrite !Z.shiftl_mul_pow2 by lia.
  rewrite (lor_disjoint a (b * 2 ^ 8) 16) by lia.
  replace (a * 2 ^ 16 + b * 2 ^ 8) with ((a * 256 + b) * 2 ^ 8) by lia.
  rewrite lor_disjoint by lia. lia.
Qed.

Lemma sextets_value (val : Z) :
  0 <= val < 2 ^ 24 ->
  Z.lor (Z.lor (Z.lor (Z.shiftl (Z.land (Z.shiftr val 18) 63) 18)
                      (Z.shiftl (Z.land (Z.shiftr val 12) 63) 12))
               (Z.shiftl (Z.land (Z.shiftr val 6) 63) 6))
        (Z.land val 63) = val.
Proof.
  intros Hval. apply Z.bits_inj'. intros n Hn.
  rewrite !Z.lor_spec, !Z.land_spec.
  change 63 with (Z.ones 6).
  destruct (Z.lt_ge_cases n 6) as [H6 | H6].
  - rewrite !Z.shiftl_spec_low by lia. rewrite Z.ones_spec_low by lia.
    simpl. apply andb_true_r.
  - rewrite (Z.ones_spec_high 6 n) by lia. rewrite andb_false_r, orb_false_r.
    destruct (Z.lt_ge_cases n 12) as [H12 | H12].
    + rewrite (Z.shiftl_spec_low _ 18), (Z.shiftl_spec_low _ 12) by lia.
      rewrite Z.shiftl_spec, Z.land_spec, Z.shiftr_spec by lia.
      rewrite Z.ones_spec_low by lia. simpl. rewrite andb_true_r.
      f_equal. lia.
    + destruct (Z.lt_ge_cases n 18) as [H18 | H18].
      * rewrite (Z.shiftl_spec_low _ 18) by lia.
        rewrite !Z.shiftl_spec, !Z.land_spec, !Z.shiftr_spec by lia.
        rewrite (Z.ones_spec_low 6 (n - 12)) by lia.
        rewrite (Z.ones_spec_high 6 (n - 6)) by lia.
        simpl. rewrite andb_true_r, andb_false_r, orb_false_r. f_equal. lia.
      * rewrite !Z.shiftl_spec, !Z.land_spec, !Z.shiftr_spec by lia.
        rewrite (Z.ones_spec_high 6 (n - 12)) by lia.
        rewrite (Z.ones_spec_high 6 (n - 6)) by lia.
        rewrite !andb_false_r, !orb_false_r.
        destruct (Z.lt_ge_cases n 24) as [H24 | H24].
        -- rewrite Z.ones_spec_low by lia. rewrite andb_true_r. f_equal. lia.
        -- rewrite Z.ones_spec_high by lia. rewrite andb_false_r.
           symmetry. destruct (Z.eq_dec val 0) as [-> | Hne];
             [apply Z.bits_0 |].
           apply Z.bits_above_log2; [lia |].
           apply Z.lt_le_trans with 24; [| lia].
           apply Z.log2_lt_pow2; lia.
Qed.

(** The bytes of a group, read back. *)
Lemma group_bytes (ca cb cc : ascii) :
  let val := byte_val ca * 65536 + byte_val cb * 256 + byte_val cc in
  byte_of (Z.shiftr val 16) = ca
  /\ byte_of (Z.shiftr val 8) = cb
  /\ byte_of val = cc.
Proof.
  intros val. subst val.
  pose proof (byte_val_range ca). pose proof (byte_val_range cb).
  pose proof (byte_val_range cc).
  repeat split; apply byte_of_byte_val; change 255 with (Z.ones 8);
    rewrite Z.land_ones, ?Z.shiftr_div_pow2 by lia;
    [change (2 ^ 16) with 65536 | change (2 ^ 8) with 256 |];
    change (2 ^ 8) with 256; Z.to_euclidean_division_equations; lia.
Qed.

Lemma decode_loop_pad3 (x y z si : Z) :
  decode_loop "=" si [x; y; z] = inl (quantum_bytes [x; y; z]).
Proof. reflexivity. Qed.

Lemma decode_loop_pad2 (x y si : Z) :
  decode_loop "==" si [x; y] = inl (quantum_bytes [x; y]).
Proof. reflexivity. Qed.

Lemma string_ind3 (P : string -> Prop) :
  P "" ->
  (forall a, P (String a "")) ->
  (forall a b, P (String a (String b ""))) ->
  (forall a b c rest, P rest -> P (String a (String b (String c rest)))) ->
  forall s, P s.
Proof.
  intros H0 H1 H2 H3. fix IH 1.
  intros [|a [|b [|c rest]]]; [exact H0 | apply H1 | apply H2 |].
  apply H3, IH.
Qed.

(** What the decoder makes of the sextets of a group: of all four, and of
    the first three or two when the rest of the group is zero. *)
Lemma quantum4 (val : Z) :
  0 <= val < 2 ^ 24 ->
  quantum_bytes [Z.land (Z.shiftr val 18) 63; Z.land (Z.shiftr val 12) 63;
                 Z.land (Z.shiftr val 6) 63; Z.land val 63]
  = String (byte_of (Z.shiftr val 16))
      (String (byte_of (Z.shiftr val 8)) (String (byte_of val) "")).
Proof.
  intros Hval. unfold quantum_bytes. cbn [nth List.length Nat.pred str_take].
  rewrite (sextets_value val Hval). reflexivity.
Qed.

Lemma quantum3 (val : Z) :
  0 <= val < 2 ^ 24 -> Z.land val 63 = 0 ->
  quantum_bytes [Z.land (Z.shiftr val 18) 63; Z.land (Z.shiftr val 12) 63;
                 Z.land (Z.shiftr val 6) 63]
  = String (byte_of (Z.shiftr val 16)) (String (byte_of (Z.shiftr val 8)) "").
Proof.
  intros Hval H0. pose proof (sextets_value val Hval) as E. rewrite H0 in E.
  unfold quantum_bytes. cbn [nth List.length Nat.pred str_take].
  rewrite E. reflexivity.
Qed.

Lemma quantum2 (val : Z) :
  0 <= val < 2 ^ 24 -> Z.land val 63 = 0 -> Z.land (Z.shiftr val 6) 63 = 0 ->
  quantum_bytes [Z.land (Z.shiftr val 18) 63; Z.land (Z.shiftr val 12) 63]
  = String (byte_of (Z.shiftr val 16)) "".
Proof.
  intros Hval H0 H6. pose proof (sextets_value val Hval) as E.
  rewrite H0, H6 in E.
  unfold quantum_bytes. cbn [nth List.length Nat.pred str_take].
  rewrite E. reflexivity.
Qed.

(** Decoding undoes encoding. *)
Lemma decode_loop_EncodeToString (s : string) :
  forall si, decode_loop (EncodeToString s) si [] = inl s.
Proof.
  induction s as [| ca | ca cb | ca cb cc rest IH] using string_ind3; intros si.
  - reflexivity.
  - cbn [EncodeToString].
    pose proof (byte_val_range ca) as Ha.
    pose proof (group_value (byte_val ca) 0 0 Ha ltac:(lia) ltac:(lia)) as Hg.
    change (Z.shiftl 0 8) with 0 in Hg. rewrite !Z.lor_0_r in Hg.
    rewrite Hg.
    pose proof (group_bytes ca "000" "000") as (Ba & _).
    change (byte_val "000") with 0 in Ba. cbv zeta in Ba.
    set (val := byte_val ca * 65536 + 0 * 256 + 0) in *.
    assert (Hval : 0 <= val < 2 ^ 24) by (subst val; lia).
    rewrite !decode_loop_sextet by apply sextet_range.
    cbn [List.length app Nat.eqb].
    rewrite decode_loop_pad2, quantum2, Ba; [reflexivity | exact Hval | |].
    + change 63 with (Z.ones 6). rewrite Z.land_ones by lia.
      subst val. change (2 ^ 6) with 64. Z.to_euclidean_division_equations. lia.
    + change 63 with (Z.ones 6).
      rewrite Z.land_ones, Z.shiftr_div_pow2 by lia.
      subst val. change (2 ^ 6) with 64. Z.to_euclidean_division_equations. lia.
  - cbn [EncodeToString].
    pose proof (byte_val_range ca) as Ha. pose proof (byte_val_range cb) as Hb.
    pose proof (group_value (byte_val ca) (byte_val cb) 0 Ha Hb ltac:(lia)) as Hg.
    rewrite Z.lor_0_r in Hg. rewrite Hg.
    pose proof (group_bytes ca cb "000") as (Ba & Bb & _).
    change (byte_val "000") with 0 in Ba, Bb. cbv zeta in Ba, Bb.
    set (val := byte_val ca * 65536 + byte_val cb * 256 + 0) in *.
    assert (Hval : 0 <= val < 2 ^ 24) by (subst val; lia).
    rewrite !decode_loop_sextet by apply sextet_range.
    cbn [List.length app Nat.eqb].
    rewrite decode_loop_pad3, quantum3, Ba, Bb; [reflexivity | exact Hval |].
    change 63 with (Z.ones 6). rewrite Z.land_ones by lia.
    subst val. change (2 ^ 6) with 64. Z.to_euclidean_division_equations. lia.
  - cbn [EncodeToString].
    pose proof (byte_val_range ca) as Ha. pose proof (byte_val_range cb) as Hb.
    pose proof (byte_val_range cc) as Hc.
    rewrite (group_value (byte_val ca) (byte_val cb) (byte_val cc) Ha Hb Hc).
    pose proof (group_bytes ca cb cc) as (Ba & Bb & Bc). cbv zeta in Ba, Bb, Bc.
    set (val := byte_val ca * 65536 + byte_val cb * 256 + byte_val cc) in *.
    assert (Hval : 0 <= val < 2 ^ 24) by (subst val; lia).
    rewrite !decode_loop_sextet by apply sextet_range.
    cbn [List.length app Nat.eqb].
    rewrite IH, quantum4, Ba, Bb, Bc by exact Hval. reflexivity.
Qed.

Lemma DecodeString_EncodeToString (s : string) :
  DecodeString (EncodeToString s) = inl s.
Proof. apply decode_loop_EncodeToString. Qed.

(** An encoding does not start with a space or a tab. *)
Lemma trim_blanks_EncodeToString (s : string) :
  trim_blanks (EncodeToString s) = EncodeToString s.
Proof.
  destruct (EncodeToString s) as [|c e] eqn:He; [reflexivity |].
  apply trim_blanks_no_blank.
  pose proof (DecodeString_EncodeToString s) as Hd. rewrite He in Hd.
  destruct (is_blank c) eqn:Hb; [| reflexivity].
  unfold is_blank in Hb. apply orb_true_iff in Hb as [Hb | Hb];
    apply Ascii.eqb_eq in Hb; subst c; discriminate Hd.
Qed.

End Base64Facts.

(** ** Slices of concatenations *)

Module SliceFacts.
Import GoBytes GoBytesFacts.

Lemma len_app (s t : string) : len (s ++ t) = len s + len t.
Proof.
  unfold len. induction s as [|a s IH]; simpl; [reflexivity | lia].
Qed.

Lemma IndexByte_from_absent (s : string) (c : ascii) (i : Z) :
  0 <= i -> IndexByte_from s c i < 0 -> IndexByte_from s c i = -1.
Proof.
  intros Hi H. destruct (IndexByte_from_bounds s c i); [assumption | lia].
Qed.

(** The first occurrence of a byte that the start of the string does not
    have. *)
Lemma IndexByte_from_app (tok rest : string) (c : ascii) (i : Z) :
  0 <= i -> IndexByte_from tok c i < 0 ->
  IndexByte_from (tok ++ String c rest) c i = i + len tok.
Proof.
  revert i. induction tok as [|a tok IH]; intros i Hi H; simpl in *.
  - rewrite Ascii.eqb_refl. unfold len. simpl. lia.
  - rewrite len_String. destruct (Ascii.eqb a c); [lia |].
    rewrite IH by lia. lia.
Qed.

Lemma IndexByte_app (tok rest : string) (c : ascii) :
  IndexByte tok c < 0 -> IndexByte (tok ++ String c rest) c = len tok.
Proof.
  intros H. unfold IndexByte. rewrite IndexByte_from_app by (try lia; exact H).
  lia.
Qed.

Lemma slice_to_app (s t : string) : slice_to (s ++ t) (len s) = s.
Proof.
  unfold slice_to, len. rewrite Nat2Z.id.
  induction s as [|a s IH]; simpl; [destruct t; reflexivity | f_equal; exact IH].
Qed.

Lemma slice_from_app (s t : string) : slice_from (s ++ t) (len s) = t.
Proof.
  unfold slice_from, len. rewrite Nat2Z.id.
  induction s as [|a s IH]; simpl; [reflexivity | exact IH].
Qed.

Lemma slice_from_app_next (s t : string) (c : ascii) :
  slice_from (s ++ String c t) (len s + 1) = t.
Proof.
  unfold slice_from, len.
  replace (Z.to_nat (Z.of_nat (String.length s) + 1)) with (S (String.length s))
    by lia.
  induction s as [|a s IH]; simpl; [reflexivity | exact IH].
Qed.

Lemma trim_blanks_app (blanks s : string) :
  forallb is_blank (list_ascii_of_string blanks) = true ->
  trim_blanks (blanks ++ s) = trim_blanks s.
Proof.
  induction blanks as [|c blanks IH]; simpl; [reflexivity |].
  intros H. apply andb_true_iff in H as [Hc H]. rewrite Hc. apply IH, H.
Qed.

(** Whether a byte is found does not depend on the index the search
    starts to count from. *)
Lemma IndexByte_from_none (s : string) (c : ascii) (i j : Z) :
  0 <= i -> 0 <= j -> IndexByte_from s c i = -1 -> IndexByte_from s c j = -1.
Proof.
  revert i j. induction s as [|a s IH]; intros i j Hi Hj H; simpl in *;
    [reflexivity |].
  destruct (Ascii.eqb a c); [lia |]. apply (IH (i + 1)); [lia | lia | exact H].
Qed.

(** What precedes the first occurrence of a byte does not have it. *)
Lemma IndexByte_from_slice_to (s : string) (c : ascii) (i : Z) :
  0 <= i ->
  IndexByte_from (str_take (Z.to_nat (IndexByte_from s c i - i)) s) c 0 = -1.
Proof.
  revert i. induction s as [|a s IH]; intros i Hi; simpl.
  - destruct (Z.to_nat (-1 - i)); reflexivity.
  - destruct (Ascii.eqb a c) eqn:E.
    + rewrite Z.sub_diag. reflexivity.
    + destruct (IndexByte_from_bounds s c (i + 1)) as [H | H].
      * rewrite H. replace (Z.to_nat (-1 - i)) with 0%nat by lia. reflexivity.
      * replace (Z.to_nat (IndexByte_from s c (i + 1) - i))
          with (S (Z.to_nat (IndexByte_from s c (i + 1) - (i + 1)))) by lia.
        simpl. rewrite E.
        apply (IndexByte_from_none _ c 0); [lia | lia |].
        apply IH. lia.
Qed.

Lemma IndexByte_slice_to (s : string) (c : ascii) :
  IndexByte (slice_to s (IndexByte s c)) c < 0.
Proof.
  unfold IndexByte, slice_to.
  pose proof (IndexByte_from_slice_to s c 0 ltac:(lia)) as H.
  rewrite Z.sub_0_r in H. rewrite H. lia.
Qed.

End SliceFacts.

(** ** The credential list: what [doAuth] accepts *)

Module CredentialFacts.
Import GoBytes Unicode Subtle Base64 BasicAuth.
Import GoBytesFacts UnicodeFacts SubtleFacts Base64Facts SliceFacts BasicAuthFacts.

Lemma basic_spellings_no_space :
  forallb (fun tok => IndexByte tok " " <? 0) basic_spellings = true.
Proof. vm_compute. reflexivity. Qed.

(** The parts of a header: a spelling of [Basic], a space, more spaces and
    tabs, and a payload that starts with none. *)
Lemma header_parts (tok blanks payload : string) :
  In tok basic_spellings ->
  forallb is_blank (list_ascii_of_string blanks) = true ->
  trim_blanks payload = payload ->
  let text := tok ++ " " ++ blanks ++ payload in
  let pos := IndexByte text " " in
  0 <= pos
  /\ slice_to text pos = tok
  /\ trim_blanks (slice_from text pos) = payload.
Proof.
  intros Htok Hblanks Hpayload text pos.
  assert (Hpos : pos = len tok).
  { apply IndexByte_app.
    apply (proj1 (forallb_forall _ _) basic_spellings_no_space tok) in Htok.
    apply Z.ltb_lt in Htok. exact Htok. }
  rewrite Hpos. subst text. split; [apply len_nonneg |].
  split; [apply slice_to_app |].
  rewrite slice_from_app.
  change (" " ++ blanks ++ payload) with (String " " blanks ++ payload).
  rewrite trim_blanks_app; [exact Hpayload |]. exact Hblanks.
Qed.

(** The pairs of the authenticator are the entries of the map. *)
Lemma NewBasicAuth_infos (m : gmap string string) (u p : string) :
  In {| user := u; password := p |} (infos (NewBasicAuth m)) <-> m !! u = Some p.
Proof.
  unfold NewBasicAuth. cbn [infos].
  rewrite <- list_elem_of_In, list_elem_of_fmap. split.
  - intros ([k v] & [= -> ->] & Hin). apply elem_of_map_to_list in Hin. exact Hin.
  - intros H. exists (u, p). split; [reflexivity |].
    apply elem_of_map_to_list. exact H.
Qed.

Lemma existsb_NewBasicAuth (m : gmap string string) (u p : string) :
  existsb (same_pair u p) (infos (NewBasicAuth m)) = bool_decide (m !! u = Some p).
Proof.
  apply eq_true_iff_eq. rewrite existsb_same_pair, bool_decide_eq_true.
  rewrite <- NewBasicAuth_infos. split.
  - intros ([u' p'] & Hin & Hu & Hp). simpl in Hu, Hp. subst. exact Hin.
  - intros Hin. eexists. split; [exact Hin |]. split; reflexivity.
Qed.

(** [doAuth] on a spelling of [Basic], a space, any spaces and tabs, and the
    base64 encoding of [user:password], for a user without a colon. *)
Lemma doAuth_encoded_pair (infos : list basicAuthUserInfo) (tok blanks u p : string) :
  In tok basic_spellings ->
  forallb is_blank (list_ascii_of_string blanks) = true ->
  IndexByte u ":" < 0 ->
  fst (doAuth infos (tok ++ " " ++ blanks ++ EncodeToString (u ++ ":" ++ p)))
  = if existsb (same_pair u p) infos
    then {| reply := Some u; err := None |}
    else failure ErrBasicAuthNoUser.
Proof.
  intros Htok Hblanks Hu.
  destruct (header_parts tok blanks (EncodeToString (u ++ ":" ++ p)) Htok Hblanks
              (trim_blanks_EncodeToString _)) as (Hpos & Hscheme & Hpayload).
  assert (Hcolon : IndexByte (u ++ ":" ++ p) ":" = len u)
    by (apply IndexByte_app, Hu).
  rewrite (doAuth_decoded _ _ (u ++ ":" ++ p) Hpos).
  - rewrite Hcolon. cbn [fst].
    rewrite slice_to_app. change (u ++ ":" ++ p) with (u ++ String ":" p).
    rewrite slice_from_app_next. reflexivity.
  - rewrite Hscheme. apply EqualFold_Basic, Htok.
  - rewrite slice_from_skip_blanks by exact Hpos.
    rewrite Hpayload. apply DecodeString_EncodeToString.
  - rewrite Hcolon. apply len_nonneg.
Qed.

(** A configured pair is accepted, and a pair that is not configured is
    refused with [ErrBasicAuthNoUser], when the header is a spelling of
    [Basic], a space, any spaces and tabs, and the base64 encoding of
    [user:password]; the user has no colon. *)
Theorem doAuth_accepts_exactly_the_configured_pairs
    (m : gmap string string) (tok blanks u p : string) :
  In tok basic_spellings ->
  forallb is_blank (list_ascii_of_string blanks) = true ->
  IndexByte u ":" < 0 ->
  fst (doAuth (infos (NewBasicAuth m))
         (tok ++ " " ++ blanks ++ EncodeToString (u ++ ":" ++ p)))
  = if bool_decide (m !! u = Some p)
    then {| reply := Some u; err := None |}
    else failure ErrBasicAuthNoUser.
Proof.
  intros Htok Hblanks Hu.
  rewrite (doAuth_encoded_pair _ tok blanks u p Htok Hblanks Hu).
  rewrite existsb_NewBasicAuth. reflexivity.
Qed.

Lemma doAuth_accepts_exactly_the_configured_pairs_witness :
  fst (doAuth (infos (NewBasicAuth Example.alice))
         ("bASIC" ++ " " ++ " " ++ EncodeToString ("alice" ++ ":" ++ "secret")))
  = {| reply := Some "alice"; err := None |}.
Proof.
  apply (doAuth_accepts_exactly_the_configured_pairs Example.alice
           "bASIC" " " "alice" "secret");
    first [spelled | vm_compute; first [reflexivity | discriminate]].
Defined.

(** [NewBasicAuth] makes one pair of each entry of the map, so that no two
    pairs have the same user, and a cache, empty, for twice as many
    decisions as there are pairs. *)
Theorem NewBasicAuth_holds_the_pairs_of_the_map (m : gmap string string) :
  (forall u p, In {| user := u; password := p |} (infos (NewBasicAuth m))
               <-> m !! u = Some p)
  /\ List.length (infos (NewBasicAuth m)) = size m
  /\ List.NoDup (List.map user (infos (NewBasicAuth m)))
  /\ BoundedCache.capacity (cache (NewBasicAuth m)) = (2 * size m)%nat
  /\ BoundedCache.ttl (cache (NewBasicAuth m)) = Time.Hour
  /\ BoundedCache.entries (cache (NewBasicAuth m)) = [].
Proof.
  split; [apply NewBasicAuth_infos |].
  unfold NewBasicAuth. cbn [infos cache].
  split; [rewrite length_fmap; apply length_map_to_list |].
  split; [| repeat split].
  apply NoDup_ListNoDup.
  change (List.map user) with (fmap (M := list) user).
  rewrite <- list_fmap_compose.
  apply (NoDup_fst_map_to_list m).
Qed.

(** [OK] is equality of both fields. *)
Theorem OK_iff_both_fields_equal (u : basicAuthUserInfo) (user' password' : string) :
  fst (OK u user' password') = true
  <-> user u = user' /\ password u = password'.
Proof.
  rewrite OK_value. unfold same_pair. rewrite andb_true_iff, !String.eqb_eq.
  reflexivity.
Qed.

(** What a result of [doAuth] is made of. *)
Lemma doAuth_result (infos : list basicAuthUserInfo) (text : string) :
  let r := fst (doAuth infos text) in
  (forall u, reply r = Some u ->
     err r = None /\ IndexByte u ":" < 0
     /\ exists p, In {| user := u; password := p |} infos)
  /\ (reply r = None -> err r <> None).
Proof.
  unfold doAuth.
  destruct (IndexByte text " " <? 0); [split; [discriminate | discriminate] |].
  destruct (EqualFold _ "Basic"); simpl negb; cbv iota;
    [| split; [discriminate | discriminate]].
  destruct (DecodeString _) as [decoded | e];
    [| split; [discriminate | discriminate]].
  destruct (IndexByte decoded ":" <? 0); [split; [discriminate | discriminate] |].
  rewrite fst_bind, check_infos_value. cbn [orb].
  destruct (existsb _ infos) eqn:Hfound; cbn [fst ret reply err failure];
    [| split; [discriminate | discriminate]].
  split; [| discriminate].
  intros u [= <-]. split; [reflexivity |]. split; [apply IndexByte_slice_to |].
  apply existsb_same_pair in Hfound as ([u' p'] & Hin & Hu & Hp).
  simpl in Hu, Hp. subst. eauto.
Qed.

(** Whatever the header, a reply of [doAuth] comes without an error and is
    the user of a configured pair, without a colon; a result without a
    reply has an error.  A pair whose user has a colon is never accepted. *)
Theorem doAuth_replies_with_a_configured_user
    (infos : list basicAuthUserInfo) (text : string) :
  let r := fst (doAuth infos text) in
  (forall u, reply r = Some u ->
     err r = None /\ IndexByte u ":" < 0
     /\ exists p, In {| user := u; password := p |} infos)
  /\ (reply r = None -> err r <> None)
  /\ (forall u, 0 <= IndexByte u ":" -> reply r <> Some u).
Proof.
  intros r. destruct (doAuth_result infos text) as [H1 H2]. fold r in H1, H2.
  split; [exact H1 |]. split; [exact H2 |].
  intros u Hu Hr. apply H1 in Hr as (_ & Hno & _). lia.
Qed.

(** The pairs [a:b], [c] and [a], [b:c] give one header, [Basic] and the
    encoding of [a:b:c]; it is the user [a] that is authenticated. *)
Lemma doAuth_replies_with_a_configured_user_witness :
  let infos := [ {| user := "a:b"; password := "c" |};
                 {| user := "a"; password := "b:c" |} ] in
  let r := fst (doAuth infos ("Basic " ++ EncodeToString "a:b:c")) in
  reply r = Some "a"
  /\ (err r = None /\ IndexByte "a" ":" < 0
      /\ exists p, In {| user := "a"; password := p |} infos)
  /\ 0 <= IndexByte "a:b" ":"
  /\ reply r <> Some "a:b".
Proof.
  cbv zeta.
  pose proof (doAuth_replies_with_a_configured_user
                [ {| user := "a:b"; password := "c" |};
                  {| user := "a"; password := "b:c" |} ]
                ("Basic " ++ EncodeToString "a:b:c")) as (H1 & _ & H3).
  split; [vm_compute; reflexivity |].
  split; [apply H1; vm_compute; reflexivity |].
  split; [vm_compute; discriminate |].
  apply H3. vm_compute. discriminate.
Defined.

Lemma existsb_Permutation {A} (f : A -> bool) (l l' : list A) :
  l ≡ₚ l' -> existsb f l = existsb f l'.
Proof.
  induction 1 as [| x l l' _ IH | x y l | l l' l'' _ IH1 _ IH2]; simpl.
  - reflexivity.
  - rewrite IH. reflexivity.
  - destruct (f x), (f y); reflexivity.
  - congruence.
Qed.

(** The result of [doAuth] does not depend on the order of the pairs, that
    is, on the order in which [NewBasicAuth] has ranged over the map. *)
Theorem doAuth_result_independent_of_map_order
    (m : gmap string string) (infos' : list basicAuthUserInfo) (text : string) :
  infos' ≡ₚ infos (NewBasicAuth m) ->
  fst (doAuth infos' text) = fst (doAuth (infos (NewBasicAuth m)) text).
Proof.
  intros Hperm. unfold doAuth.
  destruct (IndexByte text " " <? 0); [reflexivity |].
  destruct (EqualFold _ "Basic"); simpl negb; cbv iota; [| reflexivity].
  destruct (DecodeString _) as [decoded | e]; [| reflexivity].
  destruct (IndexByte decoded ":" <? 0); [reflexivity |].
  rewrite !fst_bind, !check_infos_value.
  rewrite (existsb_Permutation _ _ _ Hperm). reflexivity.
Qed.

Lemma doAuth_result_independent_of_map_order_witness :
  let m : gmap string string := {[ "alice" := "secret"; "bob" := "hunter2" ]} in
  fst (doAuth (reverse (infos (NewBasicAuth m))) "Basic Ym9iOmh1bnRlcjI=")
  = fst (doAuth (infos (NewBasicAuth m)) "Basic Ym9iOmh1bnRlcjI=").
Proof.
  apply (doAuth_result_independent_of_map_order
           {[ "alice" := "secret"; "bob" := "hunter2" ]}).
  apply reverse_Permutation.
Defined.

End CredentialFacts.

(** ** The two authenticators on one header *)

Module AgreementFacts.
Import GoBytes Unicode Base64.
Import GoBytesFacts UnicodeFacts Base64Facts SliceFacts.

(** The bytes that the authenticator for one pair expects after the scheme
    are an encoding that the decoder of the other authenticator takes back
    to [user:password], whatever the bytes of the user and of the password;
    they start with no space and no tab. *)
Theorem expectedAuth_decodes_to_the_pair (u p : string) :
  DecodeString (BasicAuthSingle.expectedAuth (BasicAuthSingle.NewBasicAuth u p))
  = inl (u ++ ":" ++ p)
  /\ trim_blanks (BasicAuthSingle.expectedAuth (BasicAuthSingle.NewBasicAuth u p))
     = BasicAuthSingle.expectedAuth (BasicAuthSingle.NewBasicAuth u p).
Proof.
  cbn [BasicAuthSingle.expectedAuth BasicAuthSingle.NewBasicAuth].
  split; [apply DecodeString_EncodeToString | apply trim_blanks_EncodeToString].
Qed.

(** A header that the authenticator for one pair accepts is accepted by the
    authenticator with the credential list when the list has the pair, and
    refused with [ErrBasicAuthNoUser] when it has not; the user has no
    colon. *)
Theorem single_credential_header_on_credential_list
    (m : gmap string string) (u p header : string) :
  BasicAuthSingle.doAuth (BasicAuthSingle.NewBasicAuth u p) header = None ->
  IndexByte u ":" < 0 ->
  fst (BasicAuth.doAuth (BasicAuth.infos (BasicAuth.NewBasicAuth m)) header)
  = if bool_decide (m !! u = Some p)
    then {| BasicAuth.reply := Some u; BasicAuth.err := None |}
    else BasicAuth.failure BasicAuth.ErrBasicAuthNoUser.
Proof.
  intros Hone Hu.
  assert (Hpos : 0 <= IndexByte header " ").
  { unfold BasicAuthSingle.doAuth in Hone.
    destruct (Z.ltb_spec (IndexByte header " ") 0); [discriminate | lia]. }
  rewrite (BasicAuthSingleFacts.doAuth_with_space _ header Hpos) in Hone.
  destruct (EqualFold _ "Basic") eqn:Hfold; simpl negb in Hone; cbv iota in Hone;
    [| discriminate].
  destruct (String.eqb_spec (trim_blanks (slice_from header (IndexByte header " ")))
              (BasicAuthSingle.expectedAuth (BasicAuthSingle.NewBasicAuth u p)))
    as [Hpayload | _]; [| discriminate].
  cbn [BasicAuthSingle.expectedAuth BasicAuthSingle.NewBasicAuth] in Hpayload.
  assert (Hcolon : IndexByte (u ++ ":" ++ p) ":" = len u)
    by (apply IndexByte_app, Hu).
  rewrite (BasicAuthFacts.doAuth_decoded _ _ (u ++ ":" ++ p) Hpos Hfold).
  - rewrite Hcolon. cbn [fst].
    rewrite slice_to_app. change (u ++ ":" ++ p) with (u ++ String ":" p).
    rewrite slice_from_app_next, CredentialFacts.existsb_NewBasicAuth. reflexivity.
  - rewrite slice_from_skip_blanks by exact Hpos.
    rewrite Hpayload. apply DecodeString_EncodeToString.
  - rewrite Hcolon. apply len_nonneg.
Qed.

Lemma single_credential_header_on_credential_list_witness :
  fst (BasicAuth.doAuth (BasicAuth.infos (BasicAuth.NewBasicAuth Example.alice))
         "basic  YWxpY2U6c2VjcmV0")
  = {| BasicAuth.reply := Some "alice"; BasicAuth.err := None |}.
Proof.
  apply (single_credential_header_on_credential_list Example.alice
           "alice" "secret" "basic  YWxpY2U6c2VjcmV0");
    vm_compute; first [reflexivity | discriminate].
Defined.

End AgreementFacts.

(** ** [Authenticate]: the header lines of a request *)

Module AuthenticateFacts.
Import GoBytes Unicode Base64 BasicAuthSingle.
Import GoBytesFacts UnicodeFacts SubtleFacts Base64Facts SliceFacts
  BasicAuthSingleFacts.

(** Is the line a Proxy-Authorization header? *)
Local Abbreviation names_it kv := (EqualFold (fst kv) "Proxy-Authorization").

(** The loop of [VisitAll], from any value of [authError]. *)
Lemma visit_none (b : basicAuth) (headers : list (string * string))
    (authError : option AuthError) :
  forallb (fun kv => negb (names_it kv)) headers = true ->
  fold_left (fun authError kv => if names_it kv then doAuth b (snd kv) else authError)
    headers authError = authError.
Proof.
  revert authError. induction headers as [|kv headers IH]; intros authError; simpl;
    [reflexivity |].
  intros H. apply andb_true_iff in H as [Hkv H].
  destruct (names_it kv); [discriminate |]. apply IH, H.
Qed.

Lemma visit_last (b : basicAuth) (before after : list (string * string))
    (k v : string) (authError : option AuthError) :
  EqualFold k "Proxy-Authorization" = true ->
  forallb (fun kv => negb (names_it kv)) after = true ->
  fold_left (fun authError kv => if names_it kv then doAuth b (snd kv) else authError)
    (before ++ (k, v) :: after) authError = doAuth b v.
Proof.
  intros Hk Hafter. rewrite fold_left_app. cbn [fold_left fst snd].
  rewrite Hk. apply visit_none, Hafter.
Qed.

(** A request without a Proxy-Authorization header is refused with
    [ErrFailedAuth], and no user is returned. *)
Theorem Authenticate_without_header_fails
    (b : basicAuth) (headers : list (string * string)) :
  forallb (fun kv => negb (EqualFold (fst kv) "Proxy-Authorization")) headers = true ->
  Authenticate b headers = ("", Some ErrFailedAuth).
Proof.
  intros H. unfold Authenticate. rewrite visit_none by exact H. reflexivity.
Qed.

Lemma Authenticate_without_header_fails_witness :
  Authenticate (NewBasicAuth "user" "pw")
    [("Host", "example.com"); ("Authorization", "Basic dXNlcjpwdw==")]
  = ("", Some ErrFailedAuth).
Proof.
  apply (Authenticate_without_header_fails (NewBasicAuth "user" "pw")
           [("Host", "example.com"); ("Authorization", "Basic dXNlcjpwdw==")]).
  vm_compute. reflexivity.
Defined.

(** When a request has several Proxy-Authorization headers, the last one
    decides: the call returns the user when [doAuth] accepts the value of
    that header and the error of [doAuth] on it otherwise, whatever the
    headers before it hold. *)
Theorem Authenticate_last_header_decides
    (b : basicAuth) (before after : list (string * string)) (k v : string) :
  EqualFold k "Proxy-Authorization" = true ->
  forallb (fun kv => negb (EqualFold (fst kv) "Proxy-Authorization")) after = true ->
  Authenticate b (before ++ (k, v) :: after)
  = match doAuth b v with
    | None => (user b, None)
    | Some e => ("", Some e)
    end.
Proof.
  intros Hk Hafter. unfold Authenticate.
  rewrite (visit_last b before after k v _ Hk Hafter). reflexivity.
Qed.

(** A valid header followed by a header with another scheme: refused. *)
Lemma Authenticate_last_header_decides_witness :
  Authenticate (NewBasicAuth "user" "pw")
    ([("Proxy-Authorization", "Basic dXNlcjpwdw==")]
       ++ ("proxy-authorization", "Bearer abc") :: [("Host", "example.com")])
  = ("", Some (ErrUnsupportedSchema "Bearer")).
Proof.
  apply (Authenticate_last_header_decides (NewBasicAuth "user" "pw")
           [("Proxy-Authorization", "Basic dXNlcjpwdw==")]
           [("Host", "example.com")] "proxy-authorization" "Bearer abc");
    vm_compute; reflexivity.
Defined.

(** The authenticator made for a user and a password accepts the request
    whose last Proxy-Authorization header is a spelling of [Basic], a
    space, any spaces and tabs, and the base64 encoding of
    [user:password], and returns the user; a colon in the user is no
    obstacle. *)
Theorem Authenticate_accepts_its_credentials
    (user' password' tok blanks k : string) (before after : list (string * string)) :
  In tok basic_spellings ->
  forallb is_blank (list_ascii_of_string blanks) = true ->
  EqualFold k "Proxy-Authorization" = true ->
  forallb (fun kv => negb (EqualFold (fst kv) "Proxy-Authorization")) after = true ->
  Authenticate (NewBasicAuth user' password')
    (before
       ++ (k, tok ++ " " ++ blanks ++ EncodeToString (user' ++ ":" ++ password'))
       :: after)
  = (user', None).
Proof.
  intros Htok Hblanks Hk Hafter. unfold Authenticate.
  rewrite (visit_last _ before after k _ _ Hk Hafter).
  destruct (CredentialFacts.header_parts tok blanks
              (EncodeToString (user' ++ ":" ++ password')) Htok Hblanks
              (trim_blanks_EncodeToString _)) as (Hpos & Hscheme & Hpayload).
  rewrite (doAuth_with_space _ _ Hpos), Hscheme, Hpayload.
  rewrite (proj2 (EqualFold_Basic tok) Htok). cbn [negb NewBasicAuth expectedAuth].
  rewrite String.eqb_refl. reflexivity.
Qed.

(** A user with a colon, a header name in capitals, a tab after the
    space. *)
Lemma Authenticate_accepts_its_credentials_witness :
  Authenticate (NewBasicAuth "a:b" "pw")
    ([("Host", "example.com")]
       ++ ("PROXY-AUTHORIZATION",
           "BASIC" ++ " " ++ String "009" "" ++ EncodeToString ("a:b" ++ ":" ++ "pw"))
       :: [("Accept", "*/*")])
  = ("a:b", None).
Proof.
  apply (Authenticate_accepts_its_credentials "a:b" "pw" "BASIC" (String "009" "")
           "PROXY-AUTHORIZATION" [("Host", "example.com")] [("Accept", "*/*")]);
    first [spelled | vm_compute; reflexivity].
Defined.

(** The refusals of [doAuth]: a header without a space is malformed; a
    header whose first token is not a spelling of [Basic] has an
    unsupported scheme, and the error carries the token, which has no
    space; every other refusal is [ErrFailedAuth]. *)
Theorem single_credential_refusals (b : basicAuth) (header : string) :
  let pos := IndexByte header " " in
  (pos < 0 -> doAuth b header = Some ErrMalformedHeaderValue)
  /\ (0 <= pos -> ~ In (slice_to header pos) basic_spellings ->
      doAuth b header = Some (ErrUnsupportedSchema (slice_to header pos)))
  /\ (forall tok, doAuth b header = Some (ErrUnsupportedSchema tok) ->
        ~ In tok basic_spellings /\ IndexByte tok " " < 0)
  /\ (0 <= pos -> In (slice_to header pos) basic_spellings ->
      doAuth b header = None \/ doAuth b header = Some ErrFailedAuth).
Proof.
  intros pos. split; [| split; [| split]].
  - intros Hpos. unfold doAuth. fold pos.
    destruct (Z.ltb_spec pos 0); [reflexivity | lia].
  - intros Hpos Hnot. rewrite (doAuth_with_space b header Hpos). fold pos.
    rewrite (proj2 (EqualFold_Basic_false _) Hnot). reflexivity.
  - intros tok. unfold doAuth. fold pos.
    destruct (Z.ltb_spec pos 0); [discriminate |].
    destruct (EqualFold (slice_to header pos) "Basic") eqn:Hfold; simpl negb;
      cbv iota.
    + destruct (negb _); discriminate.
    + intros [= <-]. split; [apply EqualFold_Basic_false, Hfold |].
      apply IndexByte_slice_to.
  - intros Hpos Hin. rewrite (doAuth_with_space b header Hpos). fold pos.
    rewrite (proj2 (EqualFold_Basic _) Hin). simpl negb. cbv iota.
    destruct (String.eqb _ _); [left | right]; reflexivity.
Qed.

Lemma single_credential_refusals_witness :
  doAuth (NewBasicAuth "user" "pw") "Basic" = Some ErrMalformedHeaderValue
  /\ doAuth (NewBasicAuth "user" "pw") "Bearer abc def"
     = Some (ErrUnsupportedSchema "Bearer").
Proof.
  split.
  - apply (single_credential_refusals (NewBasicAuth "user" "pw") "Basic").
    vm_compute. reflexivity.
  - apply (single_credential_refusals (NewBasicAuth "user" "pw") "Bearer abc def");
      first [not_spelled | vm_compute; discriminate].
Defined.

End AuthenticateFacts.

(** ** [Auth]: what a call answers, whatever the cache holds *)

Module AuthFacts.
Import GoBytes Unicode Base64 BoundedCache BasicAuth.
Import UnicodeFacts BasicAuthFacts AuthCacheFacts CredentialFacts.

(** On an authenticator that calls of [Auth] have led to, from the one that
    [NewBasicAuth] returns for a map: a call with the header that is a
    spelling of [Basic], a space, any spaces and tabs, and the base64
    encoding of [user:password] is answered with the user when the map has
    the pair, and with [ErrBasicAuthNoUser] when it has not, at any time
    and whatever was asked before; the user has no colon. *)
Theorem Auth_answers_by_the_map
    (m : gmap string string) (b : basicAuth) (now : Z) (tok blanks u p : string) :
  reachable m b ->
  In tok basic_spellings ->
  forallb is_blank (list_ascii_of_string blanks) = true ->
  IndexByte u ":" < 0 ->
  outcome (Auth b now
             (Some (tok ++ " " ++ blanks ++ EncodeToString (u ++ ":" ++ p))))
  = if bool_decide (m !! u = Some p)
    then (true, Some u, None)
    else (true, None, Some ErrBasicAuthNoUser).
Proof.
  intros Hb Htok Hblanks Hu.
  destruct (reachable_invariant _ _ Hb) as (Hc & Hi & _).
  rewrite (Auth_outcome b now _ Hc), Hi.
  rewrite (doAuth_encoded_pair _ tok blanks u p Htok Hblanks Hu).
  rewrite existsb_NewBasicAuth.
  destruct (bool_decide (m !! u = Some p)); reflexivity.
Qed.

(** The second of two calls with the header of [alice]; it is answered from
    the cache. *)
Lemma Auth_answers_by_the_map_witness :
  let b := NewBasicAuth Example.alice in
  let header := "Basic" ++ " " ++ "" ++ EncodeToString ("alice" ++ ":" ++ "secret") in
  outcome (Auth (after (Auth b 0 (Some header))) 1 (Some header))
  = (true, Some "alice", None).
Proof.
  apply (Auth_answers_by_the_map Example.alice _ 1 "Basic" "" "alice" "secret");
    first [ spelled
          | apply reachable_Auth, reachable_new
          | vm_compute; first [reflexivity | discriminate] ].
Defined.

(** What [Auth] answers, on an authenticator that calls of [Auth] have led
    to: without a header, [false] and nothing else; with a header, [true]
    and either a user of the map, without an error, or an error, without a
    user.  This holds for the answers that come from the cache as well. *)
Theorem Auth_answers_well_formed
    (m : gmap string string) (b : basicAuth) (now : Z) (header : option string)
    (handled : bool) (reply' : option string) (err' : option AuthError) :
  reachable m b ->
  outcome (Auth b now header) = (handled, reply', err') ->
  (handled = true <-> header <> None)
  /\ (header = None -> reply' = None /\ err' = None)
  /\ (forall u, reply' = Some u -> err' = None /\ exists p, m !! u = Some p)
  /\ (header <> None -> reply' = None -> err' <> None).
Proof.
  intros Hb. destruct header as [text |].
  - destruct (reachable_invariant _ _ Hb) as (Hc & Hi & _).
    rewrite (Auth_outcome b now text Hc), Hi.
    destruct (doAuth_result (infos (NewBasicAuth m)) text) as [H1 H2].
    intros [= <- <- <-].
    split; [split; [discriminate | reflexivity] |].
    split; [discriminate |]. split.
    + intros u Hu. destruct (H1 u Hu) as (He & _ & p & Hin).
      split; [exact He |]. exists p. apply NewBasicAuth_infos, Hin.
    + intros _. exact H2.
  - intros [= <- <- <-]. split; [split; [discriminate | congruence] |].
    split; [tauto |]. split; [discriminate | congruence].
Qed.

(** A header with a password that is not the one of the map. *)
Lemma Auth_answers_well_formed_witness :
  outcome (Auth (NewBasicAuth Example.alice) 0 (Some "Basic YWxpY2U6d3Jvbmc="))
  = (true, None, Some ErrBasicAuthNoUser)
  /\ Some ErrBasicAuthNoUser <> None.
Proof.
  split; [reflexivity |].
  apply (Auth_answers_well_formed Example.alice (NewBasicAuth Example.alice) 0
           (Some "Basic YWxpY2U6d3Jvbmc=") true None (Some ErrBasicAuthNoUser)
           (reachable_new _) eq_refl);
    [discriminate | reflexivity].
Defined.

End AuthFacts.

(** ** The options and the dialer they make *)

Module OptsFacts.
Import Opts TLSStore.

(** The timeout of the dialer that [NewBase] makes is never zero: it is the
    timeout of the options, negative ones included, and [DefaultTimeout]
    when the options have none.  In the same way the period of the DNS
    clean-up is never zero. *)
Theorem NewBase_timeout_never_zero (opt : Opts.Opts) :
  timeout (NewBase opt) <> 0
  /\ (Timeout opt <> 0 -> timeout (NewBase opt) = Timeout opt)
  /\ (Timeout opt = 0 -> timeout (NewBase opt) = 20 * Time.Second)
  /\ GetCleanupDNSEvery opt <> 0
  /\ (CleanupDNSEvery opt <> 0 -> GetCleanupDNSEvery opt = CleanupDNSEvery opt)
  /\ (CleanupDNSEvery opt = 0 -> GetCleanupDNSEvery opt = 5 * Time.Minute).
Proof.
  unfold NewBase, GetTimeout, GetCleanupDNSEvery. cbn [timeout].
  destruct (Z.eqb_spec (Timeout opt) 0) as [H | H],
      (Z.eqb_spec (CleanupDNSEvery opt) 0) as [H' | H'];
    repeat split; intros; try assumption; try reflexivity; try discriminate;
    try contradiction.
Qed.

Lemma NewBase_timeout_never_zero_witness :
  timeout (NewBase {| Timeout := -1; CleanupDNSEvery := 0; TLSSkipVerify := false |})
  = -1
  /\ GetCleanupDNSEvery {| Timeout := -1; CleanupDNSEvery := 0;
                           TLSSkipVerify := false |} = 5 * Time.Minute.
Proof.
  split;
    apply (NewBase_timeout_never_zero
             {| Timeout := -1; CleanupDNSEvery := 0; TLSSkipVerify := false |});
    first [discriminate | reflexivity].
Defined.

End OptsFacts.

(** ** [PatchHTTPRequest]: the schemes *)

Module SchemeFacts.
Import GoBytes Unicode Patch Schemes GoBytesFacts UnicodeFacts PatchFacts.

(** The runes that fold to one of the letters of [http]: the letter and its
    capital. *)
Lemma rune_fold_eq_http (r x : Z) :
  In x [104; 116; 112] ->
  rune_fold_eq r x = true ->
  r = x \/ r = x - 32.
Proof.
  intros Hx. unfold rune_fold_eq, RuneSelf.
  destruct (Z.ltb_spec r 128) as [Hr | Hr].
  - simpl in Hx. destruct Hx as [<- | [<- | [<- | []]]]; simpl Z.ltb;
      cbv iota; split_comparisons; simpl; intros Hfold; try discriminate Hfold; lia.
  - rewrite Z.max_l, Z.min_r by (simpl in Hx; lia).
    simpl in Hx. destruct Hx as [<- | [<- | [<- | []]]]; simpl Z.ltb;
      cbv iota;
      match goal with
      | |- context [Z.eqb ?x r] => destruct (Z.eqb_spec x r); [lia |]
      end;
      (destruct (Z.ltb_spec r 128); [lia |]);
      cbn [fold_walk SimpleFold]; simpl Z.eqb; simpl Z.leb; cbv iota; simpl negb;
      simpl andb; cbv iota;
      fold_constants;
      split_comparisons; simpl; intros Hfold; try discriminate Hfold; lia.
Qed.

Lemma http_step (x : Z) (xs : list Z) (tok : string) :
  In x [104; 116; 112] ->
  runes_fold_eq (runes tok) (x :: xs) = true ->
  exists c rest,
    tok = String c rest
    /\ (byte_val c = x \/ byte_val c = x - 32)
    /\ runes_fold_eq (runes rest) xs = true.
Proof.
  intros Hx. destruct tok as [|c rest]; [discriminate |].
  rewrite runes_String.
  destruct (DecodeRune (String c rest)) as [r size] eqn:Hd.
  cbn [fst snd runes_fold_eq]. intros H. apply andb_true_iff in H as [Hr Hrest].
  apply (rune_fold_eq_http r x Hx) in Hr.
  assert (Hsmall : r < 128 /\ r <> RuneError).
  { unfold RuneError. simpl in Hx.
    destruct Hx as [<- | [<- | [<- | []]]]; lia. }
  apply DecodeRune_cases in Hd
    as [(-> & -> & _) | [(-> & _) | [(_ & c1 & r1 & _ & Hc & Hc1 & ->) | [Hbig _]]]].
  - exists c, rest. split; [reflexivity |]. split; [exact Hr | exact Hrest].
  - destruct Hsmall as [_ Hne]. congruence.
  - exfalso. destruct Hsmall as [Hlt _].
    revert Hlt. Z.to_euclidean_division_equations. lia.
  - lia.
Qed.

Lemma http_spellings_fold :
  forallb (fun tok => EqualFold tok "http") http_spellings = true.
Proof. vm_compute. reflexivity. Qed.

(** The schemes that [EqualFold] takes for [http]: its 16 spellings. *)
Lemma EqualFold_http (tok : string) :
  EqualFold tok "http" = true <-> In tok http_spellings.
Proof.
  split.
  - unfold EqualFold. change (runes "http") with [104; 116; 116; 112].
    intros H.
    apply http_step in H as (c1 & t1 & -> & H1 & H); [| simpl; tauto].
    apply http_step in H as (c2 & t2 & -> & H2 & H); [| simpl; tauto].
    apply http_step in H as (c3 & t3 & -> & H3 & H); [| simpl; tauto].
    apply http_step in H as (c4 & t4 & -> & H4 & H); [| simpl; tauto].
    apply runes_fold_eq_nil in H. subst t4.
    assert (E1 : c1 = "h"%char \/ c1 = "H"%char).
    { destruct H1 as [H1 | H1]; [left | right]; apply byte_val_inj; exact H1. }
    assert (E2 : c2 = "t"%char \/ c2 = "T"%char).
    { destruct H2 as [H2 | H2]; [left | right]; apply byte_val_inj; exact H2. }
    assert (E3 : c3 = "t"%char \/ c3 = "T"%char).
    { destruct H3 as [H3 | H3]; [left | right]; apply byte_val_inj; exact H3. }
    assert (E4 : c4 = "p"%char \/ c4 = "P"%char).
    { destruct H4 as [H4 | H4]; [left | right]; apply byte_val_inj; exact H4. }
    destruct E1 as [-> | ->], E2 as [-> | ->], E3 as [-> | ->], E4 as [-> | ->];
      vm_compute; repeat first [left; reflexivity | right].
  - intros Hin. apply (proj1 (forallb_forall _ _) http_spellings_fold tok Hin).
Qed.

(** [PatchHTTPRequest] rewrites the target of the requests whose URI, as
    [req.URI()] gives it, has no scheme or the scheme [http], in any case of
    the letters, and of no other: a request with another scheme, [https]
    for one, is left with the target it has.  The new target is the
    original path; it reads as [/] when that path is empty.  After the
    rewriting the URI is marked as not parsed, so the next [req.URI()]
    parses the new target. *)
Theorem PatchHTTPRequest_rewrites_http_only
    (parse : string -> string -> bool -> URI) (req : Request) :
  let req1 := parseURI parse req in
  let path := pathOriginal (uri req1) in
  (scheme (uri req1) = "" \/ In (scheme (uri req1)) http_spellings ->
   PatchHTTPRequest parse req = SetRequestURIBytes req1 path
   /\ requestURI (PatchHTTPRequest parse req) = path
   /\ RequestURI (PatchHTTPRequest parse req)
      = (if (String.length path =? 0)%nat then "/" else path)
   /\ parsedURI (PatchHTTPRequest parse req) = false
   /\ uri (parseURI parse (PatchHTTPRequest parse req))
      = parse (hostHeader req)
          (if (String.length path =? 0)%nat then "/" else path) (isTLS req))
  /\ (scheme (uri req1) <> "" -> ~ In (scheme (uri req1)) http_spellings ->
      PatchHTTPRequest parse req = req1
      /\ requestURI (PatchHTTPRequest parse req) = requestURI req)
  /\ ~ In "https" http_spellings.
Proof.
  intros req1 path.
  assert (Hfields : hostHeader req1 = hostHeader req /\ isTLS req1 = isTLS req
                    /\ requestURI req1 = requestURI req).
  { unfold req1, parseURI. destruct (parsedURI req); repeat split. }
  destruct Hfields as (Hhost & Htls & Htarget).
  split; [| split].
  - intros H.
    assert (Hfold : EqualFold (Scheme (uri req1)) "http" = true).
    { unfold Scheme. destruct H as [H | H].
      - rewrite H. reflexivity.
      - destruct (String.length (scheme (uri req1)) =? 0)%nat; [reflexivity |].
        apply EqualFold_http, H. }
    rewrite PatchHTTPRequest_parsed. fold req1. rewrite Hfold. fold path.
    split; [reflexivity |]. split; [reflexivity |]. split; [reflexivity |].
    split; [reflexivity |].
    unfold parseURI, SetRequestURIBytes, RequestURI.
    cbn [parsedURI uri hostHeader requestURI isTLS].
    rewrite Hhost, Htls. reflexivity.
  - intros Hne Hnot.
    assert (Hfold : EqualFold (Scheme (uri req1)) "http" = false).
    { unfold Scheme. destruct (scheme (uri req1)) as [|c rest] eqn:Hs; [congruence |].
      cbn [String.length Nat.eqb].
      destruct (EqualFold (String c rest) "http") eqn:Hf; [| reflexivity].
      apply EqualFold_http in Hf. contradiction. }
    rewrite PatchHTTPRequest_parsed. fold req1. rewrite Hfold.
    split; [reflexivity | exact Htarget].
  - vm_compute. intros H.
    repeat (destruct H as [H | H]; [discriminate H |]). exact H.
Qed.

(** A request without a path, as [HTTP://example.com?a=b] is parsed, and a
    request with the scheme [https]. *)
Lemma PatchHTTPRequest_rewrites_http_only_witness :
  let bare :=
    {| hostHeader := "example.com"; requestURI := "HTTP://example.com?a=b";
       isTLS := false; parsedURI := true;
       uri := {| scheme := "HTTP"; host := "example.com"; pathOriginal := "";
                 queryString := "a=b"; hash := "" |} |} in
  let secure :=
    {| hostHeader := "example.com"; requestURI := "https://example.com/a";
       isTLS := false; parsedURI := true;
       uri := {| scheme := "https"; host := "example.com"; pathOriginal := "/a";
                 queryString := ""; hash := "" |} |} in
  (requestURI (PatchHTTPRequest Example.parser_not_run bare) = ""
   /\ RequestURI (PatchHTTPRequest Example.parser_not_run bare) = "/"
   /\ parsedURI (PatchHTTPRequest Example.parser_not_run bare) = false)
  /\ PatchHTTPRequest Example.parser_not_run secure = secure.
Proof.
  split.
  - destruct (PatchHTTPRequest_rewrites_http_only Example.parser_not_run
                {| hostHeader := "example.com";
                   requestURI := "HTTP://example.com?a=b";
                   isTLS := false; parsedURI := true;
                   uri := {| scheme := "HTTP"; host := "example.com";
                             pathOriginal := ""; queryString := "a=b";
                             hash := "" |} |}) as (H & _).
    destruct H as (_ & H1 & H2 & H3 & _).
    + right. vm_compute. repeat first [left; reflexivity | right].
    + split; [exact H1 |]. split; [exact H2 | exact H3].
  - destruct (PatchHTTPRequest_rewrites_http_only Example.parser_not_run
                {| hostHeader := "example.com";
                   requestURI := "https://example.com/a";
                   isTLS := false; parsedURI := true;
                   uri := {| scheme := "https"; host := "example.com";
                             pathOriginal := "/a"; queryString := "";
                             hash := "" |} |}) as (_ & H & _).
    destruct H as (H & _).
    + discriminate.
    + vm_compute. intros H.
      repeat (destruct H as [H | H]; [discriminate H |]). exact H.
    + exact H.
Defined.

End SchemeFacts.

(** ** [getTLSConfig]: the mutex and the configurations *)

Module TLSCallsFacts.
Import BoundedCache BoundedCacheFacts TLSStore TLSCalls TLSStoreFacts.

(** What a step is made of. *)
Lemma step_inv (g : nat) (now : Z) (s s' : System) :
  step g now s = Some s' ->
  exists p b' p',
    clock s <= now
    /\ goroutines s !! g = Some p
    /\ step_goroutine g now (shared s) p = Some (b', p')
    /\ s' = {| clock := now; shared := b'; goroutines := <[g := p']> (goroutines s) |}.
Proof.
  unfold step. destruct (Z.ltb_spec now (clock s)); [discriminate |].
  destruct (goroutines s !! g) as [p |] eqn:Hg; [| discriminate].
  destruct (step_goroutine g now (shared s) p) as [[b' p'] |] eqn:Hr; [| discriminate].
  intros [= <-]. exists p, b', p'. auto.
Qed.

(** What a step of a goroutine does to the mutex: it takes it at [Lock],
    gives it back at [Unlock], and leaves it alone otherwise. *)
Lemma step_goroutine_lock (g : nat) (now : Z) (b b' : base) (p p' : pc) :
  step_goroutine g now b p = Some (b', p') ->
  match p with
  | AtLock _ => tlsConfigsLock b = None /\ tlsConfigsLock b' = Some g
                /\ in_critical_section p' = true
  | AtUnlock _ _ => tlsConfigsLock b' = None /\ in_critical_section p' = false
  | _ => tlsConfigsLock b' = tlsConfigsLock b
         /\ in_critical_section p' = in_critical_section p
  end.
Proof.
  destruct p as [h | h | h | h | h c | h c | h c]; simpl.
  - destruct (Get now h (tlsConfigs b)) as [[conf |] c']; intros [= <- <-];
      split; reflexivity.
  - destruct (tlsConfigsLock b); [discriminate |]. intros [= <- <-].
    repeat split; reflexivity.
  - destruct (Get now h (tlsConfigs b)) as [[conf |] c']; intros [= <- <-];
      split; reflexivity.
  - intros [= <- <-]. split; reflexivity.
  - intros [= <- <-]. split; reflexivity.
  - intros [= <- <-]. split; reflexivity.
  - discriminate.
Qed.

Lemma step_lock_discipline (g : nat) (now : Z) (s s' : System) :
  lock_discipline s -> step g now s = Some s' -> lock_discipline s'.
Proof.
  intros [Hholder Hheld] Hstep.
  apply step_inv in Hstep as (p & b' & p' & _ & Hg & Hr & ->).
  pose proof (lookup_lt_Some _ _ _ Hg) as Hlen.
  apply step_goroutine_lock in Hr.
  unfold lock_discipline. simpl. split.
  - intros g0 Hl.
    destruct (decide (g0 = g)) as [-> | Hne].
    + exists p'. rewrite list_lookup_insert_eq by exact Hlen.
      split; [reflexivity |].
      destruct p; destruct_and?; try assumption; try congruence;
        match goal with
        | H : in_critical_section p' = _ |- _ => rewrite H
        end;
        match goal with
        | H : tlsConfigsLock b' = tlsConfigsLock _ |- _ => rewrite H in Hl
        end;
        destruct (Hholder g Hl) as (q & Hq & Hcs); congruence.
    + rewrite list_lookup_insert_ne by congruence.
      apply Hholder. destruct p; destruct_and?; congruence.
  - intros g0 q Hq Hcs.
    apply lookup_insert_cases in Hq as [[-> ->] | [Hne Hq]].
    + destruct p; destruct_and?; try assumption; try congruence;
        match goal with
        | H : tlsConfigsLock b' = tlsConfigsLock _ |- _ => rewrite H
        end;
        apply (Hheld g _ Hg); congruence.
    + pose proof (Hheld g0 q Hq Hcs) as Hl.
      destruct p; destruct_and?; try congruence.
      pose proof (Hheld g _ Hg eq_refl). congruence.
Qed.

Lemma run_lock_discipline (schedule : list (nat * Z)) (s s' : System) :
  lock_discipline s -> run schedule s = Some s' -> lock_discipline s'.
Proof.
  revert s. induction schedule as [|[g now] schedule IH]; simpl; intros s I.
  - intros [= <-]. exact I.
  - destruct (step g now s) as [s1 |] eqn:Hstep; [| discriminate].
    apply IH. eapply step_lock_discipline; eassumption.
Qed.

Lemma start_lock_discipline (t0 : Z) (opt : Opts.Opts) (hosts : list string) :
  lock_discipline (start t0 (NewBase opt) hosts).
Proof.
  split; simpl; [discriminate |].
  intros g p Hg Hcs. apply list_lookup_fmap_Some in Hg as (h & -> & _).
  discriminate Hcs.
Qed.

(** No deadlock: while a call has not returned, some goroutine can move. *)
Lemma lock_progress (s : System) (now : Z) :
  lock_discipline s -> clock s <= now -> ~ all_returned s ->
  exists g s', step g now s = Some s'.
Proof.
  intros [Hholder Hheld] Hclock Hnot.
  assert (Hstep : forall g p r,
             goroutines s !! g = Some p ->
             step_goroutine g now (shared s) p = Some r ->
             exists g s', step g now s = Some s').
  { intros g p [b' p'] Hg Hr. exists g. unfold step.
    destruct (Z.ltb_spec now (clock s)); [lia |]. rewrite Hg, Hr. eauto. }
  destruct (tlsConfigsLock (shared s)) as [g0 |] eqn:Hl.
  - destruct (Hholder g0 eq_refl) as (p0 & Hg0 & Hc0).
    destruct p0 as [h | h | h | h | h c | h c | h c]; try discriminate Hc0.
    + destruct (Get now h (tlsConfigs (shared s))) as [[conf |] c'] eqn:Hr;
        eapply (Hstep g0 _ _ Hg0); simpl; rewrite Hr; reflexivity.
    + eapply (Hstep g0 _ _ Hg0). reflexivity.
    + eapply (Hstep g0 _ _ Hg0). reflexivity.
    + eapply (Hstep g0 _ _ Hg0). reflexivity.
  - apply not_Forall_Exists in Hnot; [| intros p; apply _].
    apply Exists_exists in Hnot as (p & Hin & Hp).
    apply list_elem_of_lookup_1 in Hin as (g & Hg).
    destruct p as [h | h | h | h | h c | h c | h c];
      try (pose proof (Hheld g _ Hg eq_refl); congruence).
    + destruct (Get now h (tlsConfigs (shared s))) as [[conf |] c'] eqn:Hr;
        eapply (Hstep g _ _ Hg); simpl; rewrite Hr; reflexivity.
    + eapply (Hstep g _ _ Hg). simpl. rewrite Hl. reflexivity.
    + exfalso. apply Hp. reflexivity.
Qed.

Lemma all_returned_unlocked (s : System) :
  lock_discipline s -> all_returned s -> tlsConfigsLock (shared s) = None.
Proof.
  intros [Hholder _] Hall.
  destruct (tlsConfigsLock (shared s)) as [g |] eqn:Hl; [| reflexivity].
  destruct (Hholder g eq_refl) as (p & Hg & Hcs).
  apply list_elem_of_lookup_2 in Hg.
  pose proof (proj1 (Forall_forall _ _) Hall p Hg) as Hret.
  destruct p; discriminate.
Qed.

Lemma step_less_work (s s' : System) (g : nat) (now : Z) :
  step g now s = Some s' -> (work_left s' < work_left s)%nat.
Proof.
  intros Hstep. apply (step_work [] (Nat.le_0_l _) s s' g now Hstep).
Qed.

(** The calls that are under way can all be completed. *)
Lemma lock_can_finish (n : nat) (s : System) :
  (work_left s <= n)%nat ->
  lock_discipline s ->
  exists schedule s', run schedule s = Some s' /\ all_returned s'.
Proof.
  revert s. induction n as [|n IH]; intros s Hn I.
  - exists [], s. split; [reflexivity |].
    destruct (decide (all_returned s)) as [H | H]; [exact H |].
    destruct (lock_progress s (clock s) I ltac:(lia) H) as (g & s' & Hstep).
    apply step_less_work in Hstep. lia.
  - destruct (decide (all_returned s)) as [H | H].
    + exists [], s. split; [reflexivity | exact H].
    + destruct (lock_progress s (clock s) I ltac:(lia) H) as (g & s1 & Hstep).
      pose proof (step_less_work _ _ _ _ Hstep) as Hw.
      destruct (IH s1) as (schedule & s' & Hrun & Hall).
      * lia.
      * eapply step_lock_discipline; eassumption.
      * exists ((g, clock s) :: schedule), s'. split; [| exact Hall].
        simpl. rewrite Hstep. exact Hrun.
Qed.

(** Calls of [getTLSConfig] on a new dialer, for any hosts and interleaved
    in any way: at any time one goroutine at most is between [Lock] and
    [Unlock]; when all the calls have returned the mutex is free; while
    some call has not returned, some goroutine can make a step, at any later
    time; and the calls that are under way can all return. *)
Theorem getTLSConfig_mutual_exclusion_no_deadlock
    (opt : Opts.Opts) (t0 : Z) (hosts : list string)
    (schedule : list (nat * Z)) (s : System) :
  run schedule (start t0 (NewBase opt) hosts) = Some s ->
  (forall g g' p p',
      goroutines s !! g = Some p -> goroutines s !! g' = Some p' ->
      in_critical_section p = true -> in_critical_section p' = true -> g = g')
  /\ (all_returned s -> tlsConfigsLock (shared s) = None)
  /\ (~ all_returned s ->
      forall now, clock s <= now -> exists g s', step g now s = Some s')
  /\ (exists schedule' s',
        run schedule' s = Some s' /\ all_returned s'
        /\ tlsConfigsLock (shared s') = None).
Proof.
  intros Hrun.
  pose proof (run_lock_discipline schedule _ s
                (start_lock_discipline t0 opt hosts) Hrun) as I.
  split; [| split; [| split]].
  - intros g g' p p' Hg Hg' Hcs Hcs'. destruct I as [_ Hheld].
    pose proof (Hheld g p Hg Hcs). pose proof (Hheld g' p' Hg' Hcs').
    congruence.
  - apply all_returned_unlocked, I.
  - intros Hnot now Hnow. apply lock_progress; assumption.
  - destruct (lock_can_finish (work_left s) s (le_n _) I)
      as (schedule' & s' & Hrun' & Hall).
    exists schedule', s'. split; [exact Hrun' |]. split; [exact Hall |].
    apply all_returned_unlocked; [| exact Hall].
    eapply run_lock_discipline; eassumption.
Qed.

(** Three calls; the first holds the mutex while the two others wait. *)
Lemma getTLSConfig_mutual_exclusion_no_deadlock_witness :
  exists s,
    run [(0%nat, 0); (1%nat, 0); (2%nat, 0); (1%nat, 1)]
      (start 0 (NewBase {| Opts.Timeout := 0; Opts.CleanupDNSEvery := 0;
                           Opts.TLSSkipVerify := false |})
         ["a.example"; "b.example"; "a.example"]) = Some s
    /\ tlsConfigsLock (shared s) = Some 1%nat
    /\ forall g g' p p',
        goroutines s !! g = Some p -> goroutines s !! g' = Some p' ->
        in_critical_section p = true -> in_critical_section p' = true -> g = g'.
Proof.
  eexists. split; [vm_compute; reflexivity |]. split; [reflexivity |].
  eapply (getTLSConfig_mutual_exclusion_no_deadlock
            {| Opts.Timeout := 0; Opts.CleanupDNSEvery := 0;
               Opts.TLSSkipVerify := false |} 0
            ["a.example"; "b.example"; "a.example"]
            [(0%nat, 0); (1%nat, 0); (2%nat, 0); (1%nat, 1)]).
  vm_compute. reflexivity.
Defined.

Lemma start_accounted (t0 : Z) (opt : Opts.Opts) (hosts : list string) :
  accounted (Opts.GetTLSSkipVerify opt) (start t0 (NewBase opt) hosts).
Proof.
  constructor; simpl.
  - reflexivity.
  - intros e [].
  - intros g p conf Hg Hc. apply list_lookup_fmap_Some in Hg as (h & -> & _).
    discriminate Hc.
  - intros k [].
  - reflexivity.
  - constructor.
Qed.

(** A step that leaves the constructions as they are, and gives the
    goroutine a configuration that is accounted for. *)
Lemma accounted_same_built (flag : bool) (s : System) (g : nat) (now : Z)
    (p p' : pc) (c : Cache string nat) (l : option nat) :
  accounted flag s ->
  goroutines s !! g = Some p ->
  pc_host p' = pc_host p ->
  (forall e, In e (entries c) ->
             exists t, constructed (shared s) (key e) (value e) t) ->
  (forall conf, pc_conf p' = Some conf ->
                exists t, constructed (shared s) (pc_host p) conf t) ->
  accounted flag
    {| clock := now;
       shared := set_lock (set_cache (shared s) c) l;
       goroutines := <[g := p']> (goroutines s) |}.
Proof.
  intros A Hg Hh He Hc. constructor; simpl.
  - apply (acc_flag _ _ A).
  - exact He.
  - intros g0 q conf Hq Hconf.
    apply lookup_insert_cases in Hq as [[-> ->] | [_ Hq]].
    + rewrite Hh. apply Hc, Hconf.
    + apply (acc_conf _ _ A g0 q conf Hq Hconf).
  - apply (acc_heap _ _ A).
  - apply (acc_sessions _ _ A).
  - apply (acc_fresh _ _ A).
Qed.

Lemma step_accounted (flag : bool) (g : nat) (now : Z) (s s' : System) :
  accounted flag s -> step g now s = Some s' -> accounted flag s'.
Proof.
  intros A Hstep.
  apply step_inv in Hstep as (p & b' & p' & _ & Hg & Hr & ->).
  assert (Hsame : forall b, set_lock (set_cache b (tlsConfigs b)) (tlsConfigsLock b) = b)
    by (intros []; reflexivity).
  destruct p as [h | h | h | h | h c | h c | h c]; simpl in Hr.
  - destruct (Get now h (tlsConfigs (shared s))) as [[conf |] c'] eqn:Hget;
      injection Hr as <- <-;
      change (set_cache (shared s) c')
        with (set_lock (set_cache (shared s) c') (tlsConfigsLock (shared s)));
      apply (accounted_same_built flag s g now _ _ c' _ A Hg);
      try reflexivity;
      try (intros e He; apply (acc_entries _ _ A e);
           apply (Get_entries now h); rewrite Hget; exact He);
      try (intros conf' Hc; discriminate Hc).
    intros conf' [= <-].
    assert (Hf : fst (Get now h (tlsConfigs (shared s))) = Some conf)
      by (rewrite Hget; reflexivity).
    apply Get_Some in Hf as (e & Hin & <- & <- & _).
    apply (acc_entries _ _ A e Hin).
  - destruct (tlsConfigsLock (shared s)); [discriminate |]. injection Hr as <- <-.
    change (set_lock (shared s) (Some g))
      with (set_lock (set_cache (shared s) (tlsConfigs (shared s))) (Some g)).
    apply (accounted_same_built flag s g now _ _ _ _ A Hg); [reflexivity | |].
    + apply (acc_entries _ _ A).
    + intros conf' Hc; discriminate Hc.
  - destruct (Get now h (tlsConfigs (shared s))) as [[conf |] c'] eqn:Hget;
      injection Hr as <- <-;
      change (set_cache (shared s) c')
        with (set_lock (set_cache (shared s) c') (tlsConfigsLock (shared s)));
      apply (accounted_same_built flag s g now _ _ c' _ A Hg);
      try reflexivity;
      try (intros e He; apply (acc_entries _ _ A e);
           apply (Get_entries now h); rewrite Hget; exact He);
      try (intros conf' Hc; discriminate Hc).
    intros conf' [= <-].
    assert (Hf : fst (Get now h (tlsConfigs (shared s))) = Some conf)
      by (rewrite Hget; reflexivity).
    apply Get_Some in Hf as (e & Hin & <- & <- & _).
    apply (acc_entries _ _ A e Hin).
  - injection Hr as <- <-.
    assert (Hold : forall k, In k (built (shared s)) ->
                             (made k < List.length (heap (shared s)))%nat).
    { intros k Hk. eapply lookup_lt_Some, (acc_heap _ _ A k Hk). }
    constructor; simpl.
    + apply (acc_flag _ _ A).
    + intros e He. destruct (acc_entries _ _ A e He) as (t & Ht).
      exists t. unfold constructed. simpl. apply in_or_app. left. exact Ht.
    + intros g0 q conf Hq Hconf.
      apply lookup_insert_cases in Hq as [[-> ->] | [_ Hq]].
      * injection Hconf as <-. exists now. unfold constructed. simpl.
        apply in_or_app. right. left. reflexivity.
      * destruct (acc_conf _ _ A g0 q conf Hq Hconf) as (t & Ht).
        exists t. unfold constructed. simpl. apply in_or_app. left. exact Ht.
    + intros k Hk. apply in_app_or in Hk as [Hk | [<- | []]].
      * rewrite lookup_app_l by (apply Hold, Hk). apply (acc_heap _ _ A k Hk).
      * simpl. rewrite lookup_app_r by lia. rewrite Nat.sub_diag. simpl.
        rewrite (acc_sessions _ _ A), (acc_flag _ _ A). reflexivity.
    + rewrite length_app, (acc_sessions _ _ A). simpl. lia.
    + rewrite map_app. simpl. apply List.NoDup_app.
      * apply (acc_fresh _ _ A).
      * repeat constructor. simpl. tauto.
      * intros x Hx [<- | []]. apply in_map_iff in Hx as (k & Hm & Hk).
        apply Hold in Hk. lia.
  - injection Hr as <- <-.
    change (set_cache (shared s) (Add now h c (tlsConfigs (shared s))))
      with (set_lock (set_cache (shared s) (Add now h c (tlsConfigs (shared s))))
              (tlsConfigsLock (shared s))).
    apply (accounted_same_built flag s g now _ _ _ _ A Hg); [reflexivity | |].
    + intros e He. apply Add_entries in He as [-> | [He _]].
      * apply (acc_conf _ _ A g _ c Hg eq_refl).
      * apply (acc_entries _ _ A e He).
    + intros conf' [= <-]. apply (acc_conf _ _ A g _ c Hg eq_refl).
  - injection Hr as <- <-.
    change (set_lock (shared s) None)
      with (set_lock (set_cache (shared s) (tlsConfigs (shared s))) None).
    apply (accounted_same_built flag s g now _ _ _ _ A Hg); [reflexivity | |].
    + apply (acc_entries _ _ A).
    + intros conf' [= <-]. apply (acc_conf _ _ A g _ c Hg eq_refl).
  - discriminate.
Qed.

Lemma run_accounted (flag : bool) (schedule : list (nat * Z)) (s s' : System) :
  accounted flag s -> run schedule s = Some s' -> accounted flag s'.
Proof.
  revert s. induction schedule as [|[g now] schedule IH]; simpl; intros s I.
  - intros [= <-]. exact I.
  - destruct (step g now s) as [s1 |] eqn:Hstep; [| discriminate].
    apply IH. eapply step_accounted; eassumption.
Qed.

Lemma step_goroutine_host (g : nat) (now : Z) (b b' : base) (p p' : pc) :
  step_goroutine g now b p = Some (b', p') -> pc_host p' = pc_host p.
Proof.
  destruct p as [h | h | h | h | h c | h c | h c]; simpl.
  - destruct (Get now h (tlsConfigs b)) as [[conf |] c']; intros [= <- <-];
      reflexivity.
  - destruct (tlsConfigsLock b); [discriminate |]. intros [= <- <-]. reflexivity.
  - destruct (Get now h (tlsConfigs b)) as [[conf |] c']; intros [= <- <-];
      reflexivity.
  - intros [= <- <-]. reflexivity.
  - intros [= <- <-]. reflexivity.
  - intros [= <- <-]. reflexivity.
  - discriminate.
Qed.

(** The goroutines keep their hosts. *)
Lemma run_hosts (schedule : list (nat * Z)) (s s' : System) :
  run schedule s = Some s' ->
  pc_host <$> goroutines s' = pc_host <$> goroutines s.
Proof.
  revert s. induction schedule as [|[g now] schedule IH]; simpl; intros s.
  - intros [= <-]. reflexivity.
  - destruct (step g now s) as [s1 |] eqn:Hstep; [| discriminate].
    intros Hrun. rewrite (IH s1 Hrun).
    apply step_inv in Hstep as (p & b' & p' & _ & Hg & Hr & ->). simpl.
    apply (hosts_insert _ g p p' Hg), (step_goroutine_host _ _ _ _ _ _ Hr).
Qed.

Lemma made_inj (l : list construction) (k k' : construction) :
  List.NoDup (List.map made l) -> In k l -> In k' l -> made k = made k' -> k = k'.
Proof.
  induction l as [|x l IH]; simpl; [tauto |].
  intros Hnd Hk Hk' Hm. apply NoDup_cons_iff in Hnd as [Hx Hnd].
  destruct Hk as [<- | Hk], Hk' as [<- | Hk'].
  - reflexivity.
  - exfalso. apply Hx. rewrite Hm. apply in_map, Hk'.
  - exfalso. apply Hx. rewrite <- Hm. apply in_map, Hk.
  - apply IH; assumption.
Qed.

(** Calls of [getTLSConfig] on a new dialer, for any hosts (also more than
    the cache holds, so that entries are evicted) and interleaved in any
    way.  A call returns a configuration that was constructed for the host
    it was called with; the configuration has the [InsecureSkipVerify] of
    the options and a session cache of its own.  No configuration is
    constructed twice: the hosts of two constructions that gave the same
    configuration are the same. *)
Theorem getTLSConfig_returns_a_configuration_of_its_host
    (opt : Opts.Opts) (t0 : Z) (hosts : list string)
    (schedule : list (nat * Z)) (s : System) :
  run schedule (start t0 (NewBase opt) hosts) = Some s ->
  (forall g host conf,
      goroutines s !! g = Some (Returned host conf) ->
      hosts !! g = Some host
      /\ (exists t, constructed (shared s) host conf t)
      /\ heap (shared s) !! conf
         = Some {| ClientSessionCache := conf;
                   InsecureSkipVerify := Opts.TLSSkipVerify opt |})
  /\ (forall host conf t host' t',
        constructed (shared s) host conf t ->
        constructed (shared s) host' conf t' ->
        host = host' /\ t = t').
Proof.
  intros Hrun.
  pose proof (run_accounted _ schedule _ s (start_accounted t0 opt hosts) Hrun) as A.
  apply run_hosts in Hrun as Hhosts. simpl in Hhosts.
  rewrite <- list_fmap_compose in Hhosts.
  change (pc_host ∘ AtGet) with (@id string) in Hhosts.
  rewrite list_fmap_id in Hhosts.
  split.
  - intros g host conf Hg. split; [| split].
    + rewrite <- Hhosts, list_lookup_fmap, Hg. reflexivity.
    + apply (acc_conf _ _ A g _ conf Hg eq_refl).
    + destruct (acc_conf _ _ A g _ conf Hg eq_refl) as (t & Ht).
      apply (acc_heap _ _ A _ Ht).
  - intros host conf t host' t' Hc Hc'.
    pose proof (made_inj _ _ _ (acc_fresh _ _ A) Hc Hc' eq_refl) as E.
    injection E as -> ->. split; reflexivity.
Qed.

(** Three hosts on a dialer, two calls for the first. *)
Lemma getTLSConfig_returns_a_configuration_of_its_host_witness :
  exists s,
    run [(0%nat, 0); (0%nat, 0); (0%nat, 0); (0%nat, 1); (0%nat, 1); (0%nat, 1);
         (1%nat, 2)]
      (start 0 (NewBase {| Opts.Timeout := 0; Opts.CleanupDNSEvery := 0;
                           Opts.TLSSkipVerify := true |})
         ["a.example"; "a.example"; "b.example"]) = Some s
    /\ goroutines s !! 1%nat = Some (Returned "a.example" 0%nat)
    /\ heap (shared s) !! 0%nat
       = Some {| ClientSessionCache := 0; InsecureSkipVerify := true |}.
Proof.
  eexists. split; [vm_compute; reflexivity |]. split; [reflexivity |].
  pose proof (getTLSConfig_returns_a_configuration_of_its_host
                {| Opts.Timeout := 0; Opts.CleanupDNSEvery := 0;
                   Opts.TLSSkipVerify := true |} 0
                ["a.example"; "a.example"; "b.example"]
                [(0%nat, 0); (0%nat, 0); (0%nat, 0); (0%nat, 1); (0%nat, 1);
                 (0%nat, 1); (1%nat, 2)] _ ltac:(vm_compute; reflexivity))
    as [H _].
  destruct (H 1%nat "a.example" 0%nat eq_refl) as (_ & _ & Hheap). exact Hheap.
Defined.

End TLSCallsFacts.

(** ** [UpgradeToTLS]: the connection, the watchdog and the timer *)

Module UpgradeCallsFacts.
Import Upgrade UpgradeCalls UpgradeFacts.

Lemma step_closes_for_cause (a : action) (s s' : State) :
  step a s = Some s' -> closes_for_cause s -> closes_for_cause s'.
Proof.
  unfold closes_for_cause.
  destruct s as [cd od ton tf cc c w n]. unfold step. simpl.
  intros Hstep H.
  destruct a as [| | | | [| |] | | |], c as [| | | | r | r], w;
    simpl in Hstep;
    repeat match type of Hstep with
      | (if ?b then _ else _) = _ => destruct b eqn:?
      end;
    try discriminate Hstep; injection Hstep as <-; simpl in *;
    intros [Hw | Hc];
    first [ discriminate Hw | discriminate Hc | tauto
          | apply H; tauto ].
Qed.

Lemma run_closes_for_cause (actions : list action) (s s' : State) :
  run actions s = Some s' -> closes_for_cause s -> closes_for_cause s'.
Proof.
  revert s. induction actions as [|a actions IH]; simpl; intros s.
  - intros [= <-]. tauto.
  - destruct (step a s) as [s1 |] eqn:Hstep; [| discriminate].
    intros Hrun I. eapply IH; [exact Hrun |].
    eapply step_closes_for_cause; eassumption.
Qed.

(** In every state of a call, the connection is closed by the watchdog only
    after the caller's context was cancelled or the timer has fired; a call
    whose context is not cancelled and whose timer has not fired keeps its
    connection open. *)
Theorem connection_closed_only_for_cause
    (cancelled : bool) (actions : list action) (s : State) :
  run actions (initial cancelled) = Some s ->
  connClosed s = true ->
  ctxDone s = true \/ timerFired s = true.
Proof.
  intros Hrun Hclosed.
  apply (run_closes_for_cause actions (initial cancelled) s Hrun).
  - unfold closes_for_cause. simpl. intros [H | H]; discriminate H.
  - right. exact Hclosed.
Qed.

Lemma connection_closed_only_for_cause_witness :
  exists s,
    run [CallerStep; CallerStep; WatchdogStep; CallerStep; TimerFires;
         Select TimerC; WatchdogStep] (initial false) = Some s
    /\ connClosed s = true
    /\ (ctxDone s = true \/ timerFired s = true).
Proof.
  eexists. split; [reflexivity |]. split; [reflexivity |].
  apply (connection_closed_only_for_cause false
           [CallerStep; CallerStep; WatchdogStep; CallerStep; TimerFires;
            Select TimerC; WatchdogStep]); reflexivity.
Defined.

Lemma step_timer_held (a : action) (s s' : State) :
  step a s = Some s' -> invariant s -> timer_held s -> timer_held s'.
Proof.
  unfold timer_held, invariant.
  destruct s as [cd od ton tf cc c w n]. unfold step. simpl.
  intros Hstep (Hn & Hw & _) H.
  destruct a as [| | | | [| |] | | |], c as [| | | | r | r], w;
    simpl in Hstep;
    repeat match type of Hstep with
      | (if ?b then _ else _) = _ => destruct b eqn:?
      end;
    try discriminate Hstep; injection Hstep as <-; simpl in *;
    intros Hon;
    first [ discriminate Hon | tauto
          | destruct (H Hon) as [Hw' | [Hw' | Hw']]; discriminate Hw'
          | exfalso; destruct Hw as [_ Hw]; specialize (Hw Hn); discriminate Hw ].
Qed.

Lemma run_timer_held (actions : list action) (s s' : State) :
  run actions s = Some s' -> invariant s -> timer_held s -> timer_held s'.
Proof.
  revert s. induction actions as [|a actions IH]; simpl; intros s.
  - intros [= <-]. tauto.
  - destruct (step a s) as [s1 |] eqn:Hstep; [| discriminate].
    intros Hrun I T. eapply IH; [exact Hrun | |].
    + eapply call_step_invariant; eassumption.
    + eapply step_timer_held; eassumption.
Qed.

(** What holds once the call is over. *)
Lemma step_after_return (a : action) (s s' : State) (r : result) :
  step a s = Some s' ->
  caller s = Done r -> ownDone s = true -> watchdog s <> NotLaunched ->
  caller s' = Done r /\ ownDone s' = true /\ watchdog s' <> NotLaunched
  /\ ((if is_watchdog_action a then 1 else 0) + watchdog_left (watchdog s')
      <= watchdog_left (watchdog s))%nat.
Proof.
  destruct s as [cd od ton tf cc c w n]. unfold step. simpl.
  intros Hstep -> -> Hw.
  destruct a as [| | | | [| |] | | |], w;
    simpl in Hstep;
    repeat match type of Hstep with
      | (if ?b then _ else _) = _ => destruct b eqn:?
      end;
    try discriminate Hstep; try congruence; injection Hstep as <-; simpl;
    repeat split; first [congruence | lia].
Qed.

Lemma run_after_return (actions : list action) (s s' : State) (r : result) :
  run actions s = Some s' ->
  caller s = Done r -> ownDone s = true -> watchdog s <> NotLaunched ->
  caller s' = Done r /\ ownDone s' = true /\ watchdog s' <> NotLaunched
  /\ (watchdog_steps actions + watchdog_left (watchdog s')
      <= watchdog_left (watchdog s))%nat.
Proof.
  revert s. induction actions as [|a actions IH]; simpl; intros s.
  - intros [= <-]. unfold watchdog_steps. simpl. repeat split; try assumption. lia.
  - destruct (step a s) as [s1 |] eqn:Hstep; [| discriminate].
    intros Hrun Hc Ho Hw.
    destruct (step_after_return a s s1 r Hstep Hc Ho Hw) as (Hc1 & Ho1 & Hw1 & Hm).
    destruct (IH s1 Hrun Hc1 Ho1 Hw1) as (Hc' & Ho' & Hw' & Hm').
    repeat split; try assumption.
    unfold watchdog_steps in *. simpl.
    destruct (is_watchdog_action a); simpl; lia.
Qed.

(** When the call is over, with the connection or with an error, the
    deferred [cancel()] has run: [ownCtx.Done()] is closed and stays so.
    From then on, whatever happens, the watchdog cannot wait: in every
    later state it has ended, and then the timer is released, or it has a
    step that it can take at once; and it ends after four of its steps at
    most.  (On its way it may still close the connection, when the timer
    has fired or the caller's context is cancelled.) *)
Theorem watchdog_cannot_wait_after_return
    (cancelled : bool) (actions later : list action) (s s' : State) (r : result) :
  run actions (initial cancelled) = Some s ->
  caller s = Done r ->
  run later s = Some s' ->
  caller s' = Done r
  /\ ownDone s' = true
  /\ (watchdog s' = Exited -> timerOn s' = false)
  /\ (watchdog s' <> Exited ->
      exists a s'', is_watchdog_action a = true /\ step a s' = Some s'')
  /\ (watchdog_steps later + watchdog_left (watchdog s') <= 4)%nat
  /\ (watchdog_left (watchdog s') = 0%nat <-> watchdog s' = Exited).
Proof.
  intros Hrun Hdone Hlater.
  destruct (call_run_invariant _ _ _ Hrun (call_starts_invariant cancelled))
    as (Hn & Hw & Hd).
  pose proof (Hd r Hdone) as Hown.
  assert (Hl : watchdog s <> NotLaunched).
  { intros H. apply Hw in H. rewrite Hn, Hdone in H. discriminate H. }
  destruct (run_after_return later s s' r Hlater Hdone Hown Hl)
    as (Hc' & Ho' & Hw' & Hm).
  assert (Hall : run (actions ++ later) (initial cancelled) = Some s').
  { clear - Hrun Hlater. revert Hrun. generalize (initial cancelled) as s0.
    induction actions as [|a actions IH]; simpl; intros s0.
    - intros [= ->]. exact Hlater.
    - destruct (step a s0) as [s1 |]; [apply IH | discriminate]. }
  pose proof (run_timer_held _ _ _ Hall (call_starts_invariant cancelled)) as Ht.
  assert (Ht0 : timer_held (initial cancelled)) by (intros H; discriminate H).
  specialize (Ht Ht0). unfold timer_held in Ht.
  split; [exact Hc' |]. split; [exact Ho' |]. split; [| split; [| split]].
  - intros He. destruct (timerOn s') eqn:Hon; [| reflexivity].
    destruct (Ht eq_refl) as [H | [H | H]]; congruence.
  - intros Hne. destruct s' as [cd od ton tf cc c w n]. simpl in *. subst od.
    destruct w; try congruence.
    + exists WatchdogStep. eexists. split; [reflexivity |].
      unfold step. simpl. destruct c; reflexivity.
    + exists (Select OwnCtxDone). eexists. split; [reflexivity |].
      unfold step. simpl. destruct c; reflexivity.
    + exists WatchdogStep. eexists. split; [reflexivity |].
      unfold step. simpl. destruct c; reflexivity.
    + exists WatchdogStep. eexists. split; [reflexivity |].
      unfold step. simpl. destruct c; reflexivity.
  - assert (watchdog_left (watchdog s) <= 4)%nat by (destruct (watchdog s); simpl; lia).
    lia.
  - destruct (watchdog s'); simpl; split; intros H; congruence || lia.
Qed.

(** A call that returns while the watchdog is in its [select]: the watchdog
    takes the branch of [ownCtx.Done()] and releases the timer. *)
Lemma watchdog_cannot_wait_after_return_witness :
  let s := {| ctxDone := false; ownDone := true; timerOn := true;
              timerFired := false; connClosed := false;
              caller := Done TLSConn; watchdog := InSelect; launched := 1 |} in
  let s' := {| ctxDone := false; ownDone := true; timerOn := false;
               timerFired := false; connClosed := false;
               caller := Done TLSConn; watchdog := Exited; launched := 1 |} in
  run [CallerStep; CallerStep; CallerStep; WatchdogStep; HandshakeOk; CallerStep]
    (initial false) = Some s
  /\ run [Select OwnCtxDone; WatchdogStep] s = Some s'
  /\ caller s' = Done TLSConn
  /\ (watchdog_steps [Select OwnCtxDone; WatchdogStep]
      + watchdog_left (watchdog s') <= 4)%nat.
Proof.
  cbv zeta. split; [reflexivity |]. split; [reflexivity |].
  destruct (watchdog_cannot_wait_after_return false
              [CallerStep; CallerStep; CallerStep; WatchdogStep; HandshakeOk;
               CallerStep] [Select OwnCtxDone; WatchdogStep]
              {| ctxDone := false; ownDone := true; timerOn := true;
                 timerFired := false; connClosed := false;
                 caller := Done TLSConn; watchdog := InSelect; launched := 1 |}
              {| ctxDone := false; ownDone := true; timerOn := false;
                 timerFired := false; connClosed := false;
                 caller := Done TLSConn; watchdog := Exited; launched := 1 |}
              TLSConn eq_refl eq_refl eq_refl) as (H1 & _ & _ & _ & H5 & _).
  split; [exact H1 | exact H5].
Defined.

(** After a call has returned with the connection, the watchdog can close
    the connection: the timer fires before the watchdog has left its
    [select], and the [select] takes the branch of the timer. *)
Lemma watchdog_may_close_after_return :
  run [CallerStep; CallerStep; CallerStep; WatchdogStep; HandshakeOk; CallerStep;
       TimerFires; Select TimerC; WatchdogStep; WatchdogStep] (initial false)
  = Some {| ctxDone := false; ownDone := true; timerOn := false;
            timerFired := true; connClosed := true;
            caller := Done TLSConn; watchdog := Exited; launched := 1 |}.
Proof. reflexivity. Qed.

(** A call that has returned with the connection. *)
Lemma one_watchdog_witness :
  exists s,
    run [CallerStep; CallerStep; CallerStep; HandshakeOk; CallerStep] (initial false)
    = Some s
    /\ (launched s <= 1)%nat
    /\ (watchdog s <> NotLaunched -> launched s = 1%nat)
    /\ (forall r, caller s = Done r -> launched s = 1%nat).
Proof.
  eexists. split; [reflexivity |].
  apply (one_watchdog false
           [CallerStep; CallerStep; CallerStep; HandshakeOk; CallerStep]).
  reflexivity.
Defined.

(** The timer has fired during the handshake. *)
Lemma timer_closes_witness :
  let s := {| ctxDone := false; ownDone := false; timerOn := true;
              timerFired := true; connClosed := false;
              caller := InHandshake; watchdog := InSelect; launched := 1 |} in
  run [CallerStep; CallerStep; WatchdogStep; CallerStep; TimerFires] (initial false)
  = Some s
  /\ exists s' s'',
      step (Select TimerC) s = Some s'
      /\ step WatchdogStep s' = Some s'' /\ connClosed s'' = true.
Proof.
  split; [reflexivity |].
  eexists. 
  destruct (timer_closes
              {| ctxDone := false; ownDone := false; timerOn := true;
                 timerFired := true; connClosed := false;
                 caller := InHandshake; watchdog := InSelect; launched := 1 |}
              TimerC _ eq_refl eq_refl eq_refl eq_refl eq_refl)
    as (_ & s'' & H1 & H2).
  exists s''. split; [reflexivity |]. split; [exact H1 | exact H2].
Defined.

End UpgradeCallsFacts.

(** ** [Dial]: the attempts *)

Module DialAttemptsFacts.
Import GoBytes Dial.

Section Attempts.
Context {Ctx Conn ResolveError NetError World : Type}.
Variable WithTimeout : Ctx -> Z -> Ctx.
Variable Lookup : Ctx -> string -> World -> (list string + ResolveError) * World.
Variable DialContext :
  Ctx -> string -> string -> World -> (Conn + NetError) * World.

(** The loop tries a start of the list, all of it when it fails; after a
    failed attempt the error is never [nil]. *)
Lemma dial_each_attempts (ctx : Ctx) (port : string) (ips : list string)
    (err : option NetError) (w : World) :
  let '(r, _, tried) := dial_each DialContext ctx port ips err w in
  exists n : nat,
    (n <= List.length ips)%nat
    /\ tried = firstn n (addresses port ips)
    /\ (ips <> [] -> (1 <= n)%nat)
    /\ match r with
       | inl _ => True
       | inr err' => n = List.length ips
                     /\ (ips <> [] -> err' <> None) /\ (ips = [] -> err' = err)
       end.
Proof.
  revert err w. induction ips as [|ip ips IH]; intros err w; cbn [dial_each].
  - exists 0%nat. repeat split; try reflexivity; try lia; congruence.
  - destruct (DialContext ctx "tcp" (JoinHostPort ip port) w) as [[conn | e] w1].
    + exists 1%nat. cbn [List.length addresses List.map firstn].
      repeat split; lia.
    + specialize (IH (Some e) w1).
      destruct (dial_each DialContext ctx port ips (Some e) w1) as [[r w2] tried].
      destruct IH as (n & Hn & Htried & _ & Hr).
      exists (S n). cbn [List.length addresses List.map firstn].
      split; [lia |]. split; [rewrite Htried; reflexivity |].
      split; [lia |].
      destruct r as [conn | err']; [exact I |].
      destruct Hr as (Hlen & Hne & Hnil). split; [lia |].
      split; [| congruence]. intros _.
      destruct ips as [|ip' ips']; [rewrite Hnil by reflexivity; discriminate |].
      apply Hne. discriminate.
Qed.

(** What the loop has done, read off its result: it has stopped at the first
    address that accepted, after the failures of the addresses before it,
    or all the addresses have failed and the error is the one of the last
    attempt. *)
Lemma dial_each_outcome (ctx : Ctx) (port : string) (ips : list string)
    (err : option NetError) (w : World) :
  ips <> [] ->
  let '(r, w', tried) := dial_each DialContext ctx port ips err w in
  match r with
  | inl conn =>
      exists before ip after,
        ips = (before ++ ip :: after)%list
        /\ first_success DialContext ctx port before ip w w' conn
        /\ tried = addresses port (before ++ [ip])%list
  | inr err' =>
      exists e, err' = Some e
                /\ all_fail DialContext ctx port ips w w' e
                /\ tried = addresses port ips
  end.
Proof.
  revert err w. induction ips as [|ip ips IH]; intros err w Hne; [congruence |].
  cbn [dial_each].
  destruct (DialContext ctx "tcp" (JoinHostPort ip port) w) as [[conn | e] w1] eqn:Hd.
  - exists [], ip, ips. split; [reflexivity |]. split; [| reflexivity].
    left. split; [reflexivity | exact Hd].
  - destruct ips as [|ip' ips'].
    + cbn [dial_each]. exists e. split; [reflexivity |].
      split; [apply all_fail_one, Hd | reflexivity].
    + specialize (IH (Some e) w1 ltac:(discriminate)).
      destruct (dial_each DialContext ctx port (ip' :: ips') (Some e) w1)
        as [[r w2] tried].
      destruct r as [conn | err'].
      * destruct IH as (before & ip0 & after & Heq & Hs & Htried).
        exists (ip :: before), ip0, after.
        split; [rewrite Heq; reflexivity |].
        split; [| rewrite Htried; reflexivity].
        right. destruct Hs as [[-> Hs] | (w3 & e3 & Hf & Hs)].
        -- exists w1, e. split; [apply all_fail_one, Hd | exact Hs].
        -- exists w3, e3. split; [| exact Hs].
           eapply all_fail_cons; eassumption.
      * destruct IH as (e' & -> & Hf & Htried).
        exists e'. split; [reflexivity |].
        split; [eapply all_fail_cons; eassumption | rewrite Htried; reflexivity].
Qed.

(** Whatever the resolver and the network do: [Dial] calls [DialContext]
    only on addresses of the resolved list, in its order and each once at
    most, and at least once when the list is not empty; it does not call it
    at all when the resolver fails or returns no address.  A connection
    that [Dial] returns is the one of the first address that accepted,
    after the failures of the addresses before it.  When [Dial] gives up,
    all the addresses have been tried and have failed, and the error
    carries the host and the error of the last attempt. *)
Theorem Dial_attempts_are_a_prefix_of_the_resolved_addresses
    (timeout : Z) (ctx : Ctx) (host port : string) (w : World) :
  let ctx' := WithTimeout ctx timeout in
  let '(r, w', tried) := Dial WithTimeout Lookup DialContext timeout ctx host port w in
  match Lookup ctx' host w with
  | (inr e, w1) => r = inr (ErrCannotResolve e) /\ tried = [] /\ w' = w1
  | (inl [], w1) => r = inr ErrNoIPs /\ tried = [] /\ w' = w1
  | (inl ips, w1) =>
      (exists n : nat,
          (1 <= n <= List.length ips)%nat
          /\ tried = firstn n (addresses port ips))
      /\ match r with
         | inl conn =>
             exists before ip after,
               ips = (before ++ ip :: after)%list
               /\ first_success DialContext ctx' port before ip w1 w' conn
               /\ tried = addresses port (before ++ [ip])%list
         | inr e =>
             exists cause,
               e = ErrCannotDial host (Some cause)
               /\ all_fail DialContext ctx' port ips w1 w' cause
               /\ tried = addresses port ips
         end
  end.
Proof.
  intros ctx'. unfold Dial. fold ctx'.
  destruct (Lookup ctx' host w) as [[ips | e] w1]; [| repeat split].
  destruct ips as [|ip ips]; [repeat split |].
  cbn [List.length Nat.eqb].
  pose proof (dial_each_attempts ctx' port (ip :: ips) None w1) as H.
  pose proof (dial_each_outcome ctx' port (ip :: ips) None w1 ltac:(discriminate))
    as Ho.
  destruct (dial_each DialContext ctx' port (ip :: ips) None w1) as [[r w2] tried].
  destruct H as (n & Hn & Htried & Hone & Hr).
  specialize (Hone ltac:(discriminate)). cbn [List.length] in Hn, Hr.
  destruct r as [conn | err']; (split; [exists n; split; [lia | exact Htried] |]).
  - exact Ho.
  - destruct Ho as (cause & -> & Hf & Ht). exists cause.
    split; [reflexivity |]. split; [exact Hf | exact Ht].
Qed.

End Attempts.

End DialAttemptsFacts.

(** ** Spaces and tabs between the scheme and the payload *)

Module BlanksFacts.
Import GoBytes Unicode Subtle Base64.
Import GoBytesFacts UnicodeFacts SubtleFacts SliceFacts.

(** [doAuth] of the credential list reads the header through the token
    before the first space and what follows the spaces and tabs after
    it. *)
Lemma list_doAuth_parts (infos : list BasicAuth.basicAuthUserInfo)
    (text text' : string) :
  0 <= IndexByte text " " -> 0 <= IndexByte text' " " ->
  slice_to text (IndexByte text " ") = slice_to text' (IndexByte text' " ") ->
  trim_blanks (slice_from text (IndexByte text " "))
  = trim_blanks (slice_from text' (IndexByte text' " ")) ->
  BasicAuth.doAuth infos text = BasicAuth.doAuth infos text'.
Proof.
  intros Hpos Hpos' Htok Hrest. unfold BasicAuth.doAuth.
  destruct (Z.ltb_spec (IndexByte text " ") 0); [lia |].
  destruct (Z.ltb_spec (IndexByte text' " ") 0); [lia |].
  rewrite !slice_from_skip_blanks by assumption.
  rewrite Htok, Hrest. reflexivity.
Qed.

(** The spaces and tabs that follow the first space of a header make no
    difference, to either authenticator: with or without them the result
    is the same, and so are the comparisons that are made. *)
Theorem blanks_after_the_scheme_are_skipped
    (infos : list BasicAuth.basicAuthUserInfo) (b : BasicAuthSingle.basicAuth)
    (tok blanks rest : string) :
  IndexByte tok " " < 0 ->
  forallb is_blank (list_ascii_of_string blanks) = true ->
  BasicAuth.doAuth infos (tok ++ " " ++ blanks ++ rest)
  = BasicAuth.doAuth infos (tok ++ " " ++ rest)
  /\ BasicAuthSingle.doAuth b (tok ++ " " ++ blanks ++ rest)
     = BasicAuthSingle.doAuth b (tok ++ " " ++ rest).
Proof.
  intros Htok Hblanks.
  assert (Hpos : forall r, IndexByte (tok ++ " " ++ r) " " = len tok)
    by (intros r; apply IndexByte_app, Htok).
  assert (Hrest : forall r, trim_blanks (slice_from (tok ++ " " ++ r) (len tok))
                            = trim_blanks r).
  { intros r. rewrite slice_from_app. reflexivity. }
  assert (Hsame : trim_blanks (blanks ++ rest) = trim_blanks rest)
    by (apply trim_blanks_app, Hblanks).
  pose proof (len_nonneg tok) as Hlen.
  split.
  - apply list_doAuth_parts; rewrite !Hpos; try exact Hlen.
    + rewrite !slice_to_app. reflexivity.
    + rewrite !Hrest. exact Hsame.
  - rewrite !BasicAuthSingleFacts.doAuth_with_space by (rewrite Hpos; exact Hlen).
    rewrite !Hpos, !slice_to_app, !Hrest, Hsame. reflexivity.
Qed.

Lemma blanks_after_the_scheme_are_skipped_witness :
  BasicAuth.doAuth (BasicAuth.infos (BasicAuth.NewBasicAuth Example.alice))
    ("Basic" ++ " " ++ String "009" " " ++ "YWxpY2U6c2VjcmV0")
  = BasicAuth.doAuth (BasicAuth.infos (BasicAuth.NewBasicAuth Example.alice))
      ("Basic" ++ " " ++ "YWxpY2U6c2VjcmV0")
  /\ BasicAuthSingle.doAuth (BasicAuthSingle.NewBasicAuth "alice" "secret")
       ("Basic" ++ " " ++ String "009" " " ++ "YWxpY2U6c2VjcmV0")
     = BasicAuthSingle.doAuth (BasicAuthSingle.NewBasicAuth "alice" "secret")
         ("Basic" ++ " " ++ "YWxpY2U6c2VjcmV0").
Proof.
  apply (blanks_after_the_scheme_are_skipped
           (BasicAuth.infos (BasicAuth.NewBasicAuth Example.alice))
           (BasicAuthSingle.NewBasicAuth "alice" "secret")
           "Basic" (String "009" " ") "YWxpY2U6c2VjcmV0");
    vm_compute; first [reflexivity | discriminate].
Defined.

End BlanksFacts.
